(** * hero-particles.js: Poisson-disk sampling and the morphing particle simulation

    A shallow embedding of [src/hero-particles.js] and proofs about it.

    - Numbers.  JavaScript numbers and GLSL [highp float]s are idealised
      as real numbers ([R]): rounding, overflow and NaN are outside that
      model.  Values that the code only ever uses as integers (grid
      coordinates, array indices, loop counters) are [Z] or [nat].  A
      missing value ([null], [undefined], an array hole) is [None].
    - Rounding.  Where rounding decides what the code does, the model in
      reals says nothing.  The sampler is therefore modelled a second
      time, in module [Double], over binary64 numbers: there the quotient
      of a coordinate just below the edge of the domain by [cellSize] can
      round up to [gridWidth] or [gridHeight], and the statements about
      [fill] for all options hold in exact arithmetic only.  For the
      options [createBasePoints] passes the quotient stays below 89 in
      either arithmetic.
    - Randomness.  [Math.random] is a sequence [random : nat -> R] of the
      values it returns to the calls this file makes, in the order of the
      calls; the statements assume its values in [0, 1).  Calls made
      inside the library (a texture draws an identifier when it is built)
      take values of their own, which are not part of the sequence.
    - Loops.  A [while] loop takes a fuel bound and reports [OutOfFuel]
      when it is used up.
    - The GPU.  A texture is a function from texel coordinates to four
      numbers; a simulation pass computes the fragment shader at every
      texel of the render target; the calls of [renderer.render] are
      recorded in the order they are made.  The shaders of the particle
      material are functions of their uniforms, attributes and varyings;
      the noise function of the vertex shader is a parameter.
    - The page.  An event handler is a function on the object, given the
      values it reads from the event, the container and the window;
      [init] starts once [loadImage] has delivered the bytes of the
      image. *)

From Stdlib Require Import Reals Lra Lia ZArith FunctionalExtensionality.
From Stdlib Require Floats.
From stdpp Require Import gmap list.

#[local] Open Scope R_scope.

(** Comparisons of reals used as program tests. *)
#[global] Instance Rlt_decision : RelDecision Rlt := Rlt_dec.
#[global] Instance Rle_decision : RelDecision Rle := Rle_dec.
#[global] Instance Req_decision : EqDecision R := Req_dec_T.

(** A point is a two-element array [[x, y]]. *)
Definition point : Type := R * R.

(** ** The [Math] functions the file calls *)
Module Math.

(** [Math.floor]. *)
Definition floor (x : R) : Z := Int_part x.

(** [Math.ceil]. *)
Definition ceil (x : R) : Z := (- Int_part (- x))%Z.

(** [Math.round]: the nearest integer, halves rounded up. *)
Definition round (x : R) : Z := Int_part (x + / 2).

(** [Math.pow(x, 2)]. *)
Definition pow2 (x : R) : R := x ^ 2.

(** [Math.max] and [Math.min] on two numbers. *)
Definition max (x y : R) : R := Rmax x y.
Definition min (x y : R) : R := Rmin x y.

End Math.

(** The values the loop variable takes in
    [for (let v = start; v < stop; v += step)], for at most [fuel] rounds. *)
Fixpoint js_for (fuel : nat) (start stop step : Z) : list Z :=
  match fuel with
  | O => []
  | S fuel' =>
      if (start <? stop)%Z
      then start :: js_for fuel' (start + step) stop step
      else []
  end.

(** [a[i]] for an integer index: [undefined] outside the array. *)
Definition at_index {A : Type} (l : list A) (i : Z) : option A :=
  if decide (0 <= i)%Z then l !! Z.to_nat i else None.

(** The result of running a loop with a fuel bound. *)
Inductive run (A : Type) : Type :=
| Done (a : A)
| TypeError
| OutOfFuel.
Arguments Done {A} a.
Arguments TypeError {A}.
Arguments OutOfFuel {A}.

(** ** 1. Poisson disk sampling *)
Module PoissonDiskSampling.

(** The [options] object handed to the constructor; an absent key is
    [None]. *)
Record options : Type := Options {
  opt_shape : R * R;
  opt_minDistance : R;
  opt_maxDistance : option R;
  opt_tries : option nat
}.

(** The object's fields.  [grid] is a JavaScript array indexed by integers:
    an index that holds [null] or was never written is absent from the map.
    [draws] counts the calls of [this.rng] made so far. *)
Record sampler : Type := Sampler {
  shape : R * R;
  minDistance : R;
  maxDistance : R;
  maxTries : nat;
  cellSize : R;
  gridWidth : Z;
  gridHeight : Z;
  grid : gmap Z point;
  points : list point;
  activeList : list point;
  draws : nat
}.

(** [a || b] on an optional number: [undefined] and [0] are falsy. *)
Definition or_number (a : option R) (b : R) : R :=
  match a with
  | Some v => if decide (v = 0) then b else v
  | None => b
  end.

Definition or_count (a : option nat) (b : nat) : nat :=
  match a with
  | Some (S n) => S n
  | _ => b
  end.

(** [new Array(n)] accepts only a length below [2^32]; any other length is
    a [RangeError], for which the constructor returns [None]. *)
Definition constructor (o : options) : option sampler :=
  let minDistance := opt_minDistance o in
  let cellSize := minDistance / sqrt 2 in
  let gridWidth := Math.ceil (fst (opt_shape o) / cellSize) in
  let gridHeight := Math.ceil (snd (opt_shape o) / cellSize) in
  if decide (0 <= gridWidth * gridHeight < 2 ^ 32)%Z then
    Some {| shape := opt_shape o;
            minDistance := minDistance;
            maxDistance := or_number (opt_maxDistance o) (minDistance * 2);
            maxTries := or_count (opt_tries o) 30;
            cellSize := cellSize;
            gridWidth := gridWidth;
            gridHeight := gridHeight;
            grid := ∅;
            points := [];
            activeList := [];
            draws := 0 |}
  else None.

(** The cell of the grid a point falls in, and its index in [grid].  The
    floor is taken of the exact quotient, which is below [W / cellSize]
    for a coordinate below [W]; the quotient the code computes is rounded
    (see [Double.PoissonDiskSampling.gridX]). *)
Definition gridX (s : sampler) (p : point) : Z := Math.floor (fst p / cellSize s).
Definition gridY (s : sampler) (p : point) : Z := Math.floor (snd p / cellSize s).
Definition gridIndex (s : sampler) (gx gy : Z) : Z := (gy * gridWidth s + gx)%Z.

Definition addPoint (s : sampler) (p : point) : sampler :=
  {| shape := shape s;
     minDistance := minDistance s;
     maxDistance := maxDistance s;
     maxTries := maxTries s;
     cellSize := cellSize s;
     gridWidth := gridWidth s;
     gridHeight := gridHeight s;
     grid := <[gridIndex s (gridX s p) (gridY s p) := p]> (grid s);
     points := points s ++ [p];
     activeList := activeList s ++ [p];
     draws := draws s |}.

(** The Euclidean distance as the code computes it. *)
Definition dist (p q : point) : R :=
  sqrt (Math.pow2 (fst p - fst q) + Math.pow2 (snd p - snd q)).

Definition searchRadius : Z := 2.

(** The values of [dx] and of [dy]: [-searchRadius], ..., [searchRadius]. *)
Definition offsets : list Z :=
  js_for 5 (- searchRadius) (searchRadius + 1) 1.

(** The body of the two loops of [isValidPoint]: [false] stands for the
    early [return false]. *)
Definition cellAccepts (s : sampler) (p : point) (nx ny : Z) : bool :=
  if decide (0 <= nx ∧ nx < gridWidth s ∧ 0 <= ny ∧ ny < gridHeight s)%Z then
    match grid s !! gridIndex s nx ny with
    | Some neighbor => negb (bool_decide (dist p neighbor < minDistance s))
    | None => true
    end
  else true.

Definition isValidPoint (s : sampler) (p : point) : bool :=
  if decide (fst p < 0 ∨ fst (shape s) <= fst p ∨
             snd p < 0 ∨ snd (shape s) <= snd p)
  then false
  else
    forallb (fun dy =>
      forallb (fun dx => cellAccepts s p (gridX s p + dx) (gridY s p + dy))
              offsets)
      offsets.

Section Fill.

(** [Math.random]: the [n]-th call returns [random n]. *)
Variable random : nat -> R.

Definition rng (s : sampler) : R * sampler :=
  (random (draws s),
   {| shape := shape s;
      minDistance := minDistance s;
      maxDistance := maxDistance s;
      maxTries := maxTries s;
      cellSize := cellSize s;
      gridWidth := gridWidth s;
      gridHeight := gridHeight s;
      grid := grid s;
      points := points s;
      activeList := activeList s;
      draws := S (draws s) |}).

(** The [for] loop of [fill] with [tries] rounds left: the state after
    it, and [found]. *)
Fixpoint tryCandidates (tries : nat) (s : sampler) (p : point)
  : sampler * bool :=
  match tries with
  | O => (s, false)
  | S tries' =>
      let '(r1, s1) := rng s in
      let angle := r1 * PI * 2 in
      let '(r2, s2) := rng s1 in
      let distance :=
        minDistance s2 + r2 * (maxDistance s2 - minDistance s2) in
      let newPoint :=
        (fst p + cos angle * distance, snd p + sin angle * distance) in
      if isValidPoint s2 newPoint
      then (addPoint s2 newPoint, true)
      else tryCandidates tries' s2 p
  end.

(** [this.activeList.splice(randomIndex, 1)]. *)
Definition splice1 (s : sampler) (i : nat) : sampler :=
  {| shape := shape s;
     minDistance := minDistance s;
     maxDistance := maxDistance s;
     maxTries := maxTries s;
     cellSize := cellSize s;
     gridWidth := gridWidth s;
     gridHeight := gridHeight s;
     grid := grid s;
     points := points s;
     activeList := delete i (activeList s);
     draws := draws s |}.

(** One round of the [while] loop; reading a coordinate of an
    [undefined] point is a [TypeError]. *)
Definition fillStep (s : sampler) : option sampler :=
  let '(r, s1) := rng s in
  let randomIndex := Math.floor (r * INR (length (activeList s1))) in
  match at_index (activeList s1) randomIndex with
  | None => None
  | Some p =>
      let '(s2, found) := tryCandidates (maxTries s1) s1 p in
      Some (if found then s2 else splice1 s2 (Z.to_nat randomIndex))
  end.

Fixpoint fillLoop (fuel : nat) (s : sampler) : run sampler :=
  match activeList s with
  | [] => Done s
  | _ :: _ =>
      match fuel with
      | O => OutOfFuel
      | S fuel' =>
          match fillStep s with
          | None => TypeError
          | Some s' => fillLoop fuel' s'
          end
      end
  end.

(** The first lines of [fill]: the first point is drawn and added
    without a test. *)
Definition fillFirst (s : sampler) : sampler :=
  let '(r1, s1) := rng s in
  let '(r2, s2) := rng s1 in
  let firstPoint := (r1 * fst (shape s2), r2 * snd (shape s2)) in
  addPoint s2 firstPoint.

(** [fill]: the final object, whose [points] is the array returned. *)
Definition fill (fuel : nat) (s : sampler) : run sampler :=
  fillLoop fuel (fillFirst s).

End Fill.

End PoissonDiskSampling.

(** ** 1b. Poisson disk sampling in binary64

    The class once more, every number an IEEE 754 binary64 value and
    every operation rounded as the language rounds it.  [Math.cos] and
    [Math.sin] are parameters of [fill]. *)
Module Double.

Import PrimFloat FloatOps SpecFloat.

(** A JavaScript number: an IEEE 754 binary64 value. *)
Definition number : Type := float.

Definition point : Type := number * number.

(** The number with a given integer value, for integers below [2^63] in
    size. *)
Definition ofZ (z : Z) : number :=
  match z with
  | Z0 => zero
  | Zpos _ => of_uint63 (Uint63.of_Z z)
  | Zneg _ => opp (of_uint63 (Uint63.of_Z (- z)))
  end.

(** The integer value of a number that has one. *)
Definition toZ (x : number) : option Z :=
  match Prim2SF x with
  | S754_zero _ => Some 0%Z
  | S754_finite s m e =>
      if (0 <=? e)%Z
      then Some ((if s then Zneg m else Zpos m) * 2 ^ e)%Z
      else if ((Zpos m) mod 2 ^ (- e) =? 0)%Z
           then Some ((if s then Zneg m else Zpos m) / 2 ^ (- e))%Z
           else None
  | _ => None
  end.

Module Math.

(** [Math.floor]: a number without fractional bits is its own floor. *)
Definition floor (x : number) : number :=
  match Prim2SF x with
  | S754_finite s m e =>
      if (0 <=? e)%Z then x
      else ofZ ((if s then Zneg m else Zpos m) / 2 ^ (- e))
  | _ => x
  end.

(** [Math.ceil(x)] is [-Math.floor(-x)]. *)
Definition ceil (x : number) : number := opp (floor (opp x)).

(** [Math.sqrt], correctly rounded. *)
Definition sqrt (x : number) : number := PrimFloat.sqrt x.

(** [Math.pow(x, 2)], taken as the rounded square. *)
Definition pow2 (x : number) : number := mul x x.

(** [Math.PI], 3.141592653589793. *)
Definition PI : number := 0x1.921fb54442d18p+1%float.

End Math.

Module PoissonDiskSampling.

Record options : Type := Options {
  opt_shape : number * number;
  opt_minDistance : number;
  opt_maxDistance : option number;
  opt_tries : option nat
}.

(** The object's fields.  [grid] holds the elements of the array that are
    not [null], by index. *)
Record sampler : Type := Sampler {
  shape : number * number;
  minDistance : number;
  maxDistance : number;
  maxTries : nat;
  cellSize : number;
  gridWidth : number;
  gridHeight : number;
  grid : gmap Z point;
  points : list point;
  activeList : list point;
  draws : nat
}.

(** [a || b] on an optional number: [undefined], [0] and [NaN] are
    falsy. *)
Definition or_number (a : option number) (b : number) : number :=
  match a with
  | Some v => if is_zero v || is_nan v then b else v
  | None => b
  end.

Definition or_count (a : option nat) (b : nat) : nat :=
  match a with
  | Some (S n) => S n
  | _ => b
  end.

(** [new Array(n)] accepts only an integer length from 0 to [2^32 - 1];
    any other length is a [RangeError], for which the constructor returns
    [None]. *)
Definition constructor (o : options) : option sampler :=
  let minDistance := opt_minDistance o in
  let cellSize := (minDistance / Math.sqrt 2)%float in
  let gridWidth := Math.ceil (fst (opt_shape o) / cellSize)%float in
  let gridHeight := Math.ceil (snd (opt_shape o) / cellSize)%float in
  match toZ (gridWidth * gridHeight)%float with
  | Some n =>
      if decide (0 <= n < 2 ^ 32)%Z then
        Some {| shape := opt_shape o;
                minDistance := minDistance;
                maxDistance := or_number (opt_maxDistance o) (minDistance * 2)%float;
                maxTries := or_count (opt_tries o) 30;
                cellSize := cellSize;
                gridWidth := gridWidth;
                gridHeight := gridHeight;
                grid := ∅;
                points := [];
                activeList := [];
                draws := 0 |}
      else None
  | None => None
  end.

Definition gridX (s : sampler) (p : point) : number :=
  Math.floor (fst p / cellSize s)%float.
Definition gridY (s : sampler) (p : point) : number :=
  Math.floor (snd p / cellSize s)%float.
Definition gridIndex (s : sampler) (gx gy : number) : number :=
  (gy * gridWidth s + gx)%float.

(** [this.grid[i] = point]: an index that is not an integer names a
    property that no read of the code reaches, and is left out. *)
Definition store (g : gmap Z point) (i : number) (p : point) : gmap Z point :=
  match toZ i with
  | Some k => <[k := p]> g
  | None => g
  end.

(** [this.grid[i]]. *)
Definition load (g : gmap Z point) (i : number) : option point :=
  match toZ i with
  | Some k => g !! k
  | None => None
  end.

Definition addPoint (s : sampler) (p : point) : sampler :=
  {| shape := shape s;
     minDistance := minDistance s;
     maxDistance := maxDistance s;
     maxTries := maxTries s;
     cellSize := cellSize s;
     gridWidth := gridWidth s;
     gridHeight := gridHeight s;
     grid := store (grid s) (gridIndex s (gridX s p) (gridY s p)) p;
     points := points s ++ [p];
     activeList := activeList s ++ [p];
     draws := draws s |}.

Definition dist (p q : point) : number :=
  Math.sqrt (Math.pow2 (fst p - fst q) + Math.pow2 (snd p - snd q))%float.

(** The values of [dx] and of [dy]: -2, -1, 0, 1, 2. *)
Definition offsets : list number := map ofZ (js_for 5 (- 2) 3 1).

Definition cellAccepts (s : sampler) (p : point) (nx ny : number) : bool :=
  if (0 <=? nx)%float && (nx <? gridWidth s)%float &&
     (0 <=? ny)%float && (ny <? gridHeight s)%float
  then
    match load (grid s) (gridIndex s nx ny) with
    | Some neighbor => negb (dist p neighbor <? minDistance s)%float
    | None => true
    end
  else true.

Definition isValidPoint (s : sampler) (p : point) : bool :=
  if (fst p <? 0)%float || (fst (shape s) <=? fst p)%float ||
     (snd p <? 0)%float || (snd (shape s) <=? snd p)%float
  then false
  else
    forallb (fun dy =>
      forallb (fun dx => cellAccepts s p (gridX s p + dx)%float (gridY s p + dy)%float)
              offsets)
      offsets.

(** The outcome of [fill] within a bound on the rounds of its loop; when
    the bound is used up, the object reached. *)
Inductive outcome : Type :=
| Done (s : sampler)
| TypeError
| OutOfFuel (s : sampler).

Section Fill.

(** [Math.random]: the [n]-th call returns [random n]. *)
Variable random : nat -> number.

(** [Math.cos] and [Math.sin], which the language leaves to the
    implementation. *)
Variable cos sin : number -> number.

Definition rng (s : sampler) : number * sampler :=
  (random (draws s),
   {| shape := shape s;
      minDistance := minDistance s;
      maxDistance := maxDistance s;
      maxTries := maxTries s;
      cellSize := cellSize s;
      gridWidth := gridWidth s;
      gridHeight := gridHeight s;
      grid := grid s;
      points := points s;
      activeList := activeList s;
      draws := S (draws s) |}).

Fixpoint tryCandidates (tries : nat) (s : sampler) (p : point)
  : sampler * bool :=
  match tries with
  | O => (s, false)
  | S tries' =>
      let '(r1, s1) := rng s in
      let angle := (r1 * Math.PI * 2)%float in
      let '(r2, s2) := rng s1 in
      let distance :=
        (minDistance s2 + r2 * (maxDistance s2 - minDistance s2))%float in
      let newPoint :=
        ((fst p + cos angle * distance)%float,
         (snd p + sin angle * distance)%float) in
      if isValidPoint s2 newPoint
      then (addPoint s2 newPoint, true)
      else tryCandidates tries' s2 p
  end.

Definition splice1 (s : sampler) (i : nat) : sampler :=
  {| shape := shape s;
     minDistance := minDistance s;
     maxDistance := maxDistance s;
     maxTries := maxTries s;
     cellSize := cellSize s;
     gridWidth := gridWidth s;
     gridHeight := gridHeight s;
     grid := grid s;
     points := points s;
     activeList := delete i (activeList s);
     draws := draws s |}.

(** One round of the [while] loop; reading a coordinate of an
    [undefined] point is a [TypeError]. *)
Definition fillStep (s : sampler) : option sampler :=
  let '(r, s1) := rng s in
  let randomIndex :=
    Math.floor (r * ofZ (Z.of_nat (length (activeList s1))))%float in
  match toZ randomIndex with
  | None => None
  | Some k =>
      match at_index (activeList s1) k with
      | None => None
      | Some p =>
          let '(s2, found) := tryCandidates (maxTries s1) s1 p in
          Some (if found then s2 else splice1 s2 (Z.to_nat k))
      end
  end.

Fixpoint fillLoop (fuel : nat) (s : sampler) : outcome :=
  match activeList s with
  | [] => Done s
  | _ :: _ =>
      match fuel with
      | O => OutOfFuel s
      | S fuel' =>
          match fillStep s with
          | None => TypeError
          | Some s' => fillLoop fuel' s'
          end
      end
  end.

Definition fillFirst (s : sampler) : sampler :=
  let '(r1, s1) := rng s in
  let '(r2, s2) := rng s1 in
  let firstPoint :=
    ((r1 * fst (shape s2))%float, (r2 * snd (shape s2))%float) in
  addPoint s2 firstPoint.

Definition fill (fuel : nat) (s : sampler) : outcome :=
  fillLoop fuel (fillFirst s).

End Fill.

End PoissonDiskSampling.

End Double.

(** ** GLSL built-in functions used by the simulation shader *)
Module GLSL.

Definition vec2 : Type := R * R.

Record vec4 : Type := Vec4 { px : R; py : R; pz : R; pw : R }.

Definition xy (v : vec4) : vec2 := (px v, py v).

Definition add (a b : vec2) : vec2 := (fst a + fst b, snd a + snd b).
Definition sub (a b : vec2) : vec2 := (fst a - fst b, snd a - snd b).
Definition scale (a : vec2) (k : R) : vec2 := (fst a * k, snd a * k).

Definition dot (a b : vec2) : R := fst a * fst b + snd a * snd b.

Definition length (v : vec2) : R := sqrt (dot v v).

(** [normalize(v)] is [v / length(v)]. *)
Definition normalize (v : vec2) : vec2 := (fst v / length v, snd v / length v).

Definition floor (x : R) : R := IZR (Int_part x).

Definition fract (x : R) : R := x - floor x.

(** [mod(x, y)] is [x - y * floor(x / y)]. *)
Definition mod_ (x y : R) : R := x - y * floor (x / y).

Definition clamp (x lo hi : R) : R := Rmin (Rmax x lo) hi.

(** [smoothstep(edge0, edge1, x)] by the formula of the GLSL reference:
    [t = clamp((x - edge0) / (edge1 - edge0), 0, 1)], result
    [t * t * (3 - 2 * t)].  The shader also calls it with
    [edge0 > edge1], where the GLSL specification leaves the result open
    and implementations evaluate this same formula: 1 below [edge1], 0
    above [edge0]. *)
Definition smoothstep (edge0 edge1 x : R) : R :=
  let t := clamp ((x - edge0) / (edge1 - edge0)) 0 1 in
  t * t * (3 - 2 * t).

(** [mix(a, b, t)] is [a * (1 - t) + b * t]. *)
Definition mix (a b t : R) : R := a * (1 - t) + b * t.
Definition mix2 (a b : vec2) (t : R) : vec2 :=
  (mix (fst a) (fst b) t, mix (snd a) (snd b) t).

(** A square RGBA texture: the texel in column [i] and row [j]. *)
Definition texture : Type := Z -> Z -> vec4.

(** [texture2D] with [NearestFilter] and clamp-to-edge wrapping, on a
    texture of [size] by [size] texels. *)
Definition texel (size : Z) (u : R) : Z :=
  Z.max 0 (Z.min (size - 1) (Int_part (u * IZR size))).

Definition texture2D (size : Z) (t : texture) (uv : vec2) : vec4 :=
  t (texel size (fst uv)) (texel size (snd uv)).

End GLSL.

(** ** 2. The morphing particles *)
Module MorphingParticles.

Import GLSL.

(** [this.size]: the state textures are [size] by [size] texels. *)
Definition size : nat := 256.

(** *** The silhouette: [getPixelBrightness] and [createImagePoints] *)

(** [imageData.data] is the array of the bytes of the 500 by 500 RGBA
    image.  Reading past its end gives [undefined] and the brightness is
    then not a number ([None]). *)
Definition getPixelBrightness (data : list Z) (x y : R) : option R :=
  let px := Math.round (Math.max 0 (Math.min 499 x)) in
  let py := Math.round (Math.max 0 (Math.min 499 y)) in
  let index := ((py * 500 + px) * 4)%Z in
  match at_index data index with
  | Some r => Some (1 - IZR r / 255)
  | None => None
  end.

Definition gap : Z := 4.

(** The test [brightness > 0.5]; a comparison with not-a-number fails. *)
Definition isInk (data : list Z) (x y : Z) : bool :=
  match getPixelBrightness data (IZR x) (IZR y) with
  | Some brightness => bool_decide (0.5 < brightness)
  | None => false
  end.

(** The first pair of loops of [createImagePoints]: [imagePoints]. *)
Definition imagePoints (data : list Z) : list point :=
  flat_map (fun y =>
    flat_map (fun x => if isInk data x y then [(IZR x, IZR y)] else [])
             (js_for 500 0 500 gap))
    (js_for 500 0 500 gap).

(** The body of the inner loop of the nearest-point search, on
    [(nearestPoint, nearestDistance)]; [None] is [Infinity]. *)
Definition nearestStep (basePoint : point) (acc : point * option R)
    (imgPoint : point) : point * option R :=
  let distance :=
    sqrt (Math.pow2 (fst imgPoint - fst basePoint) +
          Math.pow2 (snd imgPoint - snd basePoint)) in
  let closer :=
    match snd acc with
    | None => true
    | Some nearestDistance => bool_decide (distance < nearestDistance)
    end in
  if closer then (imgPoint, Some distance) else acc.

Definition nearestPoint (imgPoints : list point) (basePoint : point) : point :=
  fst (fold_left (nearestStep basePoint) imgPoints (basePoint, None)).

(** [createImagePoints]: the new [this.targetPoints]. *)
Definition createImagePoints (data : list Z) (basePoints : list point)
  : list point :=
  map (nearestPoint (imagePoints data)) basePoints.

(** *** The data textures: [createDataTexture] *)

(** The four writes of one round of the loop of [createDataTexture]; a
    write past the end of a [Float32Array] is ignored. *)
Definition writeParticle (data : list R) (i : nat) (p : point) (r : R)
  : list R :=
  let idx := (i * 4)%nat in
  let data := <[(idx + 0)%nat := (fst p - 250) / 250]> data in
  let data := <[(idx + 1)%nat := (snd p - 250) / 250]> data in
  let data := <[(idx + 2)%nat := r]> data in
  <[(idx + 3)%nat := 0]> data.

Section Setup.

(** [Math.random]: the [n]-th call returns [random n]. *)
Variable random : nat -> R.

(** The loop of [createDataTexture] from index [i], with [rounds]
    rounds left; [draws] counts the calls of [Math.random].  Reading a
    coordinate of an [undefined] point is a [TypeError] ([None]). *)
Fixpoint dataLoop (rounds i : nat) (source : list point) (data : list R)
    (draws : nat) : option (list R * nat) :=
  match rounds with
  | O => Some (data, draws)
  | S rounds' =>
      match source !! i with
      | None => None
      | Some p =>
          dataLoop rounds' (S i) source
                   (writeParticle data i p (random draws)) (S draws)
      end
  end.

(** [createDataTexture]: the [Float32Array] of the texture and the new
    count of draws, which counts the calls of [Math.random] in the loop of
    this function; the constructor of [THREE.DataTexture] is not
    modelled. *)
Definition createDataTexture (particleCount : nat)
    (basePoints targetPoints : list point) (isTarget : bool) (draws : nat)
  : option (list R * nat) :=
  dataLoop particleCount 0
           (if isTarget then targetPoints else basePoints)
           (replicate (size * size * 4) 0) draws.

End Setup.

(** The texel of a [DataTexture] over [data]: four consecutive floats,
    rows of [size] texels. *)
Definition channel (data : list R) (k : Z) : R :=
  match at_index data k with
  | Some v => v
  | None => 0
  end.

Definition dataTexture (data : list R) : texture :=
  fun i j =>
    let k := ((j * Z.of_nat size + i) * 4)%Z in
    Vec4 (channel data k) (channel data (k + 1))
         (channel data (k + 2)) (channel data (k + 3)).

(** The [uv] attribute [createParticles] gives particle [i]. *)
Definition particleUV (i : nat) : vec2 :=
  (INR (i mod size) / INR size, INR (i / size) / INR size).

(** *** The simulation fragment shader *)

Definition hash (p : vec2) : vec2 :=
  let p := (dot p (2127.1, 81.17), dot p (1269.5, 283.37)) in
  (fract (sin (fst p) * 43758.5453), fract (sin (snd p) * 43758.5453)).

(** [lifeEnd] and [lifeTime] of the fragment at [uv]. *)
Definition lifeEnd (uv : vec2) : R :=
  let seed2 := snd (hash uv) in
  3.0 + sin (seed2 * 100.0) * 1.0.

Definition lifeTime (uv : vec2) (uTime : R) : R :=
  let seed := fst (hash uv) in
  let time := uTime * 0.5 in
  mod_ (seed * 100.0 + time) (lifeEnd uv).

(** The step towards [targetPos]: the position after
    [if (dist > 0.005) pos.xy += direction * 0.01 * distStrength], in
    exact arithmetic.  (In the floats of the GPU a step shorter than half
    the spacing of the numbers around [pos] is lost; the step is that
    short only for a [dist] within a hair of 0.15.) *)
Definition approach (pos targetPos : vec2) : vec2 :=
  let direction := normalize (sub targetPos pos) in
  let dist := length (sub targetPos pos) in
  let distStrength := smoothstep 0.15 0.0 dist in
  if decide (0.005 < dist)
  then add pos (scale (scale direction 0.01) distStrength)
  else pos.

(** [main] after the three texture reads: [pos] is the texel of
    [uPosition], [refPos] and [nearestPos] the [xy] of the texels of
    [uPosRefs] and [uPosNearest]; the result is [gl_FragColor]. *)
Definition simulate (uv : vec2) (pos : vec4) (refPos nearestPos : vec2)
    (uTime uIsHovering : R) : vec4 :=
  let scale := pz pos in
  let velocity := pw pos in
  let lifeEnd := lifeEnd uv in
  let lifeTime := lifeTime uv uTime in
  let targetPos := mix2 refPos nearestPos (uIsHovering * uIsHovering) in
  let dist := length (sub targetPos (xy pos)) in
  let posxy := approach (xy pos) targetPos in
  let '(posxy, scale) :=
    if decide (lifeTime < 0.01) then (refPos, 0.0) else (posxy, scale) in
  let targetScale :=
    smoothstep 0.01 0.5 lifeTime - smoothstep 0.5 1.0 (lifeTime / lifeEnd) in
  let targetScale :=
    targetScale + smoothstep 0.1 0.0 dist * 0.0 * uIsHovering in
  let scale := scale + (targetScale - scale) * 0.1 in
  let velocity := smoothstep 0.15 0.001 dist * uIsHovering in
  Vec4 (fst posxy) (snd posxy) scale velocity.

(** The shader at the fragment with window coordinates [fragCoord]. *)
Definition simFragment (uPosition uPosRefs uPosNearest : texture)
    (uTime uIsHovering : R) (fragCoord : vec2) : vec4 :=
  let uv := (fst fragCoord / 256.0, snd fragCoord / 256.0) in
  let pos := texture2D (Z.of_nat size) uPosition uv in
  let refPos := xy (texture2D (Z.of_nat size) uPosRefs uv) in
  let nearestPos := xy (texture2D (Z.of_nat size) uPosNearest uv) in
  simulate uv pos refPos nearestPos uTime uIsHovering.

(** One pass over a render target: the fragment of texel [(i, j)] has
    its centre at [(i + 0.5, j + 0.5)]. *)
Definition simPass (uPosition uPosRefs uPosNearest : texture)
    (uTime uIsHovering : R) : texture :=
  fun i j =>
    simFragment uPosition uPosRefs uPosNearest uTime uIsHovering
                (IZR i + 0.5, IZR j + 0.5).

(** *** The objects of the frame loop *)

(** The two [WebGLRenderTarget] objects, in the order [createSimulation]
    creates them. *)
Inductive target : Type := TargetA | TargetB.

#[global] Instance target_eq_dec : EqDecision target.
Proof. solve_decision. Defined.

(** The texture objects a [uPosition] uniform can refer to. *)
Inductive textureRef : Type :=
| PositionTexture
| TargetTexture
| BaseTexture
| RenderTexture (t : target).

#[global] Instance textureRef_eq_dec : EqDecision textureRef.
Proof. solve_decision. Defined.

Record simUniforms : Type := SimUniforms {
  sim_uPosition : textureRef;
  sim_uPosRefs : textureRef;
  sim_uPosNearest : textureRef;
  sim_uTime : R;
  sim_uDeltaTime : R;
  sim_uIsHovering : R
}.

(** The uniforms of the render material that [update] assigns. *)
Record renderUniforms : Type := RenderUniforms {
  render_uPosition : textureRef;
  render_uTime : R;
  render_uParticleScale : R;
  render_uIsHovering : R
}.

Inductive scene : Type := SimScene | MainScene.

(** One call of [renderer.render]: the scene, the texture its material's
    [uPosition] refers to, and the render target ([None] is the canvas). *)
Record pass : Type := Pass {
  pass_scene : scene;
  pass_reads : textureRef;
  pass_writes : option target
}.

(** The fields of the object that the frame loop uses, the contents of
    the two render targets, and the calls of [renderer.render] so far
    (oldest first). *)
Record app : Type := App {
  width : R;
  isHovering : bool;
  hoverProgress : R;
  time : R;
  positionTexture : list R;
  targetTexture : list R;
  baseTexture : list R;
  rt1 : target;
  rt2 : target;
  simMaterial : simUniforms;
  renderMaterial : renderUniforms;
  renderTarget : option target;
  contents : target -> texture;
  passes : list pass
}.

(** A render target that was never drawn to reads as zero: WebGL
    allocates its texture filled with zeros. *)
Definition blank : texture := fun _ _ => Vec4 0 0 0 0.

Section Create.

Variable random : nat -> R.

(** [createSimulation] followed by [createParticles], for an object
    whose constructor has run. *)
Definition createSimulation (width : R) (basePoints targetPoints : list point)
    (draws : nat) : option app :=
  let particleCount := List.length basePoints in
  match createDataTexture random particleCount basePoints targetPoints false draws with
  | None => None
  | Some (positionTexture, draws) =>
  match createDataTexture random particleCount basePoints targetPoints true draws with
  | None => None
  | Some (targetTexture, draws) =>
  match createDataTexture random particleCount basePoints targetPoints false draws with
  | None => None
  | Some (baseTexture, draws) =>
      Some {| width := width;
              isHovering := false;
              hoverProgress := 0;
              time := 0;
              positionTexture := positionTexture;
              targetTexture := targetTexture;
              baseTexture := baseTexture;
              rt1 := TargetA;
              rt2 := TargetB;
              simMaterial :=
                {| sim_uPosition := PositionTexture;
                   sim_uPosRefs := BaseTexture;
                   sim_uPosNearest := TargetTexture;
                   sim_uTime := 0;
                   sim_uDeltaTime := 0;
                   sim_uIsHovering := 0 |};
              renderMaterial :=
                {| render_uPosition := PositionTexture;
                   render_uTime := 0;
                   render_uParticleScale := 1.0;
                   render_uIsHovering := 0 |};
              renderTarget := None;
              contents := fun _ => blank;
              passes := [] |}
  end end end.

End Create.

(** The texels a texture object holds. *)
Definition texels (s : app) (r : textureRef) : texture :=
  match r with
  | PositionTexture => dataTexture (positionTexture s)
  | TargetTexture => dataTexture (targetTexture s)
  | BaseTexture => dataTexture (baseTexture s)
  | RenderTexture t => contents s t
  end.

(** [renderer.setRenderTarget]. *)
Definition setRenderTarget (t : option target) (s : app) : app :=
  {| width := width s; isHovering := isHovering s;
     hoverProgress := hoverProgress s; time := time s;
     positionTexture := positionTexture s; targetTexture := targetTexture s;
     baseTexture := baseTexture s; rt1 := rt1 s; rt2 := rt2 s;
     simMaterial := simMaterial s; renderMaterial := renderMaterial s;
     renderTarget := t; contents := contents s; passes := passes s |}.

(** [renderer.render(this.simScene, this.simCamera)]: every texel of the
    current render target receives the shader's output. *)
Definition renderSim (s : app) : app :=
  let u := simMaterial s in
  let output :=
    simPass (texels s (sim_uPosition u)) (texels s (sim_uPosRefs u))
            (texels s (sim_uPosNearest u)) (sim_uTime u) (sim_uIsHovering u) in
  {| width := width s; isHovering := isHovering s;
     hoverProgress := hoverProgress s; time := time s;
     positionTexture := positionTexture s; targetTexture := targetTexture s;
     baseTexture := baseTexture s; rt1 := rt1 s; rt2 := rt2 s;
     simMaterial := simMaterial s; renderMaterial := renderMaterial s;
     renderTarget := renderTarget s;
     contents :=
       match renderTarget s with
       | Some t => fun t' => if decide (t' = t) then output else contents s t'
       | None => contents s
       end;
     passes := passes s ++ [Pass SimScene (sim_uPosition u) (renderTarget s)] |}.

(** [render]: [renderer.render(this.scene, this.camera)] draws the
    points from the texture of the render material. *)
Definition render (s : app) : app :=
  {| width := width s; isHovering := isHovering s;
     hoverProgress := hoverProgress s; time := time s;
     positionTexture := positionTexture s; targetTexture := targetTexture s;
     baseTexture := baseTexture s; rt1 := rt1 s; rt2 := rt2 s;
     simMaterial := simMaterial s; renderMaterial := renderMaterial s;
     renderTarget := renderTarget s; contents := contents s;
     passes := passes s ++
       [Pass MainScene (render_uPosition (renderMaterial s)) (renderTarget s)] |}.

(** The assignments of [update] before the simulation pass. *)
Definition beginUpdate (s : app) : app :=
  let time := time s + 0.016 in
  let targetHover := if isHovering s then 1 else 0 in
  let hoverProgress := hoverProgress s + (targetHover - hoverProgress s) * 0.05 in
  {| width := width s; isHovering := isHovering s;
     hoverProgress := hoverProgress; time := time;
     positionTexture := positionTexture s; targetTexture := targetTexture s;
     baseTexture := baseTexture s; rt1 := rt1 s; rt2 := rt2 s;
     simMaterial :=
       {| sim_uPosition := RenderTexture (rt1 s);
          sim_uPosRefs := sim_uPosRefs (simMaterial s);
          sim_uPosNearest := sim_uPosNearest (simMaterial s);
          sim_uTime := time;
          sim_uDeltaTime := 0.016;
          sim_uIsHovering := hoverProgress |};
     renderMaterial := renderMaterial s;
     renderTarget := renderTarget s; contents := contents s;
     passes := passes s |}.

(** The assignments of [update] after the simulation pass, the swap of
    [rt1] and [rt2] included. *)
Definition endUpdate (s : app) : app :=
  {| width := width s; isHovering := isHovering s;
     hoverProgress := hoverProgress s; time := time s;
     positionTexture := positionTexture s; targetTexture := targetTexture s;
     baseTexture := baseTexture s; rt1 := rt2 s; rt2 := rt1 s;
     simMaterial := simMaterial s;
     renderMaterial :=
       {| render_uPosition := RenderTexture (rt2 s);
          render_uTime := time s;
          render_uParticleScale := width s / 1000;
          render_uIsHovering := hoverProgress s |};
     renderTarget := renderTarget s; contents := contents s;
     passes := passes s |}.

Definition update (s : app) : app :=
  let s := beginUpdate s in
  let s := setRenderTarget (Some (rt2 s)) s in
  let s := renderSim s in
  let s := setRenderTarget None s in
  endUpdate s.

(** One frame: the body of [animate]. *)
Definition animate (s : app) : app := render (update s).

(** The event handlers leave [isHovering] at [flag] before a frame. *)
Definition setHovering (flag : bool) (s : app) : app :=
  {| width := width s; isHovering := flag;
     hoverProgress := hoverProgress s; time := time s;
     positionTexture := positionTexture s; targetTexture := targetTexture s;
     baseTexture := baseTexture s; rt1 := rt1 s; rt2 := rt2 s;
     simMaterial := simMaterial s; renderMaterial := renderMaterial s;
     renderTarget := renderTarget s; contents := contents s;
     passes := passes s |}.

(** The object after [n] frames, frame [k] (counted from 0) running
    with the hover flag at [hover k]. *)
Fixpoint frames (hover : nat -> bool) (n : nat) (s : app) : app :=
  match n with
  | O => s
  | S n' => animate (setHovering (hover n') (frames hover n' s))
  end.

End MorphingParticles.

(** ** 3. The particle material: the shaders of [createParticles] *)
Module ParticleMaterial.

Import GLSL MorphingParticles.

(** An RGB colour. *)
Record vec3 : Type := Vec3 { red : R; green : R; blue : R }.

Definition mix3 (a b : vec3) (t : R) : vec3 :=
  Vec3 (mix (red a) (red b) t) (mix (green a) (green b) t) (mix (blue a) (blue b) t).

(** [step(edge, x)] is 0 for [x < edge] and 1 otherwise. *)
Definition step (edge x : R) : R := if decide (x < edge) then 0.0 else 1.0.

(** [renderer.setPixelRatio(Math.min(window.devicePixelRatio, 2))]: the
    value of the uniform [uPixelRatio]. *)
Definition pixelRatio (devicePixelRatio : R) : R := Math.min devicePixelRatio 2.

(** What the vertex shader hands on: [displaced], the final value of
    [pos] that [main] passes to the camera matrices, [gl_PointSize], and
    the varyings the fragment shader reads. *)
Record vertex : Type := Vertex {
  displaced : vec2;
  gl_PointSize : R;
  vScale : R;
  vVelocity : R
}.

Section Vertex.

(** [snoise], the simplex noise of the vertex shader, enters as a
    parameter: the statements hold whatever values it returns. *)
Variable snoise : R * R * R -> R.

(** [main] of the vertex shader, for the vertex with attribute [uv]. *)
Definition vertexMain (uPosition : texture)
    (uTime uParticleScale uPixelRatio uIsHovering : R) (uv : vec2) : vertex :=
  let posData := texture2D (Z.of_nat size) uPosition uv in
  let pos := xy posData in
  let vScale := pz posData in
  let vVelocity := pw posData in
  let noiseX := snoise (fst pos * 10.0, snd pos * 10.0, uTime * 0.2 + 100.0) in
  let noiseY := snoise (fst pos * 10.0, snd pos * 10.0, uTime * 0.2) in
  let noiseX2 := snoise (fst pos * 0.5, snd pos * 0.5, uTime * 0.15 + 45.0) in
  let noiseY2 := snoise (fst pos * 0.5, snd pos * 0.5, uTime * 0.15 + 87.0) in
  let dist := smoothstep 0.0 0.9 vVelocity in
  let dist := mix 0.0 dist uIsHovering in
  let posy := snd pos + noiseY * 0.005 * dist in
  let posx := fst pos + noiseX * 0.005 * dist in
  let posy := posy + noiseY2 * 0.02 in
  let posx := posx + noiseX2 * 0.02 in
  let baseSize := 0.5 in
  {| displaced := (posx, posy);
     gl_PointSize :=
       (((vScale * 12.6) * (uPixelRatio * 0.5) * uParticleScale)
        + (0.9 * uPixelRatio)) * baseSize;
     vScale := vScale;
     vVelocity := vVelocity |}.

(** The vertex of particle [i] in the draw call of [render], with the
    uniforms [update] has left in the render material. *)
Definition drawVertex (uPixelRatio : R) (s : app) (i : nat) : vertex :=
  let u := renderMaterial s in
  vertexMain (texels s (render_uPosition u)) (render_uTime u)
             (render_uParticleScale u) uPixelRatio (render_uIsHovering u)
             (particleUV i).

End Vertex.

(** [main] of the fragment shader at [gl_PointCoord] of a point; [None]
    is [discard].  The result is [gl_FragColor]: the colour and, in [pw],
    the alpha. *)
Definition fragmentMain (uColor1 uColor2 : vec3) (uIsHovering : R)
    (vScale vVelocity : R) (gl_PointCoord : vec2) : option vec4 :=
  let center := sub gl_PointCoord (0.5, 0.5) in
  let dist := length center in
  if decide (0.5 < dist) then None
  else
    let alpha := smoothstep 0.5 0.4 dist in
    let alpha := alpha * vScale in
    let grayColor := uColor2 in
    let blueColor := uColor1 in
    let color := mix3 grayColor blueColor vVelocity in
    let isShapeParticle := smoothstep 0.1 0.5 vVelocity in
    let baseAlpha := 0.3 in
    let shapeAlpha := 1.0 in
    let finalAlpha := mix baseAlpha shapeAlpha (isShapeParticle * uIsHovering) in
    let inactiveBaseAlpha := mix baseAlpha finalAlpha uIsHovering in
    let combinedAlpha :=
      mix baseAlpha inactiveBaseAlpha
          (step 0.01 uIsHovering + (1.0 - step 0.01 uIsHovering)) in
    let particleAlpha :=
      mix baseAlpha (mix baseAlpha shapeAlpha isShapeParticle) uIsHovering in
    Some (Vec4 (red color) (green color) (blue color)
               (alpha * 0.9 * particleAlpha)).

(** The fragment at [gl_PointCoord] of the point drawn for a vertex. *)
Definition drawFragment (uColor1 uColor2 : vec3) (s : app) (v : vertex)
    (gl_PointCoord : vec2) : option vec4 :=
  fragmentMain uColor1 uColor2 (render_uIsHovering (renderMaterial s))
               (vScale v) (vVelocity v) gl_PointCoord.

End ParticleMaterial.

(** ** 4. The object, its events and [init] *)
Module Page.

Import PoissonDiskSampling GLSL MorphingParticles.

(** The [MorphingParticles] object: the fields of the frame loop ([sim])
    and the fields only the constructor, [init] and the event handlers
    use.  [timer] tells whether the timeout set by [init] is pending. *)
Record particles : Type := Particles {
  sim : app;
  height : R;
  particleCount : nat;
  basePoints : list point;
  targetPoints : list point;
  mousePos : vec2;
  timer : bool
}.

Definition withSim (f : app -> app) (v : particles) : particles :=
  {| sim := f (sim v); height := height v; particleCount := particleCount v;
     basePoints := basePoints v; targetPoints := targetPoints v;
     mousePos := mousePos v; timer := timer v |}.

(** The assignment [this.width = ...]. *)
Definition setWidth (w : R) (s : app) : app :=
  {| width := w; isHovering := isHovering s;
     hoverProgress := hoverProgress s; time := time s;
     positionTexture := positionTexture s; targetTexture := targetTexture s;
     baseTexture := baseTexture s; rt1 := rt1 s; rt2 := rt2 s;
     simMaterial := simMaterial s; renderMaterial := renderMaterial s;
     renderTarget := renderTarget s; contents := contents s;
     passes := passes s |}.

(** The events [setupEvents] and [init] listen to, each with the values
    its handler reads from the event and from the container. *)
Inductive event : Type :=
| MouseMove (clientX clientY : R)
| MouseEnter
| MouseLeave
| Click
| TouchEnd
| Resize (offsetWidth offsetHeight innerHeight : R)
| Timeout.

(** [isMobileOrTablet()], for the value of [window.innerWidth]. *)
Definition isMobileOrTablet (innerWidth : R) : bool :=
  bool_decide (innerWidth <= 768).

(** The handler of an event, run while [window.innerWidth] is
    [innerWidth]. *)
Definition handle (innerWidth : R) (e : event) (v : particles) : particles :=
  match e with
  | MouseMove clientX clientY =>
      {| sim := sim v; height := height v; particleCount := particleCount v;
         basePoints := basePoints v; targetPoints := targetPoints v;
         mousePos := ((clientX / width (sim v)) * 2 - 1,
                      - (clientY / height v) * 2 + 1);
         timer := timer v |}
  | MouseEnter =>
      if negb (isMobileOrTablet innerWidth)
      then withSim (setHovering true) v else v
  | MouseLeave =>
      if negb (isMobileOrTablet innerWidth)
      then withSim (setHovering false) v else v
  | Click | TouchEnd =>
      if isMobileOrTablet innerWidth
      then withSim (fun s => setHovering (negb (isHovering s)) s) v else v
  | Resize offsetWidth offsetHeight innerHeight =>
      {| sim := setWidth (or_number (Some offsetWidth) innerWidth) (sim v);
         height := or_number (Some offsetHeight) innerHeight;
         particleCount := particleCount v;
         basePoints := basePoints v; targetPoints := targetPoints v;
         mousePos := mousePos v; timer := timer v |}
  | Timeout =>
      if timer v
      then {| sim := setHovering true (sim v); height := height v;
              particleCount := particleCount v;
              basePoints := basePoints v; targetPoints := targetPoints v;
              mousePos := mousePos v; timer := false |}
      else v
  end.

(** What happens to the object after [init]: a frame of [animate], or an
    event. *)
Inductive action : Type :=
| Frame
| Event (innerWidth : R) (e : event).

Definition act (v : particles) (a : action) : particles :=
  match a with
  | Frame => withSim animate v
  | Event innerWidth e => handle innerWidth e v
  end.

Definition session (l : list action) (v : particles) : particles :=
  fold_left act l v.

(** The outcome of a method: its result, an exception, or a loop that
    did not end within the rounds allowed. *)
Inductive outcome (A : Type) : Type :=
| Completed (a : A)
| Throws
| Unfinished.
Arguments Completed {A} a.
Arguments Throws {A}.
Arguments Unfinished {A}.

Section Init.

Variable random : nat -> R.

(** [createBasePoints]: the array [fill] returns and the count of the
    calls of [Math.random] so far. *)
Definition createBasePoints (fuel : nat) : outcome (list point * nat) :=
  match constructor {| opt_shape := (500, 500);
                       opt_minDistance := 8;
                       opt_maxDistance := Some 10;
                       opt_tries := Some 20%nat |} with
  | None => Throws
  | Some sampler =>
      match fill random fuel sampler with
      | Done s => Completed (points s, draws s)
      | TypeError => Throws
      | OutOfFuel => Unfinished
      end
  end.

(** The constructor of [MorphingParticles] and [init], once [loadImage]
    has put the bytes of the image in [data]: [offsetWidth] and
    [offsetHeight] are the container's, [innerWidth] and [innerHeight] the
    window's.  The first frame runs before [init] ends. *)
Definition init (fuel : nat) (data : list Z)
    (offsetWidth offsetHeight innerWidth innerHeight : R) : outcome particles :=
  let width := or_number (Some offsetWidth) innerWidth in
  let height := or_number (Some offsetHeight) innerHeight in
  match createBasePoints fuel with
  | Throws => Throws
  | Unfinished => Unfinished
  | Completed (basePoints, draws) =>
      let particleCount := List.length basePoints in
      let targetPoints := createImagePoints data basePoints in
      match createSimulation random width basePoints targetPoints draws with
      | None => Throws
      | Some s =>
          Completed {| sim := animate s;
                       height := height;
                       particleCount := particleCount;
                       basePoints := basePoints;
                       targetPoints := targetPoints;
                       mousePos := (0, 0);
                       timer := bool_decide (innerWidth <= 768) |}
      end
  end.

End Init.

End Page.

(** * Vocabulary of the statements *)

(** ** For the sampler *)
Module SamplerSpec.

Import PoissonDiskSampling.

(** The static part of a sampler built by the constructor from a positive
    shape and a positive minimum distance. *)
Record Config (s : sampler) : Prop := {
  cfg_width : 0 < fst (shape s);
  cfg_height : 0 < snd (shape s);
  cfg_min : 0 < minDistance s;
  cfg_cell : cellSize s = minDistance s / sqrt 2;
  cfg_gridWidth : gridWidth s = Math.ceil (fst (shape s) / cellSize s);
  cfg_gridHeight : gridHeight s = Math.ceil (snd (shape s) / cellSize s)
}.

(** A point of the domain [[0, W) x [0, H)]. *)
Definition inDomain (s : sampler) (p : point) : Prop :=
  (0 <= fst p < fst (shape s)) /\ (0 <= snd p < snd (shape s)).

(** Any two entries of the array, at different indices, are at least [d]
    apart. *)
Definition farApart (d : R) (l : list point) : Prop :=
  forall (i j : nat) (p q : point),
    i <> j -> l !! i = Some p -> l !! j = Some q -> d <= dist p q.

(** The invariant of [fill]: the accepted points lie in the domain, each
    is the entry of its own cell of the grid, the grid holds nothing else,
    and they are pairwise at least [minDistance] apart. *)
Record Inv (s : sampler) : Prop := {
  inv_config : Config s;
  inv_domain : forall p, p ∈ points s -> inDomain s p;
  inv_grid : forall p, p ∈ points s ->
    grid s !! gridIndex s (gridX s p) (gridY s p) = Some p;
  inv_cells : forall i p, grid s !! i = Some p -> p ∈ points s;
  inv_far : farApart (minDistance s) (points s)
}.

(** The fields [fill] never assigns. *)
Record sameSetup (s s' : sampler) : Prop := {
  same_shape : shape s' = shape s;
  same_minDistance : minDistance s' = minDistance s;
  same_maxDistance : maxDistance s' = maxDistance s;
  same_maxTries : maxTries s' = maxTries s;
  same_cellSize : cellSize s' = cellSize s;
  same_gridWidth : gridWidth s' = gridWidth s;
  same_gridHeight : gridHeight s' = gridHeight s
}.

(** The number of cells of the grid, and the quantity that every round of
    the [while] loop decreases. *)
Definition cells (s : sampler) : nat := Z.to_nat (gridWidth s * gridHeight s).

Definition measure (s : sampler) : nat :=
  (2 * (cells s - length (points s)) + length (activeList s))%nat.

(** The options [createBasePoints] passes. *)
Definition baseOptions : options :=
  {| opt_shape := (500, 500);
     opt_minDistance := 8;
     opt_maxDistance := Some 10;
     opt_tries := Some 20%nat |}.

End SamplerSpec.

(** ** For the particles *)
Module ParticlesSpec.

Import GLSL MorphingParticles.

(** The length of the step [approach] makes. *)
Definition displacement (pos targetPos : vec2) : R :=
  length (sub (approach pos targetPos) pos).

(** The object [createSimulation] and [createParticles] leave behind. *)
Record Fresh (s : app) : Prop := {
  fresh_rt1 : rt1 s = TargetA;
  fresh_rt2 : rt2 s = TargetB;
  fresh_passes : passes s = [];
  fresh_contents : contents s = fun _ => blank;
  fresh_hover : hoverProgress s = 0;
  fresh_time : time s = 0;
  fresh_refs : sim_uPosRefs (simMaterial s) = BaseTexture;
  fresh_nearest : sim_uPosNearest (simMaterial s) = TargetTexture
}.

(** The render target read and the one written by the simulation pass of
    frame [n], frames counted from 0. *)
Definition readTarget (n : nat) : target := if Nat.even n then TargetA else TargetB.
Definition writeTarget (n : nat) : target := if Nat.even n then TargetB else TargetA.

Definition simPassOf (n : nat) : pass :=
  Pass SimScene (RenderTexture (readTarget n)) (Some (writeTarget n)).
Definition drawPassOf (n : nat) : pass :=
  Pass MainScene (RenderTexture (writeTarget n)) None.

(** An image whose every pixel has the red channel [v]. *)
Definition uniformRed (v : Z) (data : list Z) : Prop :=
  forall px py : Z, (0 <= px < 500)%Z -> (0 <= py < 500)%Z ->
    at_index data ((py * 500 + px) * 4) = Some v.

(** The distance the search of [createImagePoints] compares. *)
Definition distanceTo (basePoint imgPoint : point) : R :=
  sqrt (Math.pow2 (fst imgPoint - fst basePoint) +
        Math.pow2 (snd imgPoint - snd basePoint)).

(** The images of the two extreme cases: every byte 255, every byte 0. *)
Definition whiteImage : list Z := replicate (Z.to_nat 1000000) 255%Z.
Definition blackImage : list Z := replicate (Z.to_nat 1000000) 0%Z.

End ParticlesSpec.

(** ** For the sampler's result *)
Module FillSpec.

Import PoissonDiskSampling SamplerSpec.

(** The candidate the loop of [fill] builds around [p] from the two
    numbers it draws. *)
Definition candidate (s : sampler) (p : point) (r1 r2 : R) : point :=
  let angle := r1 * PI * 2 in
  let distance := minDistance s + r2 * (maxDistance s - minDistance s) in
  (fst p + cos angle * distance, snd p + sin angle * distance).

(** Every active point is an accepted point. *)
Definition activeAccepted (s : sampler) : Prop :=
  forall q, q ∈ activeList s -> q ∈ points s.

(** Every entry but the first has an earlier entry at a distance between
    [lo] and [hi]. *)
Definition spawnedNear (lo hi : R) (l : list point) : Prop :=
  forall (j : nat) (p : point), (0 < j)%nat -> l !! j = Some p ->
    exists (i : nat) (q : point),
      (i < j)%nat /\ l !! i = Some q /\ lo <= dist p q <= hi.

(** Every entry of the grid sits at the index of its own cell. *)
Definition gridKeys (s : sampler) : Prop :=
  forall i p, grid s !! i = Some p -> i = gridIndex s (gridX s p) (gridY s p).

End FillSpec.

(** ** For the frames and the events *)
Module SessionSpec.

Import GLSL MorphingParticles ParticlesSpec Page.

(** The calls of [renderer.render] of the first [n] frames. *)
Definition passesOf (n : nat) : list pass :=
  flat_map (fun k => [simPassOf k; drawPassOf k]) (seq 0 n).

(** The number of frames among the actions. *)
Fixpoint frameCount (l : list action) : nat :=
  match l with
  | [] => 0
  | Frame :: l' => S (frameCount l')
  | Event _ _ :: l' => frameCount l'
  end.

(** What every frame and every event keep, after [n] frames: the roles
    of the two render targets, the uniforms that are never reassigned, the
    ranges of the hover value and of the scale and velocity channels, the
    calls of [renderer.render] and the clock. *)
Record Steady (n : nat) (s : app) : Prop := {
  steady_rt1 : rt1 s = readTarget n;
  steady_rt2 : rt2 s = writeTarget n;
  steady_refs : sim_uPosRefs (simMaterial s) = BaseTexture;
  steady_nearest : sim_uPosNearest (simMaterial s) = TargetTexture;
  steady_hover : 0 <= hoverProgress s <= 1;
  steady_range : forall t i j,
    0 <= pz (contents s t i j) <= 1 /\ 0 <= pw (contents s t i j) <= 1;
  steady_passes : passes s = passesOf n;
  steady_time : time s = 0.016 * INR n;
  steady_draw : (1 <= n)%nat ->
    render_uPosition (renderMaterial s) = RenderTexture (rt1 s) /\
    render_uIsHovering (renderMaterial s) = hoverProgress s /\
    render_uTime (renderMaterial s) = time s
}.

(** The object around the fields of the frame loop, before [init] has
    run its first frame. *)
Definition around (s : app) (height : R) (basePoints targetPoints : list point)
    (timer : bool) : particles :=
  {| sim := s; height := height; particleCount := List.length basePoints;
     basePoints := basePoints; targetPoints := targetPoints;
     mousePos := (0, 0); timer := timer |}.

End SessionSpec.

(** ** For the sampler in binary64 *)
Module DoubleSpec.

Import PrimFloat SpecFloat.
Import Double Double.PoissonDiskSampling.





(** The object the constructor builds from [edgeOptions], with the given
    grid, lists and count of [Math.random] calls. *)
Definition edgeSampler (g : gmap Z point) (ps active : list point) (n : nat)
  : sampler :=
  {| shape := (500, 500)%float;
     minDistance := 0x1.f6d4dc73eef8p+3%float;
     maxDistance := 0x1.f6d4dc73eef8p+4%float;
     maxTries := 30;
     cellSize := 0x1.638e38e38e38ep+3%float;
     gridWidth := 45%float;
     gridHeight := 45%float;
     grid := g;
     points := ps;
     activeList := active;
     draws := n |}.

(** [[480, 499.99999999999994]]: the second coordinate is the largest
    number below 500. *)
Definition edgeSeed : point := (480%float, 0x1.f3fffffffffffp+8%float).


(** The options [createBasePoints] passes. *)
Definition baseOptions : options :=
  {| opt_shape := (500, 500)%float;
     opt_minDistance := 8%float;
     opt_maxDistance := Some 10%float;
     opt_tries := Some 20%nat |}.

(** The largest number below 500. *)
Definition below500 : number := 0x1.f3fffffffffffp+8%float.



End DoubleSpec.

(** * Proofs *)

(** ** Rounding and square roots *)
Module NumberFacts.

Lemma floor_spec (x : R) : IZR (Math.floor x) <= x < IZR (Math.floor x) + 1.
Proof. unfold Math.floor. destruct (base_Int_part x). lra. Qed.

Lemma floor_unique (x : R) (z : Z) : IZR z <= x < IZR z + 1 -> Math.floor x = z.
Proof. intros H. symmetry. apply Int_part_spec. lra. Qed.

Lemma ceil_spec (x : R) : x <= IZR (Math.ceil x) < x + 1.
Proof.
  unfold Math.ceil. rewrite opp_IZR. destruct (base_Int_part (- x)). lra.
Qed.

Lemma floor_lt_ceil (x y : R) : x < y -> (Math.floor x < Math.ceil y)%Z.
Proof.
  intros H. apply lt_IZR. pose proof (floor_spec x). pose proof (ceil_spec y). lra.
Qed.

Lemma floor_nonneg (x : R) : 0 <= x -> (0 <= Math.floor x)%Z.
Proof.
  intros H. pose proof (floor_spec x) as [_ Hf].
  assert (IZR (-1) < IZR (Math.floor x)) as Hlt%lt_IZR by (simpl; lra). lia.
Qed.

Lemma floor_close (x y : R) :
  Rabs (x - y) < 2 -> (-2 <= Math.floor y - Math.floor x <= 2)%Z.
Proof.
  intros H. pose proof (floor_spec x). pose proof (floor_spec y).
  apply Rabs_def2 in H.
  assert (IZR (Math.floor y - Math.floor x) < 3) as Hup.
  { rewrite minus_IZR. lra. }
  assert (IZR (-3) < IZR (Math.floor y - Math.floor x)) as Hlo.
  { rewrite minus_IZR. simpl. lra. }
  apply lt_IZR in Hup, Hlo. lia.
Qed.

Lemma sqrt2_pos : 0 < sqrt 2.
Proof. apply sqrt_lt_R0. lra. Qed.

Lemma sqrt2_sqr : sqrt 2 * sqrt 2 = 2.
Proof. apply sqrt_sqrt. lra. Qed.

Lemma ceil_unique (x : R) (z : Z) : IZR z - 1 < x <= IZR z -> Math.ceil x = z.
Proof.
  intros H. unfold Math.ceil.
  rewrite <- (Int_part_spec (- x) (- z)); [lia |]. rewrite opp_IZR. lra.
Qed.

Lemma sqrt2_bounds : 1.408 < sqrt 2 < 1.424.
Proof.
  pose proof sqrt2_pos as P. pose proof sqrt2_sqr as S.
  split.
  - destruct (Rlt_or_le 1.408 (sqrt 2)); [assumption | nra].
  - destruct (Rlt_or_le (sqrt 2) 1.424); [assumption | nra].
Qed.

End NumberFacts.

(** ** The sampler: minimum distance, termination, capacity *)
Module SamplerProofs.

Import NumberFacts PoissonDiskSampling SamplerSpec.

Lemma cell_pos (s : sampler) : Config s -> 0 < cellSize s.
Proof.
  intros C. rewrite (cfg_cell s C). apply Rdiv_lt_0_compat.
  - apply C.
  - apply sqrt2_pos.
Qed.

Lemma cell_sqr (s : sampler) :
  Config s -> 2 * (cellSize s * cellSize s) = minDistance s * minDistance s.
Proof.
  intros C. pose proof sqrt2_pos as P.
  assert (cellSize s * sqrt 2 = minDistance s) as <-.
  { rewrite (cfg_cell s C). field. lra. }
  transitivity (cellSize s * cellSize s * (sqrt 2 * sqrt 2)); [| ring].
  rewrite sqrt2_sqr. ring.
Qed.

Lemma dist_sqr (p q : point) :
  dist p q * dist p q = (fst p - fst q) * (fst p - fst q) + (snd p - snd q) * (snd p - snd q).
Proof.
  unfold dist, Math.pow2. rewrite sqrt_sqrt; [ring |].
  apply Rplus_le_le_0_compat; apply pow2_ge_0.
Qed.

Lemma dist_nonneg (p q : point) : 0 <= dist p q.
Proof. apply sqrt_pos. Qed.

Lemma dist_sym (p q : point) : dist p q = dist q p.
Proof. unfold dist, Math.pow2. f_equal. ring. Qed.

Lemma dist_refl (p : point) : dist p p = 0.
Proof.
  unfold dist, Math.pow2. replace (_ + _) with 0 by ring. apply sqrt_0.
Qed.

Lemma dist_coord (p q : point) :
  Rabs (fst p - fst q) <= dist p q /\ Rabs (snd p - snd q) <= dist p q.
Proof.
  pose proof (dist_sqr p q) as E. pose proof (dist_nonneg p q) as N.
  pose proof (Rle_0_sqr (fst p - fst q)) as Sx.
  pose proof (Rle_0_sqr (snd p - snd q)) as Sy. unfold Rsqr in Sx, Sy.
  split; unfold Rabs; destruct (Rcase_abs _); nra.
Qed.

Lemma div_nonneg (a b : R) : 0 <= a -> 0 < b -> 0 <= a / b.
Proof.
  intros Ha Hb. apply Rmult_le_pos; [assumption |].
  left. now apply Rinv_0_lt_compat.
Qed.

Lemma div_lt_div (a b c : R) : 0 < c -> a < b -> a / c < b / c.
Proof.
  intros Hc Hab. apply Rmult_lt_compat_r; [now apply Rinv_0_lt_compat | assumption].
Qed.

Lemma cell_in_grid (s : sampler) (p : point) :
  Config s -> inDomain s p ->
  (0 <= gridX s p < gridWidth s)%Z /\ (0 <= gridY s p < gridHeight s)%Z.
Proof.
  intros C [[Hx0 Hx1] [Hy0 Hy1]]. pose proof (cell_pos s C) as Hc.
  unfold gridX, gridY. rewrite (cfg_gridWidth s C), (cfg_gridHeight s C).
  repeat split.
  - apply floor_nonneg. apply div_nonneg; lra.
  - apply floor_lt_ceil. apply div_lt_div; lra.
  - apply floor_nonneg. apply div_nonneg; lra.
  - apply floor_lt_ceil. apply div_lt_div; lra.
Qed.

Lemma gridIndex_inj (s : sampler) (x y x' y' : Z) :
  (0 <= x < gridWidth s)%Z -> (0 <= x' < gridWidth s)%Z ->
  gridIndex s x y = gridIndex s x' y' -> x = x' /\ y = y'.
Proof.
  unfold gridIndex. intros Hx Hx' E.
  assert (y = y') by nia. subst. split; [lia | reflexivity].
Qed.

(** Two points closer than [minDistance] are at most two cells apart in
    each direction. *)
Lemma close_cells (s : sampler) (p q : point) :
  Config s -> dist p q < minDistance s ->
  (-2 <= gridX s q - gridX s p <= 2)%Z /\ (-2 <= gridY s q - gridY s p <= 2)%Z.
Proof.
  intros C Hd. pose proof (cell_pos s C) as Hc. pose proof (cell_sqr s C) as Hs.
  pose proof (cfg_min s C) as Hm.
  assert (minDistance s < 2 * cellSize s) as Hlt by nra.
  destruct (dist_coord p q) as [Hx Hy].
  assert (forall a b, Rabs (a - b) < 2 * cellSize s ->
                      Rabs (a / cellSize s - b / cellSize s) < 2) as K.
  { intros a b H. replace (a / cellSize s - b / cellSize s)
      with ((a - b) / cellSize s) by (field; lra).
    unfold Rdiv. rewrite Rabs_mult, (Rabs_right (/ cellSize s)).
    - apply Rmult_lt_reg_r with (cellSize s); [assumption |].
      rewrite Rmult_assoc, Rinv_l; lra.
    - left. now apply Rinv_0_lt_compat. }
  split; apply floor_close, K; lra.
Qed.

(** Two points of one cell are closer than [minDistance]: the cell's
    diagonal has that length and the cell is half-open. *)
Lemma same_cell_close (s : sampler) (p q : point) :
  Config s -> gridX s p = gridX s q -> gridY s p = gridY s q ->
  dist p q < minDistance s.
Proof.
  intros C Ex Ey. pose proof (cell_pos s C) as Hc. pose proof (cell_sqr s C) as Hs.
  pose proof (cfg_min s C) as Hm.
  assert (forall a b, Math.floor (a / cellSize s) = Math.floor (b / cellSize s) ->
                      (a - b) * (a - b) < cellSize s * cellSize s) as K.
  { intros a b E. pose proof (floor_spec (a / cellSize s)) as Ha.
    pose proof (floor_spec (b / cellSize s)) as Hb. rewrite E in Ha.
    assert (-1 < a / cellSize s - b / cellSize s < 1) as Hab by lra.
    replace (a / cellSize s - b / cellSize s)
      with ((a - b) / cellSize s) in Hab by (field; lra).
    assert (a - b = (a - b) / cellSize s * cellSize s) as -> by (field; lra).
    set (t := (a - b) / cellSize s) in *.
    assert (t * t < 1) as Ht by nra.
    assert (0 < cellSize s * cellSize s) as Hcc by nra.
    replace (t * cellSize s * (t * cellSize s))
      with (t * t * (cellSize s * cellSize s)) by ring.
    nra. }
  pose proof (K _ _ Ex) as Kx. pose proof (K _ _ Ey) as Ky.
  pose proof (dist_sqr p q) as E. pose proof (dist_nonneg p q) as N.
  nra.
Qed.

Lemma offsets_spec (d : Z) : (-2 <= d <= 2)%Z -> In d offsets.
Proof.
  intros H. change offsets with [-2; -1; 0; 1; 2]%Z. simpl.
  assert (d = -2 \/ d = -1 \/ d = 0 \/ d = 1 \/ d = 2)%Z by lia. intuition.
Qed.

(** What a successful [isValidPoint] establishes: the bounded search does
    not miss any accepted point closer than [minDistance]. *)
Lemma isValidPoint_sound (s : sampler) (p : point) :
  Inv s -> isValidPoint s p = true ->
  inDomain s p /\ forall q, q ∈ points s -> minDistance s <= dist p q.
Proof.
  intros I V. unfold isValidPoint in V.
  destruct (decide _) as [|Hdom]; [discriminate |].
  split; [unfold inDomain; lra |].
  intros q Hq. destruct (Rle_or_lt (minDistance s) (dist p q)) as [|Hlt]; [assumption |].
  exfalso.
  destruct (close_cells s p q (inv_config s I) Hlt) as [Hx Hy].
  destruct (cell_in_grid s q (inv_config s I) (inv_domain s I q Hq)) as [Bx By].
  rewrite forallb_forall in V.
  specialize (V (gridY s q - gridY s p)%Z (offsets_spec _ Hy)).
  rewrite forallb_forall in V.
  specialize (V (gridX s q - gridX s p)%Z (offsets_spec _ Hx)).
  replace (gridX s p + (gridX s q - gridX s p))%Z with (gridX s q) in V by lia.
  replace (gridY s p + (gridY s q - gridY s p))%Z with (gridY s q) in V by lia.
  unfold cellAccepts in V. rewrite decide_True in V by lia.
  rewrite (inv_grid s I q Hq) in V.
  rewrite bool_decide_eq_true_2 in V by assumption. discriminate.
Qed.

Lemma farApart_snoc (d : R) (l : list point) (p : point) :
  farApart d l -> (forall q, q ∈ l -> d <= dist p q) -> farApart d (l ++ [p]).
Proof.
  intros F H i j a b Hij Ha Hb.
  apply lookup_snoc_Some in Ha as [[Hi Ha] | [Hi ->]];
    apply lookup_snoc_Some in Hb as [[Hj Hb] | [Hj ->]].
  - exact (F i j a b Hij Ha Hb).
  - rewrite dist_sym. apply H. eapply list_elem_of_lookup_2; eassumption.
  - apply H. eapply list_elem_of_lookup_2; eassumption.
  - lia.
Qed.

Lemma farApart_nil (d : R) : farApart d [].
Proof. intros i j p q _ H. rewrite lookup_nil in H. discriminate. Qed.

Lemma addPoint_Inv (s : sampler) (p : point) :
  Inv s -> inDomain s p -> (forall q, q ∈ points s -> minDistance s <= dist p q) ->
  Inv (addPoint s p).
Proof.
  intros I D F. pose proof (inv_config s I) as C. split.
  - destruct C. split; assumption.
  - intros q Hq. simpl in Hq. apply elem_of_app in Hq as [Hq | Hq].
    + exact (inv_domain s I q Hq).
    + apply list_elem_of_singleton in Hq. subst. exact D.
  - intros q Hq. simpl in Hq |- *.
    change (gridIndex (addPoint s p)) with (gridIndex s).
    change (gridX (addPoint s p)) with (gridX s).
    change (gridY (addPoint s p)) with (gridY s).
    apply elem_of_app in Hq as [Hq | Hq].
    + rewrite lookup_insert_ne; [exact (inv_grid s I q Hq) |].
      intros E.
      destruct (cell_in_grid s p C D) as [Bp _].
      destruct (cell_in_grid s q C (inv_domain s I q Hq)) as [Bq _].
      apply gridIndex_inj in E as [Ex Ey]; [| assumption ..].
      pose proof (same_cell_close s p q C Ex Ey). specialize (F q Hq). lra.
    + apply list_elem_of_singleton in Hq. subst. apply lookup_insert_eq.
  - intros i q Hq. simpl in Hq |- *. apply elem_of_app.
    apply lookup_insert_Some in Hq as [[_ <-] | [_ Hq]].
    + right. apply list_elem_of_singleton. reflexivity.
    + left. exact (inv_cells s I i q Hq).
  - simpl. apply farApart_snoc; [exact (inv_far s I) | exact F].
Qed.

(** [isValidPoint] accepts exactly the points of the domain that are at
    least [minDistance] from every accepted point. *)
Lemma isValidPoint_complete (s : sampler) (p : point) :
  Inv s -> inDomain s p -> (forall q, q ∈ points s -> minDistance s <= dist p q) ->
  isValidPoint s p = true.
Proof.
  intros I [Dx Dy] F. unfold isValidPoint. rewrite decide_False by lra.
  apply forallb_forall. intros dy _. apply forallb_forall. intros dx _.
  unfold cellAccepts. destruct (decide _); [| reflexivity].
  destruct (grid s !! _) as [q |] eqn:G; [| reflexivity].
  apply (inv_cells s I) in G. specialize (F q G).
  rewrite bool_decide_eq_false_2 by lra. reflexivity.
Qed.

Lemma sameSetup_refl (s : sampler) : sameSetup s s.
Proof. split; reflexivity. Qed.

Lemma sameSetup_trans (s1 s2 s3 : sampler) :
  sameSetup s1 s2 -> sameSetup s2 s3 -> sameSetup s1 s3.
Proof. intros [] []. split; congruence. Qed.

#[local] Hint Resolve sameSetup_refl : core.

Section FillFacts.

Variable random : nat -> R.

Lemma rng_Inv (s : sampler) : Inv s -> Inv (rng random s).2.
Proof.
  intros [[] D G C F]. split; [split |..]; assumption.
Qed.

Lemma splice1_Inv (s : sampler) (i : nat) : Inv s -> Inv (splice1 s i).
Proof.
  intros [[] D G C F]. split; [split |..]; assumption.
Qed.

(** What one run of the candidate loop does to the object. *)
Lemma tryCandidates_spec (tries : nat) (s s' : sampler) (p : point) (found : bool) :
  Inv s -> tryCandidates random tries s p = (s', found) ->
  Inv s' /\ sameSetup s s' /\
  if found
  then exists c, points s' = points s ++ [c] /\ activeList s' = activeList s ++ [c]
  else points s' = points s /\ activeList s' = activeList s.
Proof.
  revert s. induction tries as [| tries IH]; intros s I E;
    cbn [tryCandidates] in E.
  - injection E as <- <-. auto.
  - pose proof (rng_Inv s I) as I1.
    destruct (rng random s) as [r1 s1] eqn:E1.
    pose proof (rng_Inv s1 I1) as I2.
    destruct (rng random s1) as [r2 s2] eqn:E2. cbn [snd] in I1, I2.
    assert (sameSetup s s2 /\ points s2 = points s /\ activeList s2 = activeList s)
      as (S2 & P2 & A2).
    { injection E1 as _ <-. injection E2 as _ <-. repeat split. }
    rewrite <- P2, <- A2.
    destruct (isValidPoint s2 _) eqn:V.
    + injection E as <- <-.
      apply (isValidPoint_sound s2 _ I2) in V as [D F].
      split; [apply addPoint_Inv; assumption |].
      split; [destruct S2; split; assumption |]. eexists. split; reflexivity.
    + apply IH in E as (I' & S' & R'); [| assumption].
      split; [assumption |]. split; [eapply sameSetup_trans; eassumption |].
      exact R'.
Qed.

End FillFacts.

Lemma farApart_NoDup (s : sampler) : Inv s -> NoDup (points s).
Proof.
  intros I. apply NoDup_alt. intros i j p Hi Hj.
  destruct (decide (i = j)) as [| Hne]; [assumption | exfalso].
  pose proof (inv_far s I i j p p Hne Hi Hj) as H.
  rewrite dist_refl in H. pose proof (cfg_min s (inv_config s I)). lra.
Qed.

(** Accepted points occupy pairwise different cells, so there are at most
    as many as cells. *)
Lemma points_bound (s : sampler) : Inv s -> (length (points s) <= cells s)%nat.
Proof.
  intros I. pose proof (inv_config s I) as C.
  set (idx := fun p => gridIndex s (gridX s p) (gridY s p)).
  assert (NoDup (idx <$> points s)) as N.
  { apply NoDup_fmap_2_strong; [| apply farApart_NoDup, I].
    intros p q Hp Hq E.
    destruct (cell_in_grid s p C (inv_domain s I p Hp)) as [Bp _].
    destruct (cell_in_grid s q C (inv_domain s I q Hq)) as [Bq _].
    apply gridIndex_inj in E as [Ex Ey]; [| assumption ..].
    pose proof (inv_grid s I p Hp) as Gp. pose proof (inv_grid s I q Hq) as Gq.
    rewrite Ex, Ey in Gp. congruence. }
  assert (idx <$> points s ⊆+ seqZ 0 (gridWidth s * gridHeight s)) as Sub.
  { apply NoDup_submseteq; [assumption |]. intros k Hk.
    apply list_elem_of_fmap in Hk as (p & -> & Hp).
    destruct (cell_in_grid s p C (inv_domain s I p Hp)) as [Bx By].
    apply elem_of_seqZ. unfold idx, gridIndex. nia. }
  apply submseteq_length in Sub.
  rewrite length_fmap, length_seqZ in Sub. exact Sub.
Qed.

Section Termination.

Variable random : nat -> R.
Hypothesis random_range : forall n, 0 <= random n < 1.

Lemma randomIndex_range (r : R) (n : nat) :
  0 <= r < 1 -> (0 < n)%nat -> (0 <= Math.floor (r * INR n) < Z.of_nat n)%Z.
Proof.
  intros Hr Hn. assert (0 < INR n) as Hp by (apply lt_0_INR; lia).
  split.
  - apply floor_nonneg. nra.
  - apply lt_IZR. rewrite <- INR_IZR_INZ.
    pose proof (floor_spec (r * INR n)). nra.
Qed.

(** One round of the loop succeeds and decreases the measure. *)
Lemma fillStep_spec (s : sampler) :
  Inv s -> activeList s <> [] ->
  exists s', fillStep random s = Some s' /\ Inv s' /\ sameSetup s s' /\
             (measure s' < measure s)%nat.
Proof.
  intros I Hne. unfold fillStep.
  pose proof (rng_Inv random s I) as I1.
  destruct (rng random s) as [r s1] eqn:E1. cbn [snd] in I1.
  assert (r = random (draws s) /\ sameSetup s s1 /\ points s1 = points s
          /\ activeList s1 = activeList s) as (-> & S1 & P1 & A1).
  { injection E1 as <- <-. repeat split. }
  assert (0 < length (activeList s1))%nat as Hlen.
  { rewrite A1. destruct (activeList s); [congruence | simpl; lia]. }
  destruct (randomIndex_range _ _ (random_range (draws s)) Hlen) as [Hlo Hhi].
  set (randomIndex := Math.floor _) in *.
  unfold at_index. rewrite decide_True by assumption.
  destruct (lookup_lt_is_Some_2 (activeList s1) (Z.to_nat randomIndex)) as [p Hp];
    [lia |].
  rewrite Hp.
  destruct (tryCandidates random (maxTries s1) s1 p) as [s2 found] eqn:E2.
  apply tryCandidates_spec in E2 as (I2 & S2 & R2); [| assumption].
  assert (cells s2 = cells s) as Ec.
  { unfold cells. destruct S1, S2. congruence. }
  destruct found.
  - destruct R2 as (c & P2 & A2). eexists. split; [reflexivity |].
    split; [assumption |]. split; [eapply sameSetup_trans; eassumption |].
    pose proof (points_bound s2 I2) as B. unfold measure. rewrite Ec in *.
    rewrite P2, A2, P1, A1, !length_app in *. simpl in *.
    revert B. generalize (cells s). clear. intros. lia.
  - destruct R2 as [P2 A2]. eexists. split; [reflexivity |].
    split; [apply splice1_Inv; assumption |].
    split; [eapply sameSetup_trans; [eassumption |]; destruct S2; split; assumption |].
    unfold measure. change (cells (splice1 s2 _)) with (cells s2).
    cbn [splice1 points activeList]. rewrite Ec.
    rewrite length_delete by (rewrite A2; eauto).
    rewrite P2, A2, P1, A1 in *.
    revert Hlen. generalize (cells s). clear. intros. lia.
Qed.

(** The loop ends within [measure] rounds, in a state that satisfies the
    invariant. *)
Lemma fillLoop_terminates (fuel : nat) (s : sampler) :
  Inv s -> (measure s <= fuel)%nat ->
  exists s', fillLoop random fuel s = Done s' /\ Inv s' /\ sameSetup s s'.
Proof.
  revert s. induction fuel as [| fuel IH]; intros s I M.
  - destruct (activeList s) eqn:A.
    + exists s. simpl. rewrite A. auto.
    + unfold measure in M. rewrite A in M. simpl in M. lia.
  - simpl. destruct (activeList s) eqn:A.
    + exists s. auto.
    + destruct (fillStep_spec s I) as (s1 & -> & I1 & S1 & M1); [congruence |].
      destruct (IH s1 I1) as (s' & E & I' & S'); [lia |].
      exists s'. split; [assumption |]. split; [assumption |].
      eapply sameSetup_trans; eassumption.
Qed.

(** Whenever the loop ends, the invariant holds. *)
Lemma fillLoop_Inv (fuel : nat) (s s' : sampler) :
  Inv s -> fillLoop random fuel s = Done s' -> Inv s' /\ sameSetup s s'.
Proof.
  revert s. induction fuel as [| fuel IH]; intros s I E; simpl in E.
  - destruct (activeList s); [| discriminate]. injection E as <-. auto.
  - destruct (activeList s) eqn:A; [injection E as <-; auto |].
    destruct (fillStep_spec s I) as (s1 & E1 & I1 & S1 & _); [congruence |].
    rewrite E1 in E. destruct (IH s1 I1 E) as [I' S'].
    split; [assumption |]. eapply sameSetup_trans; eassumption.
Qed.

End Termination.

Lemma constructor_Inv (o : options) (s : sampler) :
  0 < fst (opt_shape o) -> 0 < snd (opt_shape o) -> 0 < opt_minDistance o ->
  constructor o = Some s ->
  Inv s /\ shape s = opt_shape o /\ minDistance s = opt_minDistance o /\
  points s = [] /\ activeList s = [].
Proof.
  intros W H D E. unfold constructor in E.
  destruct (decide _); [| discriminate]. injection E as <-.
  split; [| repeat split]. split.
  - split; simpl; auto.
  - intros p Hp. simpl in Hp. apply elem_of_nil in Hp. contradiction.
  - intros p Hp. simpl in Hp. apply elem_of_nil in Hp. contradiction.
  - intros i p Hp. simpl in Hp. rewrite lookup_empty in Hp. discriminate.
  - apply farApart_nil.
Qed.

Section FillTheorems.

Variable random : nat -> R.
Hypothesis random_range : forall n, 0 <= random n < 1.

(** The state in which the [while] loop of [fill] starts. *)
Lemma fillFirst_spec (s : sampler) :
  Inv s -> points s = [] -> activeList s = [] ->
  Inv (fillFirst random s) /\ sameSetup s (fillFirst random s) /\
  (measure (fillFirst random s) < 2 * cells s)%nat /\
  points (fillFirst random s) =
    [(random (draws s) * fst (shape s), random (S (draws s)) * snd (shape s))] /\
  activeList (fillFirst random s) = points (fillFirst random s).
Proof.
  intros I P A. unfold fillFirst.
  pose proof (rng_Inv random s I) as I1.
  destruct (rng random s) as [r1 s1] eqn:E1.
  pose proof (rng_Inv random s1 I1) as I2.
  destruct (rng random s1) as [r2 s2] eqn:E2. cbn [snd] in I1, I2.
  assert (r1 = random (draws s) /\ r2 = random (S (draws s)) /\ sameSetup s s2 /\
          points s2 = [] /\ activeList s2 = []) as (-> & -> & S2 & P2 & A2).
  { injection E1 as <- <-. injection E2 as <- <-. repeat split; assumption. }
  pose proof (inv_config s2 I2) as C.
  set (firstPoint := (random (draws s) * fst (shape s2),
                      random (S (draws s)) * snd (shape s2))).
  assert (Inv (addPoint s2 firstPoint)) as I3.
  { apply addPoint_Inv; [assumption | |].
    - pose proof (random_range (draws s)). pose proof (random_range (S (draws s))).
      pose proof (cfg_width s2 C). pose proof (cfg_height s2 C).
      unfold inDomain, firstPoint. simpl. nra.
    - intros q Hq. rewrite P2 in Hq. apply elem_of_nil in Hq. contradiction. }
  split; [assumption |].
  split; [destruct S2; split; assumption |]. split; [| split].
  - pose proof (points_bound _ I3) as B. unfold measure.
    change (cells (addPoint s2 firstPoint)) with (cells s2) in *.
    assert (cells s2 = cells s) as Ec by (unfold cells; destruct S2; congruence).
    rewrite Ec in *. simpl in *. rewrite P2, A2 in *. simpl in *.
    revert B. generalize (cells s). clear. intros. lia.
  - simpl. rewrite P2. unfold firstPoint. rewrite (same_shape s s2 S2). reflexivity.
  - simpl. now rewrite P2, A2.
Qed.

Lemma fill_terminates_aux (s : sampler) (fuel : nat) :
  Inv s -> points s = [] -> activeList s = [] -> (2 * cells s <= fuel)%nat ->
  exists s', fill random fuel s = Done s' /\ Inv s' /\ sameSetup s s'.
Proof.
  intros I P A F. destruct (fillFirst_spec s I P A) as (I1 & S1 & M1 & _).
  destruct (fillLoop_terminates random random_range fuel _ I1) as (s' & E' & I' & S');
    [lia |].
  exists s'. split; [exact E' |]. split; [assumption |].
  eapply sameSetup_trans; eassumption.
Qed.

Lemma fill_Inv (s s' : sampler) (fuel : nat) :
  Inv s -> points s = [] -> activeList s = [] ->
  fill random fuel s = Done s' -> Inv s' /\ sameSetup s s'.
Proof.
  intros I P A F. destruct (fillFirst_spec s I P A) as (I1 & S1 & M1 & _).
  destruct (fillLoop_Inv random random_range fuel _ s' I1 F) as [I' S'].
  split; [assumption |]. eapply sameSetup_trans; eassumption.
Qed.

(** In exact arithmetic, for a sampler built over a domain of positive
    width and height with a positive [minDistance], and [Math.random]
    returning values in [0, 1): [fill] returns, and whenever it returns,
    any two points at different indices of the returned array are at
    Euclidean distance at least [minDistance] -- although [isValidPoint]
    only looks at the 5 by 5 cells around the candidate. *)
Lemma fill_min_distance (o : options) (s : sampler) :
  0 < fst (opt_shape o) -> 0 < snd (opt_shape o) -> 0 < opt_minDistance o ->
  constructor o = Some s ->
  (exists fuel s', fill random fuel s = Done s') /\
  forall fuel s', fill random fuel s = Done s' ->
    forall (i j : nat) (p q : point),
      i <> j -> points s' !! i = Some p -> points s' !! j = Some q ->
      opt_minDistance o <= dist p q.
Proof.
  intros W H D E.
  destruct (constructor_Inv o s W H D E) as (I & _ & Em & P & A). split.
  - destruct (fill_terminates_aux s (2 * cells s) I P A) as (s' & E' & _); [lia |].
    eauto.
  - intros fuel s' F. destruct (fill_Inv s s' fuel I P A F) as [I' S'].
    rewrite <- Em, <- (same_minDistance s s' S'). exact (inv_far s' I').
Qed.

(** In exact arithmetic, for every domain of positive width and height
    and every positive [minDistance], and [Math.random] returning values
    in [0, 1), [fill] terminates: its [while] loop ends within twice as
    many rounds as the grid has cells, since every round either accepts a
    point (and the accepted points occupy different cells) or removes one
    point from the active list. *)
Lemma fill_terminates (o : options) (s : sampler) :
  0 < fst (opt_shape o) -> 0 < snd (opt_shape o) -> 0 < opt_minDistance o ->
  constructor o = Some s ->
  forall fuel, (2 * Z.to_nat (gridWidth s * gridHeight s) <= fuel)%nat ->
    exists s', fill random fuel s = Done s'.
Proof.
  intros W H D E fuel F.
  destruct (constructor_Inv o s W H D E) as (I & _ & _ & P & A).
  destruct (fill_terminates_aux s fuel I P A F) as (s' & E' & _). eauto.
Qed.

End FillTheorems.

(** Every point [fill] returns lies in the domain. *)
Lemma fill_points_in_domain (random : nat -> R) (o : options) (s s' : sampler)
    (fuel : nat) (p : point) :
  (forall n, 0 <= random n < 1) ->
  0 < fst (opt_shape o) -> 0 < snd (opt_shape o) -> 0 < opt_minDistance o ->
  constructor o = Some s -> fill random fuel s = Done s' -> p ∈ points s' ->
  0 <= fst p < fst (opt_shape o) /\ 0 <= snd p < snd (opt_shape o).
Proof.
  intros Hr W H D E F Hp.
  destruct (constructor_Inv o s W H D E) as (I & Es & _ & P & A).
  destruct (fill_Inv random Hr s s' fuel I P A F) as [I' S'].
  rewrite <- Es, <- (same_shape s s' S'). exact (inv_domain s' I' p Hp).
Qed.

Lemma baseOptions_grid : Math.ceil (500 / (8 / sqrt 2)) = 89%Z.
Proof.
  pose proof sqrt2_bounds as B. apply ceil_unique.
  replace (500 / (8 / sqrt 2)) with (125 / 2 * sqrt 2) by (field; lra). lra.
Qed.

Lemma baseOptions_constructor :
  exists s, constructor baseOptions = Some s /\ gridWidth s = 89%Z /\ gridHeight s = 89%Z.
Proof.
  unfold constructor. simpl. rewrite baseOptions_grid.
  rewrite decide_True by lia. eexists. split; [reflexivity |]. simpl. auto.
Qed.

(** A run of the model: with [Math.random] constantly 0 the first point is
    the origin, and the first round of the loop accepts the candidate at
    angle 0 and distance [minDistance] from it. *)
Example first_round :
  exists s s1, constructor baseOptions = Some s /\
    points (fillFirst (fun _ => 0) s) = [(0, 0)] /\
    fillStep (fun _ => 0) (fillFirst (fun _ => 0) s) = Some s1 /\
    points s1 = [(0, 0); (8, 0)] /\ activeList s1 = [(0, 0); (8, 0)].
Proof.
  set (random := fun _ : nat => 0).
  assert (forall n, 0 <= random n < 1) as Hr by (intros n; unfold random; lra).
  destruct baseOptions_constructor as (s & E & Gw & Gh).
  assert (minDistance s = 8 /\ maxDistance s = 10 /\ maxTries s = 20%nat)
    as (Emin & Emax & Etries).
  { unfold constructor in E. destruct (decide _); [| discriminate].
    injection E as <-. simpl. unfold or_number.
    destruct (decide (10 = 0)); [lra | auto]. }
  destruct (constructor_Inv baseOptions s) as (I & Eshape & _ & P & A);
    [simpl; lra .. | exact E |].
  destruct (fillFirst_spec random Hr s I P A) as (I0 & S0 & _ & P0 & A0).
  assert (points (fillFirst random s) = [(0, 0)]) as P0'.
  { rewrite P0, Eshape. unfold random. simpl. do 2 f_equal; ring. }
  rewrite P0' in A0. clear P0.
  set (s0 := fillFirst random s) in *.
  assert (exists s1, fillStep random s0 = Some s1 /\
            points s1 = [(0, 0); (8, 0)] /\ activeList s1 = [(0, 0); (8, 0)])
    as (s1 & F & P1 & A1).
  { unfold fillStep.
    pose proof (rng_Inv random s0 I0) as Ia.
    destruct (rng random s0) as [r sa] eqn:Ea. cbn [snd] in Ia.
    assert (r = 0 /\ sameSetup s0 sa /\ points sa = [(0, 0)] /\ activeList sa = [(0, 0)])
      as (-> & Sa & Pa & Aa).
    { injection Ea as <- <-. repeat split; assumption. }
    rewrite Aa. simpl List.length.
    replace (Math.floor (0 * INR 1)) with 0%Z
      by (symmetry; apply floor_unique; simpl; lra).
    change (at_index [(0, 0)] 0%Z) with (Some ((0, 0) : point)).
    rewrite (same_maxTries _ _ Sa), (same_maxTries _ _ S0), Etries.
    cbn [tryCandidates].
    pose proof (rng_Inv random sa Ia) as Ib.
    destruct (rng random sa) as [r1 sb] eqn:Eb. cbn [snd] in Ib.
    pose proof (rng_Inv random sb Ib) as Ic.
    destruct (rng random sb) as [r2 sc] eqn:Ec. cbn [snd] in Ic.
    assert (r1 = 0 /\ r2 = 0 /\ sameSetup sa sc /\ points sc = [(0, 0)]
            /\ activeList sc = [(0, 0)]) as (-> & -> & Sc & Pc & Ac).
    { injection Eb as <- <-. injection Ec as <- <-. repeat split; assumption. }
    assert (minDistance sc = 8 /\ maxDistance sc = 10 /\ shape sc = (500, 500))
      as (Emin' & Emax' & Eshape').
    { simpl in Eshape. destruct S0, Sa, Sc. repeat split; congruence. }
    rewrite Emin', Emax'.
    set (newPoint := (_ + cos _ * _, _)).
    assert (newPoint = (8, 0)) as En.
    { unfold newPoint. simpl fst. simpl snd.
      replace (0 * PI * 2) with 0 by ring. rewrite cos_0, sin_0.
      f_equal; ring. }
    rewrite En.
    rewrite isValidPoint_complete.
    - eexists. split; [reflexivity |]. simpl. now rewrite Pc, Ac.
    - assumption.
    - unfold inDomain. rewrite Eshape'. simpl. lra.
    - intros q Hq. rewrite Pc in Hq. apply list_elem_of_singleton in Hq as ->.
      rewrite Emin'. unfold dist, Math.pow2. simpl.
      replace ((8 - 0) * ((8 - 0) * 1) + (0 - 0) * ((0 - 0) * 1)) with (8 * 8) by ring.
      rewrite sqrt_square; lra. }
  exists s, s1. auto.
Qed.

End SamplerProofs.

(** ** The simulation shader *)
Module ShaderProofs.

Import NumberFacts GLSL MorphingParticles ParticlesSpec.

Lemma clamp01_range (x : R) : 0 <= clamp x 0 1 <= 1.
Proof.
  unfold clamp, Rmin, Rmax. repeat destruct (Rle_dec _ _); lra.
Qed.

Lemma clamp01_low (x : R) : x <= 0 -> clamp x 0 1 = 0.
Proof. intros H. unfold clamp, Rmin, Rmax. repeat destruct (Rle_dec _ _); lra. Qed.

Lemma clamp01_high (x : R) : 1 <= x -> clamp x 0 1 = 1.
Proof. intros H. unfold clamp, Rmin, Rmax. repeat destruct (Rle_dec _ _); lra. Qed.

Lemma clamp01_mid (x : R) : 0 <= x <= 1 -> clamp x 0 1 = x.
Proof. intros H. unfold clamp, Rmin, Rmax. repeat destruct (Rle_dec _ _); lra. Qed.

(** The cubic [t * t * (3 - 2 * t)] on the unit interval. *)
Lemma hermite_range (t : R) : 0 <= t <= 1 -> 0 <= t * t * (3 - 2 * t) <= 1.
Proof.
  intros [H0 H1]. split.
  - apply Rmult_le_pos; [apply Rle_0_sqr | lra].
  - assert (0 <= (1 - t) * (1 - t) * (1 + 2 * t)) as H.
    { apply Rmult_le_pos; [apply Rle_0_sqr | lra]. }
    lra.
Qed.

Lemma hermite_strict (a b : R) :
  0 <= a -> a < b -> b <= 1 -> a * a * (3 - 2 * a) < b * b * (3 - 2 * b).
Proof.
  intros H0 Hab H1.
  assert (b * b * (3 - 2 * b) - a * a * (3 - 2 * a)
          = (b - a) * (3 * (a + b) - 2 * (a * a + a * b + b * b))) as E by ring.
  assert (0 < 3 * (a + b) - 2 * (a * a + a * b + b * b)) as P by nra.
  assert (0 < (b - a) * (3 * (a + b) - 2 * (a * a + a * b + b * b))) as Q.
  { apply Rmult_lt_0_compat; lra. }
  lra.
Qed.

Lemma smoothstep_range (e0 e1 x : R) : 0 <= smoothstep e0 e1 x <= 1.
Proof. unfold smoothstep. apply hermite_range, clamp01_range. Qed.

Lemma smoothstep_below (e0 e1 x : R) : e0 < e1 -> x <= e0 -> smoothstep e0 e1 x = 0.
Proof.
  intros He Hx. unfold smoothstep. rewrite clamp01_low; [ring |].
  apply Rmult_le_reg_r with (e1 - e0); [lra |].
  unfold Rdiv. rewrite Rmult_assoc, Rinv_l; lra.
Qed.

Lemma smoothstep_above (e0 e1 x : R) : e0 < e1 -> e1 <= x -> smoothstep e0 e1 x = 1.
Proof.
  intros He Hx. unfold smoothstep. rewrite clamp01_high; [ring |].
  apply Rmult_le_reg_r with (e1 - e0); [lra |].
  unfold Rdiv. rewrite Rmult_assoc, Rinv_l; lra.
Qed.

(** The falloff of the shader, [smoothstep(0.15, 0.0, d)], between its
    edges. *)
Lemma falloff_inside (d : R) :
  0 <= d <= 0.15 ->
  smoothstep 0.15 0.0 d = (1 - d / 0.15) * (1 - d / 0.15) * (3 - 2 * (1 - d / 0.15)).
Proof.
  intros H. unfold smoothstep.
  assert ((d - 0.15) / (0.0 - 0.15) = 1 - d / 0.15) as ->.
  { assert (0.15 = 3 / 20) as -> by lra. assert (0.0 = 0) as -> by lra. field. }
  rewrite clamp01_mid; [reflexivity |]. lra.
Qed.

(** The falloff is 1 on the goal, one half midway and 0 from 0.15 on. *)
Example falloff_values :
  smoothstep 0.15 0.0 0 = 1 /\ smoothstep 0.15 0.0 0.075 = 1 / 2 /\
  smoothstep 0.15 0.0 0.15 = 0 /\ smoothstep 0.15 0.0 1 = 0.
Proof.
  rewrite !falloff_inside by lra. repeat split; try lra.
  unfold smoothstep. rewrite clamp01_low; [ring |].
  assert ((1 - 0.15) / (0.0 - 0.15) = - (17 / 3)) as -> by lra. lra.
Qed.

Lemma lifeEnd_range (uv : vec2) : 2 <= lifeEnd uv <= 4.
Proof.
  unfold lifeEnd. pose proof (SIN_bound (snd (hash uv) * 100.0)). lra.
Qed.

(** The target scale of the shader lies between 0 and 1. *)
Lemma targetScale_range (lt le : R) :
  2 <= le ->
  0 <= smoothstep 0.01 0.5 lt - smoothstep 0.5 1.0 (lt / le) <= 1.
Proof.
  intros Hle.
  pose proof (smoothstep_range 0.01 0.5 lt) as R1.
  pose proof (smoothstep_range 0.5 1.0 (lt / le)) as R2.
  destruct (Rle_or_lt (lt / le) 0.5) as [Hlow | Hhigh].
  - rewrite (smoothstep_below 0.5 1.0) by lra. lra.
  - assert (0.5 <= lt) as Hlt.
    { assert (lt = lt / le * le) as -> by (field; lra). nra. }
    rewrite (smoothstep_above 0.01 0.5) by lra. lra.
Qed.

Lemma targetScale_rebirth (lt le : R) :
  2 <= le -> lt < 0.01 ->
  smoothstep 0.01 0.5 lt - smoothstep 0.5 1.0 (lt / le) = 0.
Proof.
  intros Hle Hlt.
  rewrite (smoothstep_below 0.01 0.5) by lra.
  rewrite (smoothstep_below 0.5 1.0); [ring | lra |].
  apply Rmult_le_reg_r with le; [lra |].
  unfold Rdiv. rewrite Rmult_assoc, Rinv_l; lra.
Qed.

(** The scale and the velocity the shader writes, from those it read. *)
Lemma simulate_range (uv : vec2) (pos : vec4)
    (refPos nearestPos : vec2) (uTime uIsHovering : R) :
  0 <= pz pos <= 1 -> 0 <= uIsHovering <= 1 ->
  0 <= pz (simulate uv pos refPos nearestPos uTime uIsHovering) <= 1 /\
  0 <= pw (simulate uv pos refPos nearestPos uTime uIsHovering) <= 1.
Proof.
  intros Hs Hh. unfold simulate.
  pose proof (lifeEnd_range uv) as [Hle _].
  pose proof (targetScale_range (lifeTime uv uTime) (lifeEnd uv) Hle) as Ht.
  set (ts := smoothstep 0.01 0.5 _ - smoothstep 0.5 1.0 _) in *.
  set (d := length _).
  pose proof (smoothstep_range 0.15 0.001 d) as Hv.
  destruct (decide (lifeTime uv uTime < 0.01)); simpl; split; try nra; lra.
Qed.

(** Claim C4.  If every texel the simulation pass reads has its scale in
    [0, 1] and the hover intensity is in [0, 1], then every texel it
    writes has its scale and its velocity in [0, 1]; the shader clamps
    neither value, the range follows from the smoothstep terms, the blend
    [scale + (targetScale - scale) * 0.1] and the product
    [smoothstep(0.15, 0.001, dist) * uIsHovering]. *)
Theorem simPass_scale_velocity_range (uPosition uPosRefs uPosNearest : texture)
    (uTime uIsHovering : R) :
  (forall i j, 0 <= pz (uPosition i j) <= 1) ->
  0 <= uIsHovering <= 1 ->
  forall i j,
    0 <= pz (simPass uPosition uPosRefs uPosNearest uTime uIsHovering i j) <= 1 /\
    0 <= pw (simPass uPosition uPosRefs uPosNearest uTime uIsHovering i j) <= 1.
Proof.
  intros Hs Hh i j. unfold simPass, simFragment.
  apply simulate_range; [apply Hs | exact Hh].
Qed.

(** Witness of C4 on blank textures at hover intensity one half, at
    texel (0, 0). *)
Lemma simPass_scale_velocity_range_witness :
  0 <= pz (simPass blank blank blank 0.016 (1 / 2) 0%Z 0%Z) <= 1 /\
  0 <= pw (simPass blank blank blank 0.016 (1 / 2) 0%Z 0%Z) <= 1.
Proof.
  apply (simPass_scale_velocity_range blank blank blank 0.016 (1 / 2)).
  - intros i j. simpl. lra.
  - lra.
Defined.

Lemma mod_multiple (k : Z) (y : R) : y <> 0 -> mod_ (IZR k * y) y = 0.
Proof.
  intros Hy. unfold mod_, floor.
  replace (IZR k * y / y) with (IZR k) by (field; assumption).
  rewrite <- (Int_part_spec (IZR k) k) by lra. ring.
Qed.

(** Claim C6.  For the fragment of any particle in any frame, if the
    lifetime phase is below [0.01] then the position written is exactly
    the particle's reference position and the scale written is exactly 0,
    the easing step [scale += (targetScale - scale) * 0.1] after the reset
    notwithstanding. *)
Theorem simulate_rebirth (uPosition uPosRefs uPosNearest : texture)
    (uTime uIsHovering : R) (fragCoord : vec2) :
  let uv := (fst fragCoord / 256.0, snd fragCoord / 256.0) in
  let out := simFragment uPosition uPosRefs uPosNearest uTime uIsHovering fragCoord in
  lifeTime uv uTime < 0.01 ->
  xy out = xy (texture2D (Z.of_nat size) uPosRefs uv) /\ pz out = 0.
Proof.
  intros uv out Hlt. unfold out, simFragment, simulate. fold uv.
  pose proof (lifeEnd_range uv) as [Hle _].
  rewrite (targetScale_rebirth _ _ Hle Hlt).
  rewrite decide_True by assumption. simpl. split; [reflexivity | lra].
Qed.

(** Witness of C6 at the fragment of texel (0, 0), at a time that is a
    whole number of lifetimes. *)
Lemma simulate_rebirth_witness :
  let uv := (0.5 / 256.0, 0.5 / 256.0) in
  let uTime := 2 * (50 * lifeEnd uv - fst (hash uv) * 100) in
  let out := simFragment blank (fun _ _ => Vec4 0.25 0.5 0 0) blank uTime 1 (0.5, 0.5) in
  lifeTime uv uTime < 0.01 /\ xy out = (0.25, 0.5) /\ pz out = 0.
Proof.
  intros uv uTime out.
  assert (lifeTime uv uTime < 0.01) as H.
  { unfold lifeTime, uTime. pose proof (lifeEnd_range uv) as [Hle _].
    replace (fst (hash uv) * 100.0 + 2 * (50 * lifeEnd uv - fst (hash uv) * 100) * 0.5)
      with (IZR 50 * lifeEnd uv) by lra.
    rewrite mod_multiple by lra. lra. }
  split; [exact H |].
  exact (simulate_rebirth blank (fun _ _ => Vec4 0.25 0.5 0 0) blank uTime 1 (0.5, 0.5) H).
Defined.

Lemma length_sqr (v : vec2) : length v * length v = fst v * fst v + snd v * snd v.
Proof.
  unfold length, dot. apply sqrt_sqrt. nra.
Qed.


Lemma length_scale (v : vec2) (k : R) : 0 <= k -> length (scale v k) = length v * k.
Proof.
  intros Hk. unfold length, dot, scale. simpl.
  replace (fst v * k * (fst v * k) + snd v * k * (snd v * k))
    with ((fst v * fst v + snd v * snd v) * (k * k)) by ring.
  rewrite sqrt_mult; [| nra | nra]. rewrite sqrt_square by assumption. reflexivity.
Qed.

Lemma length_normalize (v : vec2) : 0 < length v -> length (normalize v) = 1.
Proof.
  intros H. pose proof (length_sqr v) as E.
  unfold normalize. set (l := length v) in *.
  unfold length, dot. simpl.
  replace (fst v / l * (fst v / l) + snd v / l * (snd v / l))
    with ((fst v * fst v + snd v * snd v) / (l * l)) by (field; lra).
  rewrite <- E. replace (l * l / (l * l)) with 1 by (field; lra). apply sqrt_1.
Qed.

Lemma sub_add_cancel (a b : vec2) : sub (add a b) a = b.
Proof. destruct a, b. unfold sub, add. simpl. f_equal; ring. Qed.

Lemma displacement_far (pos targetPos : vec2) :
  0.005 < length (sub targetPos pos) ->
  displacement pos targetPos = 0.01 * smoothstep 0.15 0.0 (length (sub targetPos pos)).
Proof.
  intros H. unfold displacement, approach. rewrite decide_True by assumption.
  rewrite sub_add_cancel.
  pose proof (smoothstep_range 0.15 0.0 (length (sub targetPos pos))) as [S0 _].
  rewrite !length_scale by lra. rewrite length_normalize by lra. ring.
Qed.

Lemma displacement_near (pos targetPos : vec2) :
  length (sub targetPos pos) <= 0.005 ->
  approach pos targetPos = pos /\ displacement pos targetPos = 0.
Proof.
  intros H. unfold displacement, approach. rewrite decide_False by lra.
  split; [reflexivity |]. destruct pos as [a b]. unfold length, dot, sub. simpl.
  replace ((a - a) * (a - a) + (b - b) * (b - b)) with 0 by ring. apply sqrt_0.
Qed.

Lemma falloff_grows (d1 d2 : R) :
  0 <= d1 -> d1 < d2 -> d2 <= 0.15 ->
  smoothstep 0.15 0.0 d2 < smoothstep 0.15 0.0 d1.
Proof.
  intros H0 H12 H2. rewrite !falloff_inside by lra.
  apply hermite_strict; lra.
Qed.

(** The position the shader writes outside a rebirth is the step of
    [approach] towards the blended goal. *)
Lemma simulate_xy (uv : vec2) (pos : vec4) (refPos nearestPos : vec2)
    (uTime uIsHovering : R) :
  0.01 <= lifeTime uv uTime ->
  xy (simulate uv pos refPos nearestPos uTime uIsHovering) =
  approach (xy pos) (mix2 refPos nearestPos (uIsHovering * uIsHovering)).
Proof.
  intros H. unfold simulate. rewrite decide_False by lra. simpl.
  now destruct (approach _ _).
Qed.

(** Claim C2, as amended.  With [goal] the blended goal of a particle and
    [d] its distance to it: outside a rebirth the shader writes the
    position [approach] computes; that step has length
    [0.01 * smoothstep(0.15, 0.0, d)] when [d > 0.005] and length 0 when
    [d <= 0.005]; and on the interval (0.005, 0.15) a particle nearer to
    its goal takes a strictly longer step: the step grows as [d]
    decreases. *)
Theorem approach_displacement (uv : vec2) (pos : vec4) (refPos nearestPos : vec2)
    (uTime uIsHovering : R) :
  let goal := mix2 refPos nearestPos (uIsHovering * uIsHovering) in
  let d := length (sub goal (xy pos)) in
  (0.01 <= lifeTime uv uTime ->
   xy (simulate uv pos refPos nearestPos uTime uIsHovering) = approach (xy pos) goal) /\
  (0.005 < d -> displacement (xy pos) goal = 0.01 * smoothstep 0.15 0.0 d) /\
  (d <= 0.005 -> displacement (xy pos) goal = 0) /\
  (forall pos' goal' : vec2,
     let d' := length (sub goal' pos') in
     0.005 < d' -> d' < d -> d < 0.15 ->
     displacement (xy pos) goal < displacement pos' goal').
Proof.
  intros goal d. split; [apply simulate_xy |].
  split; [apply displacement_far |].
  split; [intros H; apply displacement_near, H |].
  intros pos' goal' d' H1 H2 H3.
  rewrite !displacement_far by (fold d; fold d'; lra).
  fold d d'. pose proof (falloff_grows d' d). lra.
Qed.

Lemma length_x (a : R) : 0 <= a -> length (sub (a, 0) (0, 0)) = a.
Proof.
  intros H. unfold length, dot, sub. simpl.
  replace ((a - 0) * (a - 0) + (0 - 0) * (0 - 0)) with (a * a) by ring.
  now apply sqrt_square.
Qed.

(** Witness of C2 (amended) for a particle at the origin with its goal
    at distance 0.1. *)
Lemma approach_displacement_witness :
  displacement (0, 0) (0.1, 0) = 0.01 * smoothstep 0.15 0.0 (length (sub (0.1, 0) (0, 0))).
Proof.
  destruct (approach_displacement (0, 0) (Vec4 0 0 0 0) (0.1, 0) (0.1, 0) 0 1)
    as (_ & F & _).
  unfold mix2, mix, xy in F. simpl in F.
  replace (0.1 * (1 - 1 * 1) + 0.1 * (1 * 1)) with 0.1 in F by lra.
  replace (0 * (1 - 1 * 1) + 0 * (1 * 1)) with 0 in F by lra.
  apply F. rewrite length_x; lra.
Defined.

(** Claim C2 as stated fails: of two particles at distances 0.05 and 0.1
    from their goals, both inside (0.005, 0.15), the nearer one takes the
    longer step, so the step is not non-increasing as [d] decreases. *)
Lemma approach_not_decelerating :
  let d1 := length (sub (0.05, 0) (0, 0)) in
  let d2 := length (sub (0.1, 0) (0, 0)) in
  0.005 < d1 /\ d1 <= d2 /\ d2 < 0.15 /\
  ~ (displacement (0, 0) (0.05, 0) <= displacement (0, 0) (0.1, 0)).
Proof.
  intros d1 d2. unfold d1, d2. rewrite !length_x by lra.
  repeat split; try lra.
  rewrite !displacement_far by (rewrite length_x; lra).
  rewrite !length_x by lra. rewrite !falloff_inside by lra. lra.
Qed.

End ShaderProofs.

(** ** The frame loop *)
Module FrameProofs.

Import NumberFacts GLSL MorphingParticles ParticlesSpec ShaderProofs.

(** What one frame does to the fields of the object. *)
Lemma animate_hoverProgress (s : app) :
  hoverProgress (animate s) =
  hoverProgress s + ((if isHovering s then 1 else 0) - hoverProgress s) * 0.05.
Proof. reflexivity. Qed.

Lemma animate_rt (s : app) : rt1 (animate s) = rt2 s /\ rt2 (animate s) = rt1 s.
Proof. split; reflexivity. Qed.

Lemma animate_passes (s : app) :
  passes (animate s) =
  passes s ++ [Pass SimScene (RenderTexture (rt1 s)) (Some (rt2 s));
               Pass MainScene (RenderTexture (rt2 s)) None].
Proof.
  unfold animate, render, update. simpl. rewrite <- app_assoc. reflexivity.
Qed.

Lemma animate_contents (s : app) (t : target) :
  contents (animate s) t =
  if decide (t = rt2 s)
  then simPass (contents s (rt1 s))
               (texels s (sim_uPosRefs (simMaterial s)))
               (texels s (sim_uPosNearest (simMaterial s)))
               (time s + 0.016) (hoverProgress (animate s))
  else contents s t.
Proof. reflexivity. Qed.

Lemma frames_S (hover : nat -> bool) (n : nat) (s : app) :
  frames hover (S n) s = animate (setHovering (hover n) (frames hover n s)).
Proof. reflexivity. Qed.

(** The smoothed hover intensity under a flag that stays set. *)
Lemma hover_closed_form (s : app) (n : nat) :
  hoverProgress (frames (fun _ => true) n s) = 1 - (1 - hoverProgress s) * 0.95 ^ n.
Proof.
  induction n as [| n IH].
  - simpl. ring.
  - rewrite frames_S, animate_hoverProgress.
    change (hoverProgress (setHovering true ?x)) with (hoverProgress x).
    change (isHovering (setHovering true ?x)) with true.
    rewrite IH. simpl. lra.
Qed.

Lemma pow095_pos (n : nat) : 0 < 0.95 ^ n.
Proof. apply pow_lt. lra. Qed.

(** Claim C5.  Starting from a smoothed intensity of 0 with the hover flag
    set in every frame, the intensity after [n] frames is exactly
    [1 - 0.95 ^ n]; the sequence is strictly increasing, stays below 1, and
    converges to 1. *)
Theorem hover_step_response (s : app) :
  hoverProgress s = 0 ->
  let h := fun n => hoverProgress (frames (fun _ => true) n s) in
  (forall n, h n = 1 - 0.95 ^ n) /\
  (forall n, h n < h (S n)) /\
  (forall n, h n < 1) /\
  Un_cv h 1.
Proof.
  intros H0 h.
  assert (forall n, h n = 1 - 0.95 ^ n) as E.
  { intros n. unfold h. rewrite hover_closed_form, H0. ring. }
  split; [exact E |]. split; [| split].
  - intros n. rewrite !E. pose proof (pow095_pos n). simpl. lra.
  - intros n. rewrite E. pose proof (pow095_pos n). lra.
  - intros eps Heps.
    destruct (pow_lt_1_zero 0.95) with (y := eps) as [N HN]; [| assumption |].
    + rewrite Rabs_right; lra.
    + exists N. intros n Hn. unfold R_dist. rewrite E.
      replace (1 - 0.95 ^ n - 1) with (- 0.95 ^ n) by ring.
      rewrite Rabs_Ropp. apply HN, Hn.
Qed.

(** Witness of C5 on the object built for an empty point set, after 20
    frames. *)
Lemma hover_step_response_witness :
  exists s0, createSimulation (fun _ => 0) 1000 [] [] 0 = Some s0 /\
    hoverProgress (frames (fun _ => true) 20 s0) = 1 - 0.95 ^ 20 /\
    hoverProgress (frames (fun _ => true) 20 s0)
      < hoverProgress (frames (fun _ => true) 21 s0) /\
    hoverProgress (frames (fun _ => true) 20 s0) < 1.
Proof.
  eexists. split; [reflexivity |].
  match goal with
  | |- hoverProgress (frames _ _ ?s) = _ /\ _ =>
      destruct (hover_step_response s eq_refl) as (E & I & B & _)
  end.
  split; [apply E |]. split; [apply I | apply B].
Defined.

Lemma createSimulation_Fresh (random : nat -> R) (width : R)
    (basePoints targetPoints : list point) (draws : nat) (s : app) :
  createSimulation random width basePoints targetPoints draws = Some s -> Fresh s.
Proof.
  unfold createSimulation. intros E.
  destruct (createDataTexture _ _ _ _ false draws) as [[d1 n1] |]; [| discriminate].
  destruct (createDataTexture _ _ _ _ true n1) as [[d2 n2] |]; [| discriminate].
  destruct (createDataTexture _ _ _ _ false n2) as [[d3 n3] |]; [| discriminate].
  injection E as <-. split; reflexivity.
Qed.

Lemma read_write_distinct (n : nat) : readTarget n <> writeTarget n.
Proof. unfold readTarget, writeTarget. destruct (Nat.even n); discriminate. Qed.

Lemma read_after_write (n : nat) : readTarget (S n) = writeTarget n.
Proof.
  unfold readTarget, writeTarget. rewrite Nat.even_succ, <- Nat.negb_even.
  destruct (Nat.even n); reflexivity.
Qed.

Lemma write_after_read (n : nat) : writeTarget (S n) = readTarget n.
Proof.
  unfold readTarget, writeTarget. rewrite Nat.even_succ, <- Nat.negb_even.
  destruct (Nat.even n); reflexivity.
Qed.

Section Frames.

Variable s0 : app.
Hypothesis fresh : Fresh s0.
Variable hover : nat -> bool.

Lemma frames_rt (n : nat) :
  rt1 (frames hover n s0) = readTarget n /\ rt2 (frames hover n s0) = writeTarget n.
Proof.
  induction n as [| n [IH1 IH2]].
  - split; [apply fresh_rt1 | apply fresh_rt2]; exact fresh.
  - rewrite frames_S, read_after_write, write_after_read.
    destruct (animate_rt (setHovering (hover n) (frames hover n s0))) as [-> ->].
    split; assumption.
Qed.

Lemma frames_passes_S (n : nat) :
  passes (frames hover (S n) s0) =
  passes (frames hover n s0) ++ [simPassOf n; drawPassOf n].
Proof.
  rewrite frames_S, animate_passes.
  change (passes (setHovering ?f ?x)) with (passes x).
  change (rt1 (setHovering ?f ?x)) with (rt1 x).
  change (rt2 (setHovering ?f ?x)) with (rt2 x).
  destruct (frames_rt n) as [-> ->]. reflexivity.
Qed.

Lemma frames_passes_length (n : nat) :
  List.length (passes (frames hover n s0)) = (2 * n)%nat.
Proof.
  induction n as [| n IH].
  - simpl. now rewrite (fresh_passes s0 fresh).
  - rewrite frames_passes_S, length_app, IH. simpl. lia.
Qed.

(** The calls of [renderer.render] made by frame [k]. *)
Lemma frames_passes_lookup (n k : nat) :
  (k < n)%nat ->
  passes (frames hover n s0) !! (2 * k)%nat = Some (simPassOf k) /\
  passes (frames hover n s0) !! (2 * k + 1)%nat = Some (drawPassOf k).
Proof.
  induction n as [| n IH]; intros Hk; [lia |].
  rewrite frames_passes_S. pose proof (frames_passes_length n) as L.
  destruct (decide (k = n)) as [-> | Hne].
  - split.
    + rewrite lookup_app_r by lia. replace (2 * n - _)%nat with 0%nat by lia.
      reflexivity.
    + rewrite lookup_app_r by lia. replace (2 * n + 1 - _)%nat with 1%nat by lia.
      reflexivity.
  - destruct IH as [IH1 IH2]; [lia |].
    split; rewrite lookup_app_l by lia; assumption.
Qed.

Lemma frames_textures (n : nat) :
  positionTexture (frames hover n s0) = positionTexture s0 /\
  targetTexture (frames hover n s0) = targetTexture s0 /\
  baseTexture (frames hover n s0) = baseTexture s0 /\
  sim_uPosRefs (simMaterial (frames hover n s0)) = BaseTexture /\
  sim_uPosNearest (simMaterial (frames hover n s0)) = TargetTexture.
Proof.
  induction n as [| n IH].
  - repeat split; [apply (fresh_refs s0 fresh) | apply (fresh_nearest s0 fresh)].
  - rewrite frames_S. exact IH.
Qed.

(** The texels the simulation pass of frame [n] writes. *)
Lemma frames_contents_written (n : nat) :
  contents (frames hover (S n) s0) (writeTarget n) =
  simPass (contents (frames hover n s0) (readTarget n))
          (dataTexture (baseTexture s0)) (dataTexture (targetTexture s0))
          (time (frames hover (S n) s0)) (hoverProgress (frames hover (S n) s0)).
Proof.
  rewrite frames_S at 1. rewrite animate_contents.
  change (rt2 (setHovering ?f ?x)) with (rt2 x).
  change (rt1 (setHovering ?f ?x)) with (rt1 x).
  destruct (frames_rt n) as [-> ->]. rewrite decide_True by reflexivity.
  destruct (frames_textures n) as (_ & Et & Eb & Er & En).
  change (contents (setHovering ?f ?x)) with (contents x).
  change (texels (setHovering ?f ?x)) with (texels x).
  change (sim_uPosRefs (simMaterial (setHovering ?f ?x)))
    with (sim_uPosRefs (simMaterial x)).
  change (sim_uPosNearest (simMaterial (setHovering ?f ?x)))
    with (sim_uPosNearest (simMaterial x)).
  rewrite Er, En. unfold texels. rewrite Et, Eb. reflexivity.
Qed.

(** The other render target keeps its texels during frame [n]. *)
Lemma frames_contents_kept (n : nat) :
  contents (frames hover (S n) s0) (readTarget n) =
  contents (frames hover n s0) (readTarget n).
Proof.
  rewrite frames_S, animate_contents.
  change (rt2 (setHovering ?f ?x)) with (rt2 x).
  destruct (frames_rt n) as [_ ->].
  rewrite decide_False by apply read_write_distinct. reflexivity.
Qed.

End Frames.

(** Claim C8.  From the object [createSimulation] builds, in every frame
    [N] the simulation pass reads one render target and writes the other,
    the two being distinct; the draw that follows reads the render target
    written in that frame; what the pass writes is the shader applied to
    the texels of the target it reads; and for [N >= 1] the target read is
    the one the simulation pass of frame [N - 1] wrote, holding what that
    pass wrote. *)
Theorem ping_pong (random : nat -> R) (width : R)
    (basePoints targetPoints : list point) (draws : nat) (s0 : app)
    (hover : nat -> bool) (n N : nat) :
  createSimulation random width basePoints targetPoints draws = Some s0 ->
  (N < n)%nat ->
  exists input output : target,
    passes (frames hover n s0) !! (2 * N)%nat
      = Some (Pass SimScene (RenderTexture input) (Some output)) /\
    passes (frames hover n s0) !! (2 * N + 1)%nat
      = Some (Pass MainScene (RenderTexture output) None) /\
    input <> output /\
    contents (frames hover (S N) s0) output =
      simPass (contents (frames hover N s0) input)
              (dataTexture (baseTexture s0)) (dataTexture (targetTexture s0))
              (time (frames hover (S N) s0))
              (hoverProgress (frames hover (S N) s0)) /\
    ((1 <= N)%nat ->
     exists before : textureRef,
       passes (frames hover n s0) !! (2 * (N - 1))%nat
         = Some (Pass SimScene before (Some input)) /\
       contents (frames hover N s0) input =
         simPass (texels (frames hover (N - 1) s0) before)
                 (dataTexture (baseTexture s0)) (dataTexture (targetTexture s0))
                 (time (frames hover N s0))
                 (hoverProgress (frames hover N s0))).
Proof.
  intros Hc HN. pose proof (createSimulation_Fresh _ _ _ _ _ _ Hc) as F.
  exists (readTarget N), (writeTarget N).
  destruct (frames_passes_lookup s0 F hover n N HN) as [L1 L2].
  split; [exact L1 |]. split; [exact L2 |].
  split; [apply read_write_distinct |].
  split; [apply frames_contents_written, F |].
  intros H1. destruct N as [| M]; [lia |].
  replace (S M - 1)%nat with M by lia.
  exists (RenderTexture (readTarget M)).
  destruct (frames_passes_lookup s0 F hover n M) as [L3 _]; [lia |].
  rewrite read_after_write. split; [exact L3 |].
  apply frames_contents_written, F.
Qed.

(** Witness of C8 on the object built for an empty point set: the four
    passes of the first two frames. *)
Lemma ping_pong_witness :
  exists s0, createSimulation (fun _ => 0) 1000 [] [] 0 = Some s0 /\
    passes (frames (fun _ => true) 2 s0) =
      [Pass SimScene (RenderTexture TargetA) (Some TargetB);
       Pass MainScene (RenderTexture TargetB) None;
       Pass SimScene (RenderTexture TargetB) (Some TargetA);
       Pass MainScene (RenderTexture TargetA) None] /\
    exists input output : target,
      passes (frames (fun _ => true) 2 s0) !! 2%nat
        = Some (Pass SimScene (RenderTexture input) (Some output)) /\
      passes (frames (fun _ => true) 2 s0) !! 3%nat
        = Some (Pass MainScene (RenderTexture output) None) /\
      input <> output.
Proof.
  eexists. split; [reflexivity |]. split; [reflexivity |].
  match goal with
  | |- exists input output, passes (frames _ _ ?s) !! _ = _ /\ _ =>
      destruct (ping_pong (fun _ => 0) 1000 [] [] 0 s (fun _ => true) 2 1 eq_refl)
        as (input & output & L1 & L2 & D & _)
  end.
  - lia.
  - exists input, output. auto.
Defined.

Lemma frames_passes_reads (s0 : app) (hover : nat -> bool) (n : nat) (p : pass) :
  Fresh s0 -> p ∈ passes (frames hover n s0) ->
  exists t, pass_reads p = RenderTexture t.
Proof.
  intros F. induction n as [| n IH]; intros Hp.
  - simpl in Hp. rewrite (fresh_passes s0 F) in Hp. apply elem_of_nil in Hp. contradiction.
  - rewrite (frames_passes_S s0 F) in Hp. apply elem_of_app in Hp as [Hp | Hp].
    + apply IH, Hp.
    + apply elem_of_cons in Hp as [-> | Hp]; [eexists; reflexivity |].
      apply list_elem_of_singleton in Hp as ->. eexists; reflexivity.
Qed.

(** Claim C9.  The position data texture is the initial [uPosition] of the
    simulation material, yet no call of [renderer.render] ever reads it:
    the first simulation pass reads the texture of render target [rt1],
    which nothing has drawn to, so its input is zero in every component of
    every texel, and the first output is the shader applied to that zero
    field. *)
Theorem position_texture_never_sampled (random : nat -> R) (width : R)
    (basePoints targetPoints : list point) (draws : nat) (s0 : app)
    (hover : nat -> bool) (n : nat) :
  createSimulation random width basePoints targetPoints draws = Some s0 ->
  sim_uPosition (simMaterial s0) = PositionTexture /\
  (forall p, p ∈ passes (frames hover n s0) -> pass_reads p <> PositionTexture) /\
  passes (frames hover (S n) s0) !! 0%nat
    = Some (Pass SimScene (RenderTexture TargetA) (Some TargetB)) /\
  (forall i j, texels s0 (RenderTexture TargetA) i j = Vec4 0 0 0 0) /\
  contents (frames hover 1 s0) TargetB =
    simPass (fun _ _ => Vec4 0 0 0 0)
            (dataTexture (baseTexture s0)) (dataTexture (targetTexture s0))
            (time (frames hover 1 s0)) (hoverProgress (frames hover 1 s0)).
Proof.
  intros Hc. pose proof (createSimulation_Fresh _ _ _ _ _ _ Hc) as F.
  split; [| split; [| split; [| split]]].
  - unfold createSimulation in Hc.
    destruct (createDataTexture _ _ _ _ false draws) as [[d1 n1] |]; [| discriminate].
    destruct (createDataTexture _ _ _ _ true n1) as [[d2 n2] |]; [| discriminate].
    destruct (createDataTexture _ _ _ _ false n2) as [[d3 n3] |]; [| discriminate].
    injection Hc as <-. reflexivity.
  - intros p Hp. destruct (frames_passes_reads s0 hover n p F Hp) as [t ->].
    discriminate.
  - destruct (frames_passes_lookup s0 F hover (S n) 0) as [L _]; [lia |]. exact L.
  - intros i j. simpl. rewrite (fresh_contents s0 F). reflexivity.
  - change TargetB with (writeTarget 0).
    rewrite (frames_contents_written s0 F hover 0).
    change (frames hover 0 s0) with s0. rewrite (fresh_contents s0 F). reflexivity.
Qed.

(** Witness of C9 on the object built for an empty point set. *)
Lemma position_texture_never_sampled_witness :
  exists s0, createSimulation (fun _ => 0) 1000 [] [] 0 = Some s0 /\
    passes (frames (fun _ => false) 1 s0) !! 0%nat
      = Some (Pass SimScene (RenderTexture TargetA) (Some TargetB)) /\
    forall i j, texels s0 (RenderTexture TargetA) i j = Vec4 0 0 0 0.
Proof.
  eexists. split; [reflexivity |].
  match goal with
  | |- passes (frames _ _ ?s) !! _ = _ /\ _ =>
      destruct (position_texture_never_sampled (fun _ => 0) 1000 [] [] 0 s
                  (fun _ => false) 0 eq_refl) as (_ & _ & L & Z & _)
  end.
  split; [exact L | exact Z].
Defined.

(** The smoothed hover intensity never leaves [0, 1], whatever the flag
    does. *)
Lemma frames_hover_range (s0 : app) (hover : nat -> bool) (n : nat) :
  0 <= hoverProgress s0 <= 1 -> 0 <= hoverProgress (frames hover n s0) <= 1.
Proof.
  intros H. induction n as [| n IH]; [exact H |].
  rewrite frames_S, animate_hoverProgress.
  change (hoverProgress (setHovering ?f ?x)) with (hoverProgress x).
  change (isHovering (setHovering ?f ?x)) with f.
  destruct (hover n); lra.
Qed.

(** In every frame every texel of both render targets has its scale and
    its velocity in [0, 1]: the premise of the range property of the
    shader holds along the whole run. *)
Lemma frames_state_range (s0 : app) (hover : nat -> bool) (n : nat) (t : target)
    (i j : Z) :
  Fresh s0 ->
  0 <= pz (contents (frames hover n s0) t i j) <= 1 /\
  0 <= pw (contents (frames hover n s0) t i j) <= 1.
Proof.
  intros F. revert t i j. induction n as [| n IH]; intros t i j.
  - simpl. rewrite (fresh_contents s0 F). simpl. lra.
  - rewrite frames_S, animate_contents.
    destruct (decide _) as [_ | _].
    + unfold simPass, simFragment. apply simulate_range.
      * unfold texture2D.
        change (contents (setHovering ?f ?x)) with (contents x). apply IH.
      * rewrite <- frames_S. apply frames_hover_range.
        rewrite (fresh_hover s0 F). lra.
    + change (contents (setHovering ?f ?x)) with (contents x). apply IH.
Qed.

End FrameProofs.

(** ** The silhouette mapper *)
Module MapperProofs.

Import NumberFacts GLSL MorphingParticles ParticlesSpec.

Lemma round_clamp_range (x : R) :
  (0 <= Math.round (Math.max 0 (Math.min 499 x)) < 500)%Z.
Proof.
  unfold Math.round, Math.max, Math.min.
  set (c := Rmax 0 (Rmin 499 x)).
  assert (0 <= c <= 499) as Hc.
  { unfold c, Rmax, Rmin. repeat destruct (Rle_dec _ _); lra. }
  pose proof (floor_spec (c + / 2)) as Hf. unfold Math.floor in Hf.
  split.
  - assert (IZR (-1) < IZR (Int_part (c + / 2))) as H%lt_IZR by (simpl; lra). lia.
  - apply lt_IZR. lra.
Qed.

Lemma brightness_uniform (v : Z) (data : list Z) (x y : R) :
  uniformRed v data -> getPixelBrightness data x y = Some (1 - IZR v / 255).
Proof.
  intros U. unfold getPixelBrightness.
  rewrite (U _ _ (round_clamp_range x) (round_clamp_range y)). reflexivity.
Qed.

Lemma isInk_white (data : list Z) (x y : Z) : uniformRed 255 data -> isInk data x y = false.
Proof.
  intros U. unfold isInk. rewrite (brightness_uniform 255 data _ _ U).
  apply bool_decide_eq_false_2. lra.
Qed.

Lemma isInk_black (data : list Z) (x y : Z) : uniformRed 0 data -> isInk data x y = true.
Proof.
  intros U. unfold isInk. rewrite (brightness_uniform 0 data _ _ U).
  apply bool_decide_eq_true_2. lra.
Qed.

Lemma flat_map_nil {A B : Type} (f : A -> list B) (l : list A) :
  (forall a, f a = []) -> flat_map f l = [].
Proof.
  intros H. induction l as [| a l IH]; simpl; [reflexivity |]. now rewrite H, IH.
Qed.

Lemma imagePoints_white (data : list Z) : uniformRed 255 data -> imagePoints data = [].
Proof.
  intros U. unfold imagePoints. apply flat_map_nil. intros y.
  apply flat_map_nil. intros x. now rewrite isInk_white.
Qed.

(** The values of the loop variable of a [for] loop with a positive step. *)
Lemma js_for_spec (fuel : nat) (start stop step x : Z) :
  (0 < step)%Z ->
  In x (js_for fuel start stop step) <->
  exists k : nat, (k < fuel)%nat /\ x = (start + Z.of_nat k * step)%Z /\ (x < stop)%Z.
Proof.
  intros Hs. revert start. induction fuel as [| fuel IH]; intros start; simpl.
  - split; [contradiction | intros (k & Hk & _); lia].
  - destruct (Z.ltb_spec start stop) as [Hlt | Hge]; simpl.
    + rewrite IH. split.
      * intros [<- | (k & Hk & -> & Hx)].
        -- exists 0%nat. split; [lia |]. split; [lia | assumption].
        -- exists (S k). split; [lia |]. split; [lia | assumption].
      * intros (k & Hk & -> & Hx). destruct k as [| k].
        -- left. lia.
        -- right. exists k. split; [lia |]. split; [lia | lia].
    + split; [contradiction |]. intros (k & Hk & -> & Hx). nia.
Qed.

(** The pixels the loops of [createImagePoints] visit. *)
Lemma scan_spec (x : Z) :
  In x (js_for 500 0 500 gap) <-> (0 <= x < 500)%Z /\ (x mod 4 = 0)%Z.
Proof.
  rewrite js_for_spec by (unfold gap; lia). unfold gap. split.
  - intros (k & Hk & -> & Hx). split; [lia |].
    rewrite Z.add_0_l. apply Z.mod_mul. lia.
  - intros [Hx Hm]. exists (Z.to_nat (x / 4)).
    pose proof (Z.div_mod x 4). pose proof (Z.div_pos x 4).
    assert (x / 4 < 125)%Z by (apply Z.div_lt_upper_bound; lia).
    split; [lia |]. split; [lia | lia].
Qed.

Lemma imagePoints_black (data : list Z) (p : point) :
  uniformRed 0 data ->
  In p (imagePoints data) <->
  exists x y : Z, In x (js_for 500 0 500 gap) /\ In y (js_for 500 0 500 gap) /\
                  p = (IZR x, IZR y).
Proof.
  intros U. unfold imagePoints. rewrite in_flat_map. split.
  - intros (y & Hy & Hp). apply in_flat_map in Hp as (x & Hx & Hp).
    rewrite isInk_black in Hp by assumption. destruct Hp as [<- | []].
    exists x, y. auto.
  - intros (x & y & Hx & Hy & ->). exists y. split; [assumption |].
    apply in_flat_map. exists x. split; [assumption |].
    rewrite isInk_black by assumption. now left.
Qed.

(** The search returns the base point when there is no ink, and otherwise
    an ink point that no other ink point beats. *)
Lemma nearest_spec (basePoint : point) (imgPoints : list point) :
  let r := fold_left (nearestStep basePoint) imgPoints (basePoint, None) in
  (imgPoints = [] /\ r = (basePoint, None)) \/
  (In (fst r) imgPoints /\ snd r = Some (distanceTo basePoint (fst r)) /\
   forall q, In q imgPoints -> distanceTo basePoint (fst r) <= distanceTo basePoint q).
Proof.
  induction imgPoints as [| x l IH] using rev_ind; [left; split; reflexivity |].
  right. rewrite fold_left_app. simpl.
  set (r := fold_left (nearestStep basePoint) l (basePoint, None)) in *.
  assert (nearestStep basePoint r x =
          if match snd r with
             | None => true
             | Some nearestDistance =>
                 bool_decide (distanceTo basePoint x < nearestDistance)
             end
          then (x, Some (distanceTo basePoint x)) else r) as -> by reflexivity.
  destruct IH as [[-> E] | (Hin & Hd & Hmin)].
  - rewrite E. simpl. split; [now left |]. split; [reflexivity |].
    intros q [<- | []]. lra.
  - rewrite Hd.
    destruct (bool_decide_reflect
                (distanceTo basePoint x < distanceTo basePoint (fst r)))
      as [Hlt | Hge]; simpl.
    + split; [apply in_or_app; right; now left |]. split; [reflexivity |].
      intros q Hq. apply in_app_or in Hq as [Hq | [<- | []]].
      * specialize (Hmin q Hq). lra.
      * lra.
    + split; [apply in_or_app; now left |]. split; [assumption |].
      intros q Hq. apply in_app_or in Hq as [Hq | [<- | []]].
      * exact (Hmin q Hq).
      * lra.
Qed.

Lemma createImagePoints_white (data : list Z) (basePoints : list point) :
  uniformRed 255 data -> createImagePoints data basePoints = basePoints.
Proof.
  intros U. unfold createImagePoints. rewrite imagePoints_white by assumption.
  induction basePoints as [| b l IH]; simpl; [reflexivity |].
  now rewrite IH.
Qed.

(** There is one target per base point, in the same order. *)
Lemma createImagePoints_length (data : list Z) (basePoints : list point) :
  List.length (createImagePoints data basePoints) = List.length basePoints.
Proof. unfold createImagePoints. apply length_map. Qed.

(** The scanned pixel coordinate just below a coordinate of the domain. *)
Lemma scan_below (a : R) :
  0 <= a < 500 ->
  exists x : Z, In x (js_for 500 0 500 gap) /\ IZR x <= a < IZR x + 4.
Proof.
  intros [H0 H1]. exists (4 * Math.floor (a / 4))%Z.
  pose proof (floor_spec (a / 4)) as Hf.
  assert (0 <= Math.floor (a / 4))%Z as Hlo by (apply floor_nonneg; lra).
  assert (Math.floor (a / 4) < 125)%Z as Hhi by (apply lt_IZR; lra).
  split.
  - apply scan_spec. split; [lia |].
    rewrite Z.mul_comm. apply Z.mod_mul. lia.
  - rewrite mult_IZR. lra.
Qed.

Lemma distanceTo_sqr (b q : point) :
  distanceTo b q * distanceTo b q =
  (fst q - fst b) * (fst q - fst b) + (snd q - snd b) * (snd q - snd b).
Proof.
  unfold distanceTo, Math.pow2. rewrite sqrt_sqrt; [ring |].
  apply Rplus_le_le_0_compat; apply pow2_ge_0.
Qed.

Lemma distanceTo_nonneg (b q : point) : 0 <= distanceTo b q.
Proof. apply sqrt_pos. Qed.

(** With every scanned pixel ink, the nearest ink point is less than 4
    away in each coordinate. *)
Lemma nearest_black (data : list Z) (b : point) :
  uniformRed 0 data -> 0 <= fst b < 500 -> 0 <= snd b < 500 ->
  let t := nearestPoint (imagePoints data) b in
  In t (imagePoints data) /\ Rabs (fst t - fst b) < 4 /\ Rabs (snd t - snd b) < 4.
Proof.
  intros U Hx Hy t.
  destruct (scan_below _ Hx) as (x0 & Sx0 & Bx0).
  destruct (scan_below _ Hy) as (y0 & Sy0 & By0).
  destruct (nearest_spec b (imagePoints data)) as [[E _] | (Hin & _ & Hmin)].
  - assert (In (IZR x0, IZR y0) (imagePoints data)) as H.
    { apply imagePoints_black; [assumption |]. exists x0, y0. auto. }
    rewrite E in H. contradiction.
  - fold (nearestPoint (imagePoints data) b) in Hin, Hmin. fold t in Hin, Hmin.
    split; [assumption |].
    pose proof Hin as Hg. apply imagePoints_black in Hg as (x & y & Sx & Sy & Et);
      [| assumption].
    assert (forall q, In q (imagePoints data) ->
              (fst t - fst b) * (fst t - fst b) + (snd t - snd b) * (snd t - snd b)
              <= (fst q - fst b) * (fst q - fst b) + (snd q - snd b) * (snd q - snd b))
      as Hsq.
    { intros q Hq. rewrite <- !distanceTo_sqr.
      pose proof (Hmin q Hq). pose proof (distanceTo_nonneg b t).
      pose proof (distanceTo_nonneg b q). nra. }
    split.
    + assert (In (IZR x0, IZR y) (imagePoints data)) as H.
      { apply imagePoints_black; [assumption |]. exists x0, y. auto. }
      apply Hsq in H. rewrite Et in *. simpl in *.
      apply Rabs_def1; nra.
    + assert (In (IZR x, IZR y0) (imagePoints data)) as H.
      { apply imagePoints_black; [assumption |]. exists x, y0. auto. }
      apply Hsq in H. rewrite Et in *. simpl in *.
      apply Rabs_def1; nra.
Qed.

Lemma uniformRed_replicate (v : Z) : uniformRed v (replicate (Z.to_nat 1000000) v).
Proof.
  intros px py Hx Hy. unfold at_index. rewrite decide_True by lia.
  apply lookup_replicate_2. lia.
Qed.

(** Claim C3, as amended.  For an all-white 500 by 500 image (red channel
    255 everywhere) the brightness [1 - red / 255] is 0 at every pixel, so
    no pixel is ink: the ink set is empty and every base point is its own
    target.  The ink set that covers the grid stepped at 4 pixels is that
    of an all-black image (red channel 0), and then the target of every
    base point of the domain is an ink point less than 4 away from it in
    each coordinate. *)
Theorem white_image_targets (data : list Z) (basePoints : list point) :
  uniformRed 255 data ->
  (forall x y, getPixelBrightness data x y = Some 0) /\
  imagePoints data = [] /\
  createImagePoints data basePoints = basePoints /\
  (forall data', uniformRed 0 data' ->
     (forall x y, In x (js_for 500 0 500 gap) -> In y (js_for 500 0 500 gap) ->
                  In (IZR x, IZR y) (imagePoints data')) /\
     forall b, In b basePoints -> 0 <= fst b < 500 -> 0 <= snd b < 500 ->
       let t := nearestPoint (imagePoints data') b in
       In t (imagePoints data') /\
       Rabs (fst t - fst b) < 4 /\ Rabs (snd t - snd b) < 4).
Proof.
  intros U. split; [| split; [| split]].
  - intros x y. rewrite (brightness_uniform 255) by assumption. f_equal. lra.
  - now apply imagePoints_white.
  - now apply createImagePoints_white.
  - intros data' U'. split.
    + intros x y Sx Sy. apply imagePoints_black; [assumption |]. exists x, y. auto.
    + intros b _ Hx Hy. now apply nearest_black.
Qed.

(** Witness of C3 (amended) on the image whose every byte is 255 and the
    image whose every byte is 0, for one base point. *)
Lemma white_image_targets_witness :
  uniformRed 255 whiteImage /\
  imagePoints whiteImage = [] /\
  createImagePoints whiteImage [(1, 2)] = [(1, 2)] /\
  let t := nearestPoint (imagePoints blackImage) (1, 2) in
  In t (imagePoints blackImage) /\ Rabs (fst t - 1) < 4 /\ Rabs (snd t - 2) < 4.
Proof.
  split; [apply uniformRed_replicate |].
  destruct (white_image_targets whiteImage [(1, 2)] (uniformRed_replicate 255))
    as (_ & E & T & B).
  split; [assumption |]. split; [assumption |].
  destruct (B blackImage (uniformRed_replicate 0)) as [_ N].
  apply (N (1, 2)).
  - now left.
  - simpl. lra.
  - simpl. lra.
Defined.

(** Claim C3 as stated fails: for the all-white image the pixel (0, 0),
    which the scan visits, is not in the ink set. *)
Lemma white_image_has_no_ink :
  uniformRed 255 whiteImage /\
  In 0%Z (js_for 500 0 500 gap) /\
  ~ In (IZR 0, IZR 0) (imagePoints whiteImage).
Proof.
  split; [apply uniformRed_replicate |]. split.
  - apply scan_spec. split; [lia | reflexivity].
  - rewrite imagePoints_white by apply uniformRed_replicate. intros [].
Qed.

End MapperProofs.

(** ** The data textures *)
Module TextureProofs.

Import NumberFacts PoissonDiskSampling SamplerSpec SamplerProofs.
Import GLSL MorphingParticles ParticlesSpec.

(** A cell of the grid holds at most one accepted point. *)
Lemma cell_count (s : sampler) (gx gy : Z) :
  Inv s ->
  (List.length (filter (fun p => gridX s p = gx /\ gridY s p = gy) (points s)) <= 1)%nat.
Proof.
  intros I.
  pose proof (NoDup_filter (fun p => gridX s p = gx /\ gridY s p = gy) _
                (farApart_NoDup s I)) as N.
  assert (forall q, q ∈ filter (fun p => gridX s p = gx /\ gridY s p = gy) (points s) ->
                    grid s !! gridIndex s gx gy = Some q) as G.
  { intros q Hq. apply list_elem_of_filter in Hq as [[<- <-] Hq].
    exact (inv_grid s I q Hq). }
  destruct (filter _ _) as [| a [| b l]]; simpl; [lia | lia |].
  exfalso. pose proof (G a ltac:(left)) as Ha.
  pose proof (G b ltac:(right; left)) as Hb.
  rewrite Ha in Hb. injection Hb as <-.
  apply NoDup_cons in N as [N _]. apply N. left.
Qed.

Lemma writeParticle_length (data : list R) (i : nat) (p : point) (r : R) :
  List.length (writeParticle data i p r) = List.length data.
Proof. unfold writeParticle. now rewrite !length_insert. Qed.

Lemma writeParticle_before (data : list R) (i : nat) (p : point) (r : R) (j : nat) :
  (j < 4 * i)%nat -> writeParticle data i p r !! j = data !! j.
Proof.
  intros H. unfold writeParticle. rewrite !list_lookup_insert_ne by lia. reflexivity.
Qed.

(** The four floats of particle [i] after its round of the loop, when they
    lie inside the array. *)
Lemma writeParticle_at (data : list R) (i : nat) (p : point) (r : R) :
  (i * 4 + 3 < List.length data)%nat ->
  writeParticle data i p r !! (i * 4)%nat = Some ((fst p - 250) / 250) /\
  writeParticle data i p r !! (i * 4 + 1)%nat = Some ((snd p - 250) / 250) /\
  writeParticle data i p r !! (i * 4 + 2)%nat = Some r /\
  writeParticle data i p r !! (i * 4 + 3)%nat = Some 0.
Proof.
  intros H. unfold writeParticle. rewrite Nat.add_0_r. repeat split.
  - rewrite !list_lookup_insert_ne by lia.
    apply list_lookup_insert_eq. lia.
  - rewrite !list_lookup_insert_ne by lia.
    apply list_lookup_insert_eq. rewrite length_insert. lia.
  - rewrite !list_lookup_insert_ne by lia.
    apply list_lookup_insert_eq. rewrite !length_insert. lia.
  - apply list_lookup_insert_eq. rewrite !length_insert. lia.
Qed.

Section DataTexture.

Variable random : nat -> R.

(** The loop of [createDataTexture] over an array long enough for all
    its particles. *)
Lemma dataLoop_spec (rounds i : nat) (source : list point) (data : list R)
    (draws : nat) :
  (i + rounds <= List.length source)%nat ->
  ((i + rounds) * 4 <= List.length data)%nat ->
  exists data',
    dataLoop random rounds i source data draws = Some (data', (draws + rounds)%nat) /\
    List.length data' = List.length data /\
    (forall j, (j < 4 * i)%nat -> data' !! j = data !! j) /\
    forall k, (i <= k < i + rounds)%nat ->
      exists p, source !! k = Some p /\
        data' !! (k * 4)%nat = Some ((fst p - 250) / 250) /\
        data' !! (k * 4 + 1)%nat = Some ((snd p - 250) / 250) /\
        data' !! (k * 4 + 2)%nat = Some (random (draws + (k - i))%nat) /\
        data' !! (k * 4 + 3)%nat = Some 0.
Proof.
  revert i data draws. induction rounds as [| rounds IH]; intros i data draws Hs Hd.
  - exists data. simpl. rewrite Nat.add_0_r. repeat split; try reflexivity.
    intros k Hk. lia.
  - simpl. destruct (lookup_lt_is_Some_2 source i) as [p Hp]; [lia |].
    rewrite Hp.
    destruct (IH (S i) (writeParticle data i p (random draws)) (S draws))
      as (data' & E & L & B & W).
    { lia. }
    { rewrite writeParticle_length. lia. }
    exists data'. rewrite E, L, writeParticle_length.
    split; [f_equal; f_equal; lia |]. split; [reflexivity |]. split.
    + intros j Hj. rewrite B by lia. apply writeParticle_before. lia.
    + intros k Hk. destruct (decide (k = i)) as [-> | Hne].
      * exists p. split; [assumption |].
        rewrite !B by lia. rewrite Nat.sub_diag, Nat.add_0_r.
        apply writeParticle_at. lia.
      * destruct (W k) as (q & Hq & W0 & W1 & W2 & W3); [lia |].
        exists q. split; [assumption |].
        replace (draws + (k - i))%nat with (S draws + (k - S i))%nat by lia.
        auto.
Qed.

End DataTexture.

(** The texel that the [uv] attribute of particle [i] selects. *)
Lemma particleUV_texel (i : nat) :
  (i < size * size)%nat ->
  texel (Z.of_nat size) (fst (particleUV i)) = Z.of_nat (i mod size) /\
  texel (Z.of_nat size) (snd (particleUV i)) = Z.of_nat (i / size).
Proof.
  intros Hi. unfold particleUV, texel. cbn [fst snd].
  assert (0 < INR size) as Hs by (apply lt_0_INR; unfold size; lia).
  assert (forall k : nat, Int_part (INR k / INR size * IZR (Z.of_nat size)) = Z.of_nat k) as E.
  { intros k. rewrite <- INR_IZR_INZ.
    replace (INR k / INR size * INR size) with (INR k) by (field; lra).
    apply Int_part_INR. }
  rewrite !E.
  assert (i mod size < size)%nat by (apply Nat.mod_upper_bound; unfold size; lia).
  assert (i / size < size)%nat by (apply Nat.Div0.div_lt_upper_bound; lia).
  split; lia.
Qed.

Lemma channel_lookup (data : list R) (k : nat) (v : R) :
  data !! k = Some v -> channel data (Z.of_nat k) = v.
Proof.
  intros H. unfold channel, at_index. rewrite decide_True by lia.
  rewrite Nat2Z.id, H. reflexivity.
Qed.

(** The texel a particle reads from a data texture holds the four floats
    written for it. *)
Lemma dataTexture_particle (data : list R) (i : nat) (a b c d : R) :
  (i < size * size)%nat ->
  data !! (i * 4)%nat = Some a -> data !! (i * 4 + 1)%nat = Some b ->
  data !! (i * 4 + 2)%nat = Some c -> data !! (i * 4 + 3)%nat = Some d ->
  texture2D (Z.of_nat size) (dataTexture data) (particleUV i) = Vec4 a b c d.
Proof.
  intros Hi Ha Hb Hc Hd. unfold texture2D.
  destruct (particleUV_texel i Hi) as [-> ->]. unfold dataTexture.
  assert ((Z.of_nat (i / size) * Z.of_nat size + Z.of_nat (i mod size)) * 4
          = Z.of_nat (i * 4))%Z as ->.
  { pose proof (Nat.div_mod_eq i size). lia. }
  replace (Z.of_nat (i * 4) + 1)%Z with (Z.of_nat (i * 4 + 1)) by lia.
  replace (Z.of_nat (i * 4) + 2)%Z with (Z.of_nat (i * 4 + 2)) by lia.
  replace (Z.of_nat (i * 4) + 3)%Z with (Z.of_nat (i * 4 + 3)) by lia.
  now rewrite (channel_lookup _ _ _ Ha), (channel_lookup _ _ _ Hb),
    (channel_lookup _ _ _ Hc), (channel_lookup _ _ _ Hd).
Qed.

Lemma texel_injective (i j : nat) :
  (i mod size = j mod size)%nat -> (i / size = j / size)%nat -> i = j.
Proof.
  intros Hm Hd. rewrite (Nat.div_mod_eq i size), (Nat.div_mod_eq j size).
  now rewrite Hm, Hd.
Qed.

(** Claim C10.  For the sampler [createBasePoints] configures (domain 500
    by 500, [minDistance] 8) the cell size is [8 / sqrt 2] and the grid has
    89 by 89 cells; [fill] returns, no cell holds more than two of the
    returned points, and their number is at most 2 * 89 * 89 = 15842, below
    256 * 256 = 65536.  Hence every particle index addresses a texel of its
    own inside the 256 by 256 state texture, every write of
    [createDataTexture] lands inside the [Float32Array] of length
    256 * 256 * 4, and the texel a particle reads holds the four floats
    written for it. *)
Theorem configured_sampler_fits (random : nat -> R) (s : sampler) :
  (forall n, 0 <= random n < 1) ->
  constructor baseOptions = Some s ->
  cellSize s = 8 / sqrt 2 /\ gridWidth s = 89%Z /\ gridHeight s = 89%Z /\
  (exists s', fill random (2 * 89 * 89) s = Done s') /\
  forall fuel s', fill random fuel s = Done s' ->
    let basePoints := points s' in
    let particleCount := List.length basePoints in
    (forall gx gy : Z,
       (List.length (filter (fun p => gridX s' p = gx /\ gridY s' p = gy) basePoints)
        <= 2)%nat) /\
    (Z.of_nat particleCount <= 2 * 89 * 89)%Z /\
    (2 * 89 * 89 = 15842)%Z /\ (15842 < 65536)%Z /\
    (Z.of_nat (size * size) = 256 * 256)%Z /\ (256 * 256 = 65536)%Z /\
    (forall i, (i < particleCount)%nat ->
       (i * 4 + 3 < List.length (replicate (size * size * 4) 0))%nat /\
       texel (Z.of_nat size) (fst (particleUV i)) = Z.of_nat (i mod size) /\
       texel (Z.of_nat size) (snd (particleUV i)) = Z.of_nat (i / size) /\
       (i mod size < size)%nat /\ (i / size < size)%nat) /\
    (forall i j, (i < particleCount)%nat -> (j < particleCount)%nat ->
       (i mod size = j mod size)%nat -> (i / size = j / size)%nat -> i = j) /\
    forall (targetPoints : list point) (isTarget : bool) (draws : nat),
      List.length targetPoints = particleCount ->
      exists data,
        createDataTexture random particleCount basePoints targetPoints isTarget draws
          = Some (data, (draws + particleCount)%nat) /\
        List.length data = (size * size * 4)%nat /\
        forall i, (i < particleCount)%nat ->
          exists p,
            (if isTarget then targetPoints else basePoints) !! i = Some p /\
            texture2D (Z.of_nat size) (dataTexture data) (particleUV i)
              = Vec4 ((fst p - 250) / 250) ((snd p - 250) / 250)
                     (random (draws + i)%nat) 0.
Proof.
  intros Hr Hc.
  destruct baseOptions_constructor as (s1 & E1 & Gw & Gh).
  rewrite Hc in E1. injection E1 as <-.
  assert (0 < fst (opt_shape baseOptions)) as W by (simpl; lra).
  assert (0 < snd (opt_shape baseOptions)) as H by (simpl; lra).
  assert (0 < opt_minDistance baseOptions) as D by (simpl; lra).
  destruct (constructor_Inv baseOptions s W H D Hc) as (I & _ & Em & P & A).
  assert (cells s = (89 * 89)%nat) as Ec.
  { unfold cells. rewrite Gw, Gh. reflexivity. }
  split; [rewrite (cfg_cell s (inv_config s I)), Em; reflexivity |].
  split; [assumption |]. split; [assumption |]. split.
  - destruct (fill_terminates_aux random Hr s (2 * 89 * 89) I P A) as (s' & E' & _);
      [rewrite Ec; lia | eauto].
  - intros fuel s' F basePoints particleCount.
    destruct (fill_Inv random Hr s s' fuel I P A F) as [I' S'].
    assert (particleCount <= 89 * 89)%nat as Hn.
    { pose proof (points_bound s' I') as B. unfold cells in B.
      rewrite (same_gridWidth s s' S'), (same_gridHeight s s' S'), Gw, Gh in B.
      exact B. }
    assert (size * size = 256 * 256)%nat as Hsz by reflexivity.
    split; [intros gx gy; pose proof (cell_count s' gx gy I'); unfold basePoints; lia |].
    split; [lia |]. split; [reflexivity |]. split; [reflexivity |].
    split; [lia |]. split; [reflexivity |]. split; [| split].
    + intros i Hi. assert (i < size * size)%nat as Hi' by lia.
      destruct (particleUV_texel i Hi') as [Tx Ty].
      split; [rewrite length_replicate; lia |].
      split; [assumption |]. split; [assumption |]. split.
      * apply Nat.mod_upper_bound. unfold size. lia.
      * apply Nat.Div0.div_lt_upper_bound. lia.
    + intros i j _ _. apply texel_injective.
    + intros targetPoints isTarget draws Ht. unfold createDataTexture.
      destruct (dataLoop_spec random particleCount 0
                  (if isTarget then targetPoints else basePoints)
                  (replicate (size * size * 4) 0) draws)
        as (data & E & L & _ & Wr).
      { destruct isTarget; simpl; unfold particleCount in *; lia. }
      { rewrite length_replicate. lia. }
      exists data. split; [exact E |].
      split; [rewrite L; apply length_replicate |].
      intros i Hi. destruct (Wr i) as (p & Hp & W0 & W1 & W2 & W3); [lia |].
      exists p. split; [assumption |].
      rewrite Nat.sub_0_r in W2.
      apply dataTexture_particle; [lia | assumption ..].
Qed.

(** Witness of C10 with [Math.random] constantly 0. *)
Lemma configured_sampler_fits_witness :
  exists s, constructor baseOptions = Some s /\
    gridWidth s = 89%Z /\ gridHeight s = 89%Z /\
    exists s', fill (fun _ => 0) (2 * 89 * 89) s = Done s'.
Proof.
  destruct baseOptions_constructor as (s & E & _). exists s.
  split; [exact E |].
  destruct (configured_sampler_fits (fun _ => 0) s) as (_ & Gw & Gh & T & _).
  - intros n. lra.
  - exact E.
  - auto.
Defined.

End TextureProofs.

(** ** The result of [fill] *)
Module FillProofs.

Import NumberFacts PoissonDiskSampling SamplerSpec SamplerProofs FillSpec.

Section LoopInduction.

Variable random : nat -> R.
Hypothesis random_range : forall n, 0 <= random n < 1.

(** A property of the object that the draws, the removal from the active
    list and the acceptance of a valid candidate of an active point all
    keep. *)
Variable P : sampler -> Prop.
Hypothesis P_rng : forall s, P s -> P (rng random s).2.
Hypothesis P_splice : forall s i, P s -> P (splice1 s i).
Hypothesis P_add : forall s parent r1 r2,
  Inv s -> P s -> parent ∈ activeList s -> 0 <= r1 < 1 -> 0 <= r2 < 1 ->
  isValidPoint s (candidate s parent r1 r2) = true ->
  P (addPoint s (candidate s parent r1 r2)).

Lemma tryCandidates_keeps (tries : nat) (s s' : sampler) (p : point) (found : bool) :
  Inv s -> P s -> p ∈ activeList s ->
  tryCandidates random tries s p = (s', found) -> P s'.
Proof.
  revert s. induction tries as [| tries IH]; intros s I Ps Hp E;
    cbn [tryCandidates] in E.
  - injection E as <- _. exact Ps.
  - pose proof (rng_Inv random s I) as I1. pose proof (P_rng s Ps) as P1.
    destruct (rng random s) as [r1 s1] eqn:E1. cbn [snd] in I1, P1.
    pose proof (rng_Inv random s1 I1) as I2. pose proof (P_rng s1 P1) as P2.
    destruct (rng random s1) as [r2 s2] eqn:E2. cbn [snd] in I2, P2.
    assert (r1 = random (draws s) /\ r2 = random (draws s1) /\
            activeList s2 = activeList s) as (-> & -> & A2).
    { injection E1 as <- <-. injection E2 as <- <-. repeat split. }
    fold (candidate s2 p (random (draws s)) (random (draws s1))) in E.
    destruct (isValidPoint s2 _) eqn:V.
    + injection E as <- _. apply P_add; auto. now rewrite A2.
    + apply (IH s2); auto. now rewrite A2.
Qed.

Lemma fillStep_keeps (s s' : sampler) :
  Inv s -> P s -> fillStep random s = Some s' -> P s'.
Proof.
  intros I Ps E. unfold fillStep in E.
  pose proof (rng_Inv random s I) as I1. pose proof (P_rng s Ps) as P1.
  destruct (rng random s) as [r s1] eqn:E1. cbn [snd] in I1, P1.
  destruct (at_index (activeList s1) _) as [p |] eqn:Hp; [| discriminate].
  assert (p ∈ activeList s1) as Hin.
  { unfold at_index in Hp. destruct (decide _); [| discriminate].
    eapply list_elem_of_lookup_2. exact Hp. }
  destruct (tryCandidates random (maxTries s1) s1 p) as [s2 found] eqn:E2.
  pose proof (tryCandidates_keeps _ _ _ _ _ I1 P1 Hin E2) as P2.
  injection E as <-. destruct found.
  - exact P2.
  - apply P_splice. exact P2.
Qed.

Lemma fillLoop_keeps (fuel : nat) (s s' : sampler) :
  Inv s -> P s -> fillLoop random fuel s = Done s' -> P s'.
Proof.
  revert s. induction fuel as [| fuel IH]; intros s I Ps E; simpl in E.
  - destruct (activeList s); [| discriminate]. injection E as <-. exact Ps.
  - destruct (activeList s) eqn:A; [injection E as <-; exact Ps |].
    destruct (fillStep_spec random random_range s I) as (s1 & E1 & I1 & _);
      [congruence |].
    rewrite E1 in E. apply (IH s1 I1); [| exact E].
    exact (fillStep_keeps s s1 I Ps E1).
Qed.

End LoopInduction.

Lemma candidate_dist (s : sampler) (p : point) (r1 r2 : R) :
  0 < minDistance s -> minDistance s <= maxDistance s -> 0 <= r2 < 1 ->
  minDistance s <= dist (candidate s p r1 r2) p <= maxDistance s.
Proof.
  intros Hm Hle Hr. unfold candidate, dist, Math.pow2. cbn [fst snd].
  set (d := minDistance s + r2 * (maxDistance s - minDistance s)).
  set (a := r1 * PI * 2).
  assert (minDistance s <= d <= maxDistance s) as Hd by (unfold d; nra).
  replace ((fst p + cos a * d - fst p) ^ 2 + (snd p + sin a * d - snd p) ^ 2)
    with (((sin a)² + (cos a)²) * (d * d)) by (unfold Rsqr; ring).
  rewrite sin2_cos2, Rmult_1_l, sqrt_square by lra. exact Hd.
Qed.

Section FillKeeps.

Variable random : nat -> R.
Hypothesis random_range : forall n, 0 <= random n < 1.

Lemma fillLoop_active_empty (fuel : nat) (s s' : sampler) :
  fillLoop random fuel s = Done s' -> activeList s' = [].
Proof.
  revert s. induction fuel as [| fuel IH]; intros s E; simpl in E.
  - destruct (activeList s) eqn:A; [| discriminate]. now injection E as <-.
  - destruct (activeList s) eqn:A; [now injection E as <- |].
    destruct (fillStep random s) as [s1 |]; [| discriminate]. exact (IH s1 E).
Qed.

(** The accepted points are never removed or reordered. *)
Lemma fill_keeps_prefix (s s' : sampler) (fuel : nat) :
  Inv s -> fillLoop random fuel s = Done s' ->
  exists rest, points s' = points s ++ rest.
Proof.
  intros I E.
  refine (fillLoop_keeps random random_range
            (fun t => exists rest, points t = points s ++ rest)
            _ _ _ fuel s s' I _ E).
  - intros t [rest Ht]. exists rest. exact Ht.
  - intros t i [rest Ht]. exists rest. exact Ht.
  - intros t parent r1 r2 _ [rest Ht] _ _ _ _. eexists. simpl.
    rewrite Ht, <- app_assoc. reflexivity.
  - exists []. now rewrite app_nil_r.
Qed.

Lemma fill_keeps_active (s s' : sampler) (fuel : nat) :
  Inv s -> activeAccepted s -> fillLoop random fuel s = Done s' -> activeAccepted s'.
Proof.
  intros I A E.
  refine (fillLoop_keeps random random_range activeAccepted
            _ _ _ fuel s s' I A E).
  - intros t Ht. exact Ht.
  - intros t i Ht q Hq. apply Ht. simpl in Hq.
    eapply list_elem_of_delete_inv. exact Hq.
  - intros t parent r1 r2 _ Ht _ _ _ _ q Hq. simpl in Hq |- *.
    apply elem_of_app in Hq as [Hq | Hq]; apply elem_of_app; auto.
Qed.

Lemma fill_keeps_spawned (s s' : sampler) (fuel : nat) :
  Inv s -> minDistance s <= maxDistance s -> activeAccepted s ->
  spawnedNear (minDistance s) (maxDistance s) (points s) ->
  fillLoop random fuel s = Done s' ->
  spawnedNear (minDistance s) (maxDistance s) (points s').
Proof.
  intros I Hle A Sp E.
  refine (proj2 (proj2 (proj2 (fillLoop_keeps random random_range
           (fun t => minDistance t = minDistance s /\ maxDistance t = maxDistance s /\
                     activeAccepted t /\
                     spawnedNear (minDistance s) (maxDistance s) (points t))
           _ _ _ fuel s s' I _ E)))).
  - intros t Ht. exact Ht.
  - intros t i (Em & Ex & At & St). repeat split; auto.
    intros q Hq. apply At. simpl in Hq. eapply list_elem_of_delete_inv. exact Hq.
  - intros t parent r1 r2 It (Em & Ex & At & St) Hp _ Hr2 _.
    split; [exact Em |]. split; [exact Ex |]. split.
    + intros q Hq. simpl in Hq |- *.
      apply elem_of_app in Hq as [Hq | Hq]; apply elem_of_app; auto.
    + intros j p Hj Hl. simpl in Hl.
      apply lookup_snoc_Some in Hl as [[Hlt Hl] | [Hlen <-]].
      * destruct (St j p Hj Hl) as (i & q & Hi & Hq & Hd).
        exists i, q. split; [assumption |]. split; [| assumption].
        simpl. apply lookup_app_l_Some. exact Hq.
      * apply At in Hp. apply list_elem_of_lookup in Hp as [i Hi].
        exists i, parent. split; [apply lookup_lt_Some in Hi; lia |].
        split; [simpl; apply lookup_app_l_Some; exact Hi |].
        rewrite <- Em, <- Ex. apply candidate_dist; [| lra | exact Hr2].
        apply (cfg_min t (inv_config t It)).
  - repeat split; assumption.
Qed.

Lemma fill_keeps_grid (s s' : sampler) (fuel : nat) :
  Inv s -> gridKeys s -> size (grid s) = length (points s) ->
  fillLoop random fuel s = Done s' ->
  gridKeys s' /\ size (grid s') = length (points s').
Proof.
  intros I K Z E.
  refine (fillLoop_keeps random random_range
            (fun t => gridKeys t /\ size (grid t) = length (points t))
            _ _ _ fuel s s' I (conj K Z) E).
  - intros t Ht. exact Ht.
  - intros t i Ht. exact Ht.
  - intros t parent r1 r2 It [Kt Zt] _ _ _ V.
    set (c := candidate t parent r1 r2) in *.
    apply (isValidPoint_sound t c It) in V as [D F].
    pose proof (inv_config t It) as C.
    assert (grid t !! gridIndex t (gridX t c) (gridY t c) = None) as Free.
    { destruct (grid t !! _) as [q |] eqn:G; [exfalso | reflexivity].
      pose proof (Kt _ _ G) as Ei. pose proof (inv_cells t It _ _ G) as Hq.
      destruct (cell_in_grid t c C D) as [Bc _].
      destruct (cell_in_grid t q C (inv_domain t It q Hq)) as [Bq _].
      apply gridIndex_inj in Ei as [Ex Ey]; [| assumption ..].
      pose proof (same_cell_close t c q C Ex Ey). specialize (F q Hq). lra. }
    split.
    + intros i p Hp. simpl in Hp.
      change (gridIndex (addPoint t c)) with (gridIndex t).
      change (gridX (addPoint t c)) with (gridX t).
      change (gridY (addPoint t c)) with (gridY t).
      apply lookup_insert_Some in Hp as [[<- <-] | [_ Hp]]; [reflexivity |].
      exact (Kt i p Hp).
    + simpl. rewrite map_size_insert_None by exact Free.
      rewrite length_app, Zt. simpl. lia.
Qed.

End FillKeeps.

Lemma constructor_fresh (o : options) (s : sampler) :
  constructor o = Some s ->
  grid s = ∅ /\ draws s = 0%nat /\
  maxDistance s = or_number (opt_maxDistance o) (opt_minDistance o * 2).
Proof.
  unfold constructor. intros E. destruct (decide _); [| discriminate].
  injection E as <-. repeat split.
Qed.

Section FillResult.

Variable random : nat -> R.
Hypothesis random_range : forall n, 0 <= random n < 1.

Lemma fillFirst_more (s : sampler) :
  Inv s -> points s = [] -> activeList s = [] -> grid s = ∅ ->
  let s1 := fillFirst random s in
  activeAccepted s1 /\ gridKeys s1 /\ size (grid s1) = length (points s1) /\
  forall lo hi, spawnedNear lo hi (points s1).
Proof.
  intros I P A G s1. unfold s1, fillFirst, rng, addPoint, activeAccepted, gridKeys.
  unfold gridIndex, gridX, gridY. simpl.
  rewrite P, A, G. simpl. repeat split.
  - intros q Hq. exact Hq.
  - intros i p Hp. apply lookup_insert_Some in Hp as [[<- <-] | [_ Hp]].
    + reflexivity.
    + rewrite lookup_empty in Hp. discriminate.
  - rewrite map_size_insert_None by apply lookup_empty.
    rewrite map_size_empty. reflexivity.
  - intros lo hi j p Hj Hp. destruct j as [| j]; [lia |]. discriminate.
Qed.

Lemma fill_result (o : options) (s s' : sampler) (fuel : nat) :
  0 < fst (opt_shape o) -> 0 < snd (opt_shape o) -> 0 < opt_minDistance o ->
  constructor o = Some s -> fill random fuel s = Done s' ->
  Inv s' /\ sameSetup s s' /\ shape s = opt_shape o /\
  minDistance s = opt_minDistance o /\
  activeList s' = [] /\
  (exists rest,
     points s' = (random 0 * fst (opt_shape o), random 1 * snd (opt_shape o)) :: rest) /\
  gridKeys s' /\ size (grid s') = length (points s') /\
  (minDistance s <= maxDistance s ->
   spawnedNear (minDistance s) (maxDistance s) (points s')).
Proof.
  intros W H D E F.
  destruct (constructor_Inv o s W H D E) as (I & Es & Em & P & A).
  destruct (constructor_fresh o s E) as (G & Dr & _).
  destruct (fill_Inv random random_range s s' fuel I P A F) as [I' S'].
  destruct (fillFirst_spec random random_range s I P A) as (I1 & S1 & _ & P1 & A1).
  destruct (fillFirst_more s I P A G) as (Ac & K & Z & Sp).
  unfold fill in F.
  split; [exact I' |]. split; [exact S' |]. split; [exact Es |].
  split; [exact Em |].
  split; [exact (fillLoop_active_empty random fuel _ s' F) |].
  split.
  { destruct (fill_keeps_prefix random random_range _ s' fuel I1 F) as [rest Hr].
    exists rest. rewrite Hr, P1, Dr, Es. reflexivity. }
  split; [exact (proj1 (fill_keeps_grid random random_range _ s' fuel I1 K Z F)) |].
  split; [exact (proj2 (fill_keeps_grid random random_range _ s' fuel I1 K Z F)) |].
  intros Hle.
  rewrite <- (same_minDistance _ _ S1), <- (same_maxDistance _ _ S1).
  apply (fill_keeps_spawned random random_range _ s' fuel I1); auto.
  all: rewrite (same_minDistance _ _ S1), (same_maxDistance _ _ S1); exact Hle.
Qed.

End FillResult.

(** The sampler [createBasePoints] configures, run with [Math.random]
    constantly 0: it returns, and its first point is the origin. *)
Lemma base_run :
  exists s s', constructor baseOptions = Some s /\
    fill (fun _ => 0) (2 * 89 * 89) s = Done s' /\
    gridWidth s = 89%Z /\ gridHeight s = 89%Z /\
    points s' !! 0%nat = Some (0, 0).
Proof.
  assert (forall n : nat, 0 <= (fun _ : nat => 0) n < 1) as Hr by (intros n; lra).
  destruct baseOptions_constructor as (s & E & Gw & Gh).
  destruct (constructor_Inv baseOptions s) as (I & _ & _ & P & A);
    [simpl; lra .. | exact E |].
  destruct (fill_terminates_aux (fun _ => 0) Hr s (2 * 89 * 89) I P A) as (s' & F & _).
  { unfold cells. rewrite Gw, Gh. reflexivity. }
  exists s, s'. split; [exact E |]. split; [exact F |].
  split; [exact Gw |]. split; [exact Gh |].
  destruct (fill_result (fun _ => 0) Hr baseOptions s s' (2 * 89 * 89)) as (_ & _ & _ & _ & _ & [rest Hp] & _);
    [simpl; lra .. | exact E | exact F |].
  rewrite Hp. simpl. do 2 f_equal; ring.
Qed.

(** The same run has the point [(8, 0)] second. *)
Lemma base_second :
  exists s s', constructor baseOptions = Some s /\
    fill (fun _ => 0) (S (2 * 89 * 89)) s = Done s' /\
    points s' !! 0%nat = Some (0, 0) /\ points s' !! 1%nat = Some (8, 0).
Proof.
  set (random := fun _ : nat => 0).
  assert (forall n : nat, 0 <= random n < 1) as Hr by (intros n; unfold random; lra).
  destruct first_round as (s & s1 & E & P0 & Fs & P1 & A1). fold random in P0, Fs.
  destruct baseOptions_constructor as (s0 & E0 & Gw & Gh).
  rewrite E in E0. injection E0 as <-.
  destruct (constructor_Inv baseOptions s) as (I & _ & _ & P & A);
    [simpl; lra .. | exact E |].
  destruct (fillFirst_spec random Hr s I P A) as (I0 & S0 & M0 & _ & A0).
  destruct (fillStep_spec random Hr _ I0) as (s1' & E1 & I1 & S1 & M1).
  { rewrite A0, P0. discriminate. }
  rewrite Fs in E1. injection E1 as <-.
  assert (2 * cells s = 2 * 89 * 89)%nat as Ec
    by (unfold cells; rewrite Gw, Gh; reflexivity).
  destruct (fillLoop_terminates random Hr (2 * 89 * 89) s1 I1) as (s' & F & _);
    [lia |].
  exists s, s'. split; [exact E |]. split.
  - unfold fill.
    change (fillLoop random (S (2 * 89 * 89)) (fillFirst random s))
      with (match activeList (fillFirst random s) with
            | [] => Done (fillFirst random s)
            | _ :: _ =>
                match fillStep random (fillFirst random s) with
                | None => TypeError
                | Some t => fillLoop random (2 * 89 * 89) t
                end
            end).
    rewrite A0, P0, Fs. exact F.
  - destruct (fill_keeps_prefix random Hr s1 s' _ I1 F) as [rest Hrest].
    rewrite Hrest, P1. split; reflexivity.
Qed.

Lemma constructor_cells (o : options) (s : sampler) :
  constructor o = Some s -> (0 <= gridWidth s * gridHeight s < 2 ^ 32)%Z.
Proof.
  unfold constructor. intros E. destruct (decide _) as [B |]; [| discriminate].
  injection E as <-. exact B.
Qed.

Section SamplerExtras.

Variable random : nat -> R.
Hypothesis random_range : forall n, 0 <= random n < 1.

(** The sampler of [createBasePoints] once [fill] has returned. *)
Lemma base_result (s s' : sampler) (fuel : nat) :
  constructor baseOptions = Some s -> fill random fuel s = Done s' ->
  Inv s' /\ sameSetup s s' /\ shape s = (500, 500) /\ minDistance s = 8 /\
  gridWidth s' = 89%Z /\ gridHeight s' = 89%Z.
Proof.
  intros E F.
  destruct (fill_result random random_range baseOptions s s' fuel
              ltac:(simpl; lra) ltac:(simpl; lra) ltac:(simpl; lra) E F)
    as (I' & S' & Es & Em & _).
  destruct baseOptions_constructor as (s0 & E0 & Gw & Gh).
  rewrite E in E0. injection E0 as <-.
  rewrite (same_gridWidth s s' S'), (same_gridHeight s s' S').
  split; [exact I' |]. split; [exact S' |]. split; [exact Es |].
  split; [exact Em |]. split; [exact Gw | exact Gh].
Qed.

Lemma fillLoop_no_type_error (fuel : nat) (s : sampler) :
  Inv s -> fillLoop random fuel s <> TypeError.
Proof.
  revert s. induction fuel as [| fuel IH]; intros s I; simpl.
  - destruct (activeList s); discriminate.
  - destruct (activeList s) eqn:A; [discriminate |].
    destruct (fillStep_spec random random_range s I) as (s1 & E1 & I1 & _);
      [congruence |].
    rewrite E1. exact (IH s1 I1).
Qed.

(** Property X1.  For the sampler [createBasePoints] configures (shape
    [[500, 500]], [minDistance] 8), every point [fill] returns lies in
    [[0, 500) x [0, 500)], and the grid cell [addPoint] computes for it is
    one of the 89 by 89 cells of the grid. *)
Theorem fill_inside_shape (s s' : sampler) (fuel : nat) (p : point) :
  constructor baseOptions = Some s -> fill random fuel s = Done s' ->
  p ∈ points s' ->
  (0 <= fst p < 500 /\ 0 <= snd p < 500) /\
  (0 <= gridX s' p < 89)%Z /\ (0 <= gridY s' p < 89)%Z.
Proof.
  intros E F Hp.
  destruct (base_result s s' fuel E F) as (I' & S' & Es & _ & Gw & Gh).
  pose proof (inv_domain s' I' p Hp) as Dp. split.
  - unfold inDomain in Dp. rewrite (same_shape s s' S'), Es in Dp. exact Dp.
  - rewrite <- Gw at 1. rewrite <- Gh.
    exact (cell_in_grid s' p (inv_config s' I') Dp).
Qed.

(** Property X2.  For the sampler [createBasePoints] configures, no two
    entries of the array [fill] returns fall in the same cell of the grid,
    and the array has at most 89 * 89 entries. *)
Theorem fill_one_point_per_cell (s s' : sampler) (fuel : nat) :
  constructor baseOptions = Some s -> fill random fuel s = Done s' ->
  (forall (i j : nat) (p q : point),
     i <> j -> points s' !! i = Some p -> points s' !! j = Some q ->
     gridX s' p <> gridX s' q \/ gridY s' p <> gridY s' q) /\
  (Z.of_nat (length (points s')) <= 89 * 89)%Z.
Proof.
  intros E F.
  destruct (base_result s s' fuel E F) as (I' & S' & _ & _ & Gw & Gh).
  rewrite <- Gw at 1. rewrite <- Gh.
  rewrite (same_gridWidth s s' S'), (same_gridHeight s s' S').
  set (o := baseOptions) in E.
  split.
  - intros i j p q Hij Hp Hq.
    destruct (decide (gridX s' p = gridX s' q)) as [Ex |]; [| now left].
    destruct (decide (gridY s' p = gridY s' q)) as [Ey |]; [| now right].
    exfalso.
    pose proof (same_cell_close s' p q (inv_config s' I') Ex Ey) as Hc.
    pose proof (inv_far s' I' i j p q Hij Hp Hq) as Hf. lra.
  - pose proof (points_bound s' I') as B. unfold cells in B.
    rewrite (same_gridWidth s s' S'), (same_gridHeight s s' S') in B.
    pose proof (constructor_cells o s E) as C.
    revert B C. generalize (gridWidth s * gridHeight s)%Z (length (points s')).
    clear. intros z n B C. lia.
Qed.

(** Property X3.  When [fill] returns, the active list is empty, and the
    first entry of the returned array is the point drawn by the first two
    calls of [Math.random], scaled to the shape: the array is never
    empty. *)
Theorem fill_returns_seed_first (o : options) (s s' : sampler) (fuel : nat) :
  0 < fst (opt_shape o) -> 0 < snd (opt_shape o) -> 0 < opt_minDistance o ->
  constructor o = Some s -> fill random fuel s = Done s' ->
  activeList s' = [] /\
  points s' !! 0%nat
    = Some (random 0 * fst (opt_shape o), random 1 * snd (opt_shape o)).
Proof.
  intros W H D E F.
  destruct (fill_result random random_range o s s' fuel W H D E F)
    as (_ & _ & _ & _ & A & [rest Hp] & _).
  split; [exact A |]. rewrite Hp. reflexivity.
Qed.

(** Property X4.  When [maxDistance] is not below [minDistance], every
    entry of the returned array but the first lies at a distance between
    [minDistance] and [maxDistance] from an entry before it: the point it
    was spawned from. *)
Theorem fill_points_chain (o : options) (s s' : sampler) (fuel : nat) :
  0 < fst (opt_shape o) -> 0 < snd (opt_shape o) -> 0 < opt_minDistance o ->
  constructor o = Some s -> opt_minDistance o <= maxDistance s ->
  fill random fuel s = Done s' ->
  forall (j : nat) (p : point), (0 < j)%nat -> points s' !! j = Some p ->
    exists (i : nat) (q : point),
      (i < j)%nat /\ points s' !! i = Some q /\
      opt_minDistance o <= dist p q <= maxDistance s.
Proof.
  intros W H D E Hle F.
  destruct (fill_result random random_range o s s' fuel W H D E F)
    as (_ & _ & _ & Em & _ & _ & _ & _ & Sp).
  rewrite <- Em in *. exact (Sp Hle).
Qed.

(** Property X5.  On the sampler [createBasePoints] configures, as [fill]
    leaves it behind, the test of [isValidPoint], which reads the 5 by 5
    cells around the point only, accepts exactly the points of
    [[0, 500) x [0, 500)] that are at least 8 away from every point of
    the array (distances taken exactly). *)
Theorem isValidPoint_exact (s s' : sampler) (fuel : nat) (p : point) :
  constructor baseOptions = Some s -> fill random fuel s = Done s' ->
  isValidPoint s' p = true <->
  (0 <= fst p < 500 /\ 0 <= snd p < 500) /\
  forall q, q ∈ points s' -> 8 <= dist p q.
Proof.
  intros E F.
  destruct (base_result s s' fuel E F) as (I' & S' & Es & Em & _).
  assert (shape s' = (500, 500)) as Es' by (rewrite (same_shape s s' S'); exact Es).
  assert (minDistance s' = 8) as Em' by (rewrite (same_minDistance s s' S'); exact Em).
  split.
  - intros V. destruct (isValidPoint_sound s' p I' V) as [Dp Fp].
    unfold inDomain in Dp. rewrite Es' in Dp. rewrite Em' in Fp.
    split; [exact Dp | exact Fp].
  - intros [Dp Fp]. apply (isValidPoint_complete s' p I').
    + unfold inDomain. rewrite Es'. exact Dp.
    + rewrite Em'. exact Fp.
Qed.

(** Property X6.  For the sampler [createBasePoints] configures, when
    [fill] returns the grid array holds exactly the points of the returned
    array, each at the index of its own cell, and nothing else: as many
    entries as points. *)
Theorem grid_indexes_points (s s' : sampler) (fuel : nat) :
  constructor baseOptions = Some s -> fill random fuel s = Done s' ->
  (forall (i : Z) (p : point),
     grid s' !! i = Some p <->
     p ∈ points s' /\ i = gridIndex s' (gridX s' p) (gridY s' p)) /\
  size (grid s') = length (points s').
Proof.
  intros E F.
  destruct (fill_result random random_range baseOptions s s' fuel
              ltac:(simpl; lra) ltac:(simpl; lra) ltac:(simpl; lra) E F)
    as (I' & _ & _ & _ & _ & _ & K & Z & _).
  split; [| exact Z]. intros i p. split.
  - intros G. split; [exact (inv_cells s' I' i p G) | exact (K i p G)].
  - intros [Hp ->]. exact (inv_grid s' I' p Hp).
Qed.

(** Property X7.  Whatever the number of rounds allowed, [fill] never
    reads a coordinate of an undefined point: the index
    [Math.floor(this.rng() * this.activeList.length)] is always an index
    of the active list. *)
Theorem fill_no_type_error (o : options) (s : sampler) (fuel : nat) :
  0 < fst (opt_shape o) -> 0 < snd (opt_shape o) -> 0 < opt_minDistance o ->
  constructor o = Some s -> fill random fuel s <> TypeError.
Proof.
  intros W H D E.
  destruct (constructor_Inv o s W H D E) as (I & _ & _ & P & A).
  destruct (fillFirst_spec random random_range s I P A) as (I1 & _).
  exact (fillLoop_no_type_error fuel _ I1).
Qed.

(** Property X29.  For the sampler [createBasePoints] configures, any two
    points at different indices of the array [fill] returns are at least
    8 apart (distances taken exactly). *)
Theorem base_points_apart (s s' : sampler) (fuel : nat) (i j : nat) (p q : point) :
  constructor baseOptions = Some s -> fill random fuel s = Done s' ->
  i <> j -> points s' !! i = Some p -> points s' !! j = Some q ->
  8 <= dist p q.
Proof.
  intros E F Hij Hp Hq.
  destruct (base_result s s' fuel E F) as (I' & S' & _ & Em & _).
  rewrite <- Em, <- (same_minDistance s s' S'). exact (inv_far s' I' i j p q Hij Hp Hq).
Qed.

(** Property X30.  For the sampler [createBasePoints] configures, the
    loop of [fill] ends within 2 * 89 * 89 rounds, whatever [Math.random]
    returns: every round accepts a point, into a cell of its own, or
    removes a point from the active list. *)
Theorem base_fill_returns (s : sampler) (fuel : nat) :
  constructor baseOptions = Some s -> (2 * 89 * 89 <= fuel)%nat ->
  exists s', fill random fuel s = Done s'.
Proof.
  intros E Hf.
  destruct baseOptions_constructor as (s0 & E0 & Gw & Gh).
  rewrite E in E0. injection E0 as <-.
  destruct (constructor_Inv baseOptions s) as (I & _ & _ & P & A);
    [simpl; lra .. | exact E |].
  destruct (fill_terminates_aux random random_range s fuel I P A) as (s' & F & _).
  { unfold cells. rewrite Gw, Gh. exact Hf. }
  exists s'. exact F.
Qed.

End SamplerExtras.

Ltac base_hyps :=
  first [ intros n; lra | simpl; lra | assumption ].

Lemma fill_inside_shape_witness :
  exists s s', constructor baseOptions = Some s /\
    fill (fun _ => 0) (2 * 89 * 89) s = Done s' /\ (0, 0) ∈ points s' /\
    (0 <= 0 < 500 /\ 0 <= 0 < 500) /\
    (0 <= gridX s' (0%R, 0%R) < 89)%Z /\ (0 <= gridY s' (0%R, 0%R) < 89)%Z.
Proof.
  destruct base_run as (s & s' & E & F & _ & _ & P0).
  exists s, s'. split; [exact E |]. split; [exact F |].
  assert ((0, 0) ∈ points s') as Hp by (eapply list_elem_of_lookup_2; exact P0).
  split; [exact Hp |].
  refine (fill_inside_shape (fun _ => 0) _ s s' (2 * 89 * 89) (0, 0) E F Hp);
    base_hyps.
Defined.

Lemma fill_one_point_per_cell_witness :
  exists s s', constructor baseOptions = Some s /\
    fill (fun _ => 0) (2 * 89 * 89) s = Done s' /\
    (forall (i j : nat) (p q : point),
       i <> j -> points s' !! i = Some p -> points s' !! j = Some q ->
       gridX s' p <> gridX s' q \/ gridY s' p <> gridY s' q) /\
    (Z.of_nat (length (points s')) <= 89 * 89)%Z.
Proof.
  destruct base_run as (s & s' & E & F & Gw & Gh & _).
  exists s, s'. split; [exact E |]. split; [exact F |].
  refine (fill_one_point_per_cell (fun _ => 0) _ s s' (2 * 89 * 89) E F);
    base_hyps.
Defined.

Lemma fill_returns_seed_first_witness :
  exists s s', constructor baseOptions = Some s /\
    fill (fun _ => / 2) (2 * 89 * 89) s = Done s' /\
    activeList s' = [] /\ points s' !! 0%nat = Some (/ 2 * 500, / 2 * 500).
Proof.
  assert (forall n : nat, 0 <= (fun _ : nat => / 2) n < 1) as Hr by (intros n; lra).
  destruct baseOptions_constructor as (s & E & Gw & Gh).
  destruct (constructor_Inv baseOptions s) as (I & _ & _ & P & A);
    [simpl; lra .. | exact E |].
  destruct (fill_terminates_aux (fun _ => / 2) Hr s (2 * 89 * 89) I P A) as (s' & F & _).
  { unfold cells. rewrite Gw, Gh. reflexivity. }
  exists s, s'. split; [exact E |]. split; [exact F |].
  refine (fill_returns_seed_first (fun _ => / 2) Hr baseOptions s s' (2 * 89 * 89)
            _ _ _ E F); base_hyps.
Defined.

Lemma base_maxDistance (s : sampler) :
  constructor baseOptions = Some s -> minDistance s = 8 /\ maxDistance s = 10.
Proof.
  unfold constructor. intros E. destruct (decide _); [| discriminate].
  injection E as <-. simpl. unfold or_number.
  destruct (decide (10 = 0)); [lra | auto].
Qed.

Lemma fill_points_chain_witness :
  exists s s', constructor baseOptions = Some s /\
    fill (fun _ => 0) (2 * 89 * 89) s = Done s' /\
    forall (j : nat) (p : point), (0 < j)%nat -> points s' !! j = Some p ->
      exists (i : nat) (q : point),
        (i < j)%nat /\ points s' !! i = Some q /\ 8 <= dist p q <= 10.
Proof.
  destruct base_run as (s & s' & E & F & _).
  exists s, s'. split; [exact E |]. split; [exact F |].
  destruct (base_maxDistance s E) as [_ Ex]. rewrite <- Ex.
  refine (fill_points_chain (fun _ => 0) _ baseOptions s s' (2 * 89 * 89)
            _ _ _ E _ F); base_hyps.
Defined.

Lemma isValidPoint_exact_witness :
  exists s s', constructor baseOptions = Some s /\
    fill (fun _ => 0) (2 * 89 * 89) s = Done s' /\
    (isValidPoint s' (0, 0) = true <->
     (0 <= 0 < 500 /\ 0 <= 0 < 500) /\
     forall q, q ∈ points s' -> 8 <= dist (0, 0) q).
Proof.
  destruct base_run as (s & s' & E & F & _).
  exists s, s'. split; [exact E |]. split; [exact F |].
  refine (isValidPoint_exact (fun _ => 0) _ s s' (2 * 89 * 89) (0, 0) E F);
    base_hyps.
Defined.

Lemma grid_indexes_points_witness :
  exists s s', constructor baseOptions = Some s /\
    fill (fun _ => 0) (2 * 89 * 89) s = Done s' /\
    (forall (i : Z) (p : point),
       grid s' !! i = Some p <->
       p ∈ points s' /\ i = gridIndex s' (gridX s' p) (gridY s' p)) /\
    size (grid s') = length (points s').
Proof.
  destruct base_run as (s & s' & E & F & _).
  exists s, s'. split; [exact E |]. split; [exact F |].
  refine (grid_indexes_points (fun _ => 0) _ s s' (2 * 89 * 89) E F);
    base_hyps.
Defined.

Lemma base_points_apart_witness :
  exists s s', constructor baseOptions = Some s /\
    fill (fun _ => 0) (S (2 * 89 * 89)) s = Done s' /\
    points s' !! 0%nat = Some (0, 0) /\ points s' !! 1%nat = Some (8, 0) /\
    8 <= dist (0, 0) (8, 0).
Proof.
  destruct base_second as (s & s' & E & F & P0 & P1).
  exists s, s'. split; [exact E |]. split; [exact F |].
  split; [exact P0 |]. split; [exact P1 |].
  refine (base_points_apart (fun _ => 0) _ s s' (S (2 * 89 * 89)) 0 1 (0, 0) (8, 0)
            E F _ P0 P1); [base_hyps | lia].
Defined.

Lemma base_fill_returns_witness :
  exists s s', constructor baseOptions = Some s /\
    fill (fun _ => / 2) (2 * 89 * 89) s = Done s'.
Proof.
  destruct baseOptions_constructor as (s & E & _).
  destruct (base_fill_returns (fun _ => / 2) ltac:(intros n; lra) s (2 * 89 * 89) E
              ltac:(lia)) as [s' F].
  exists s, s'. split; [exact E | exact F].
Defined.

Lemma fill_no_type_error_witness :
  exists s, constructor baseOptions = Some s /\ fill (fun _ => 0) 3 s <> TypeError.
Proof.
  destruct baseOptions_constructor as (s & E & _). exists s.
  split; [exact E |].
  refine (fill_no_type_error (fun _ => 0) _ baseOptions s 3 _ _ _ E); base_hyps.
Defined.

End FillProofs.

(** ** Binary64 numbers: the length of an array times zero *)
Module DoubleFacts.

Import PrimFloat FloatOps SpecFloat FloatAxioms.
Import Double Double.PoissonDiskSampling DoubleSpec.

















End DoubleFacts.

(** ** The sampler in binary64: a point stored outside the grid *)
Module DoubleProofs.

Import PrimFloat FloatOps SpecFloat FloatAxioms.
Import Double Double.PoissonDiskSampling DoubleSpec DoubleFacts.




(** With the options of [createBasePoints] the grid has 89 by 89 cells
    in binary64 as well, and the largest coordinates of the domain fall
    in the last cell, 88. *)
Example base_edge_in_grid :
  exists s, constructor baseOptions = Some s /\
    gridWidth s = 89%float /\ gridHeight s = 89%float /\
    gridX s (below500, below500) = 88%float /\
    gridY s (below500, below500) = 88%float.
Proof. eexists. split; [vm_compute; reflexivity |]. repeat split. Qed.

(** With [edgeOptions] the largest coordinate of the domain falls in row
    45 of a grid of rows 0 to 44. *)
Example edge_outside_grid :
  gridHeight (edgeSampler ∅ [] [] 0) = 45%float /\
  gridY (edgeSampler ∅ [] [] 0) edgeSeed = 45%float /\
  (snd edgeSeed <? snd (shape (edgeSampler ∅ [] [] 0)))%float = true.
Proof. repeat split. Qed.

Section Edge.

Variable cos sin : number -> number.
Hypothesis cos_zero : cos 0%float = 1%float.
Hypothesis sin_zero : sin 0%float = 0%float.











End Edge.



End DoubleProofs.

(** ** The silhouette of an arbitrary image *)
Module ImageProofs.

Import NumberFacts GLSL MorphingParticles ParticlesSpec MapperProofs.

Lemma round_clamp_int (x : Z) :
  (0 <= x < 500)%Z -> Math.round (Math.max 0 (Math.min 499 (IZR x))) = x.
Proof.
  intros [H0 H1]. apply IZR_le in H0. assert (x <= 499)%Z as H2 by lia.
  apply IZR_le in H2.
  unfold Math.round, Math.max, Math.min.
  replace (Rmax 0 (Rmin 499 (IZR x))) with (IZR x)
    by (unfold Rmax, Rmin; repeat destruct (Rle_dec _ _); lra).
  apply (floor_unique (IZR x + / 2) x). lra.
Qed.

Lemma round_clamp_low (x : R) : x <= 0 -> Math.round (Math.max 0 (Math.min 499 x)) = 0%Z.
Proof.
  intros H. unfold Math.round, Math.max, Math.min.
  replace (Rmax 0 (Rmin 499 x)) with 0
    by (unfold Rmax, Rmin; repeat destruct (Rle_dec _ _); lra).
  apply (floor_unique (0 + / 2) 0). lra.
Qed.

Lemma round_clamp_high (x : R) :
  499 <= x -> Math.round (Math.max 0 (Math.min 499 x)) = 499%Z.
Proof.
  intros H. unfold Math.round, Math.max, Math.min.
  replace (Rmax 0 (Rmin 499 x)) with 499
    by (unfold Rmax, Rmin; repeat destruct (Rle_dec _ _); lra).
  apply (floor_unique (499 + / 2) 499). lra.
Qed.

Lemma isInk_spec (data : list Z) (x y : Z) :
  (0 <= x < 500)%Z -> (0 <= y < 500)%Z ->
  isInk data x y = true <->
  exists r, at_index data ((y * 500 + x) * 4) = Some r /\ (r <= 127)%Z.
Proof.
  intros Hx Hy. unfold isInk, getPixelBrightness.
  rewrite (round_clamp_int x Hx), (round_clamp_int y Hy).
  destruct (at_index data _) as [r |]; [| split; [discriminate | intros (r & E & _); discriminate]].
  rewrite bool_decide_eq_true. split.
  - intros H. exists r. split; [reflexivity |].
    assert (IZR r < IZR 128) as Hr%lt_IZR by lra. lia.
  - intros (r' & E & Hr). injection E as <-. apply IZR_le in Hr. lra.
Qed.

(** The dark pixels of the scan are exactly the entries of
    [imagePoints]. *)
Lemma imagePoints_In (data : list Z) (p : point) :
  In p (imagePoints data) <->
  exists x y : Z,
    ((0 <= x < 500)%Z /\ (x mod 4 = 0)%Z) /\ ((0 <= y < 500)%Z /\ (y mod 4 = 0)%Z) /\
    p = (IZR x, IZR y) /\ isInk data x y = true.
Proof.
  unfold imagePoints. rewrite in_flat_map. split.
  - intros (y & Hy & Hp). apply in_flat_map in Hp as (x & Hx & Hp).
    destruct (isInk data x y) eqn:K; [| contradiction].
    destruct Hp as [<- | []]. apply scan_spec in Hx, Hy.
    exists x, y. auto.
  - intros (x & y & Hx & Hy & -> & K). apply scan_spec in Hx, Hy.
    exists y. split; [assumption |]. apply in_flat_map.
    exists x. split; [assumption |]. rewrite K. now left.
Qed.

(** The search keeps the first of the nearest ink points. *)
Lemma nearest_first (b : point) (l : list point) :
  l <> [] ->
  let r := fold_left (nearestStep b) l (b, None) in
  exists k : nat,
    l !! k = Some (fst r) /\ snd r = Some (distanceTo b (fst r)) /\
    (forall j q, l !! j = Some q -> distanceTo b (fst r) <= distanceTo b q) /\
    (forall j q, (j < k)%nat -> l !! j = Some q ->
       distanceTo b (fst r) < distanceTo b q).
Proof.
  induction l as [| x l IH] using rev_ind; [congruence |]. intros _.
  rewrite fold_left_app. simpl.
  set (r := fold_left (nearestStep b) l (b, None)) in *.
  assert (nearestStep b r x =
          if match snd r with
             | None => true
             | Some nearestDistance => bool_decide (distanceTo b x < nearestDistance)
             end
          then (x, Some (distanceTo b x)) else r) as -> by reflexivity.
  destruct l as [| y l'] eqn:El.
  - subst r. simpl. exists 0%nat. split; [reflexivity |]. split; [reflexivity |].
    split.
    + intros j q Hq. destruct j; [| discriminate]. injection Hq as <-. lra.
    + intros j q Hj. lia.
  - rewrite <- El in *.
    destruct IH as (k & Hk & Hd & Hmin & Hfirst); [rewrite El; discriminate |].
    rewrite Hd.
    destruct (bool_decide_reflect (distanceTo b x < distanceTo b (fst r)))
      as [Hlt | Hge]; simpl.
    + exists (List.length l). split; [apply list_lookup_middle; reflexivity |].
      split; [reflexivity |]. split.
      * intros j q Hq. apply lookup_snoc_Some in Hq as [[_ Hq] | [_ <-]].
        -- specialize (Hmin j q Hq). lra.
        -- lra.
      * intros j q Hj Hq. rewrite lookup_app_l in Hq by exact Hj.
        specialize (Hmin j q Hq). lra.
    + exists k. pose proof (lookup_lt_Some _ _ _ Hk) as Hlen.
      split; [rewrite lookup_app_l by exact Hlen; exact Hk |].
      split; [exact Hd |]. split.
      * intros j q Hq. apply lookup_snoc_Some in Hq as [[_ Hq] | [_ <-]].
        -- exact (Hmin j q Hq).
        -- lra.
      * intros j q Hj Hq. rewrite lookup_app_l in Hq by lia.
        exact (Hfirst j q Hj Hq).
Qed.

Lemma distanceTo_zero (b q : point) : distanceTo b q <= 0 -> q = b.
Proof.
  intros H. pose proof (distanceTo_nonneg b q) as H0.
  pose proof (distanceTo_sqr b q) as Hs.
  assert (distanceTo b q = 0) as E by lra. rewrite E in Hs.
  destruct b as [bx by_], q as [qx qy]. simpl in Hs.
  pose proof (Rle_0_sqr (qx - bx)) as Hx. pose proof (Rle_0_sqr (qy - by_)) as Hy.
  unfold Rsqr in Hx, Hy.
  assert ((qx - bx) * (qx - bx) = 0) as Ex by lra.
  assert ((qy - by_) * (qy - by_) = 0) as Ey by lra.
  apply Rsqr_0_uniq in Ex, Ey. f_equal; lra.
Qed.

Lemma distanceTo_self (b : point) : distanceTo b b = 0.
Proof.
  unfold distanceTo, Math.pow2.
  replace ((fst b - fst b) ^ 2 + (snd b - snd b) ^ 2) with 0 by ring.
  apply sqrt_0.
Qed.

Lemma nearestPoint_fixed (imgPoints : list point) (b : point) :
  nearestPoint imgPoints (nearestPoint imgPoints b) = nearestPoint imgPoints b.
Proof.
  unfold nearestPoint.
  destruct (nearest_spec b imgPoints) as [[-> E] | (Hin & _ & _)].
  - reflexivity.
  - set (t := fst (fold_left (nearestStep b) imgPoints (b, None))) in *.
    destruct (nearest_spec t imgPoints) as [[-> E] | (_ & _ & Hmin)].
    + destruct Hin.
    + specialize (Hmin t Hin). rewrite distanceTo_self in Hmin.
      apply distanceTo_zero. exact Hmin.
Qed.

Lemma createImagePoints_lookup (data : list Z) (basePoints : list point)
    (i : nat) (b : point) :
  basePoints !! i = Some b ->
  createImagePoints data basePoints !! i = Some (nearestPoint (imagePoints data) b).
Proof.
  intros Hb. unfold createImagePoints. rewrite list_lookup_fmap, Hb. reflexivity.
Qed.

(** Property X8.  For an image of 500 by 500 pixels with bytes between 0
    and 255, [getPixelBrightness] is defined at every pair of numbers and
    lies between 0 and 1: it is the brightness of the pixel the
    coordinates are clamped and rounded to, and coordinates outside the
    image read the nearest edge pixel. *)
Theorem getPixelBrightness_clamps (data : list Z) (x y : R) :
  (1000000 <= Z.of_nat (List.length data))%Z ->
  (forall (k : nat) (v : Z), data !! k = Some v -> (0 <= v <= 255)%Z) ->
  exists (px py r : Z),
    (0 <= px < 500)%Z /\ (0 <= py < 500)%Z /\
    at_index data ((py * 500 + px) * 4) = Some r /\
    getPixelBrightness data x y = Some (1 - IZR r / 255) /\
    0 <= 1 - IZR r / 255 <= 1 /\
    (x <= 0 -> px = 0%Z) /\ (499 <= x -> px = 499%Z) /\
    (y <= 0 -> py = 0%Z) /\ (499 <= y -> py = 499%Z).
Proof.
  intros Hlen Hbytes.
  pose proof (round_clamp_range x) as Hx. pose proof (round_clamp_range y) as Hy.
  set (px := Math.round (Math.max 0 (Math.min 499 x))) in *.
  set (py := Math.round (Math.max 0 (Math.min 499 y))) in *.
  destruct (at_index data ((py * 500 + px) * 4)) as [r |] eqn:E.
  - exists px, py, r. split; [exact Hx |]. split; [exact Hy |].
    split; [exact E |]. split.
    { unfold getPixelBrightness. fold px py. rewrite E. reflexivity. }
    split.
    { unfold at_index in E. destruct (decide _); [| discriminate].
      destruct (Hbytes _ _ E) as [B0 B1]. apply IZR_le in B0, B1. lra. }
    split; [intros H; apply round_clamp_low; exact H |].
    split; [intros H; apply round_clamp_high; exact H |].
    split; [intros H; apply round_clamp_low; exact H |].
    intros H; apply round_clamp_high; exact H.
  - exfalso. unfold at_index in E. destruct (decide _) as [| N]; [| lia].
    apply lookup_ge_None in E. lia.
Qed.

(** Property X9.  Whatever the bytes of the image, [imagePoints] holds
    exactly the pixels [(x, y)] with both coordinates multiples of 4 below
    500 whose red byte exists and is at most 127. *)
Theorem imagePoints_dark_pixels (data : list Z) (p : point) :
  In p (imagePoints data) <->
  exists x y r : Z,
    (0 <= x < 500)%Z /\ (x mod 4 = 0)%Z /\ (0 <= y < 500)%Z /\ (y mod 4 = 0)%Z /\
    p = (IZR x, IZR y) /\
    at_index data ((y * 500 + x) * 4) = Some r /\ (r <= 127)%Z.
Proof.
  rewrite imagePoints_In. split.
  - intros (x & y & [Hx Mx] & [Hy My] & -> & K).
    apply (isInk_spec data x y Hx Hy) in K as (r & E & Hr).
    exists x, y, r. auto 10.
  - intros (x & y & r & Hx & Mx & Hy & My & -> & E & Hr).
    exists x, y. split; [auto |]. split; [auto |]. split; [reflexivity |].
    apply (isInk_spec data x y Hx Hy). exists r. auto.
Qed.

(** Property X10.  [createImagePoints] gives every base point one target
    at the same index: the base point itself when the image has no ink,
    and otherwise the ink point nearest to it, the first in scan order
    among equally near ones. *)
Theorem createImagePoints_nearest (data : list Z) (basePoints : list point)
    (i : nat) (b : point) :
  basePoints !! i = Some b ->
  exists t : point,
    createImagePoints data basePoints !! i = Some t /\
    ((imagePoints data = [] /\ t = b) \/
     exists k : nat,
       imagePoints data !! k = Some t /\
       (forall j q, imagePoints data !! j = Some q ->
          distanceTo b t <= distanceTo b q) /\
       (forall j q, (j < k)%nat -> imagePoints data !! j = Some q ->
          distanceTo b t < distanceTo b q)).
Proof.
  intros Hb. exists (nearestPoint (imagePoints data) b). split.
  - exact (createImagePoints_lookup data basePoints i b Hb).
  - destruct (imagePoints data) as [| x l] eqn:E; [left; split; reflexivity |].
    right. rewrite <- E.
    destruct (nearest_first b (imagePoints data)) as (k & Hk & _ & Hmin & Hfirst);
      [rewrite E; discriminate |].
    exists k. split; [exact Hk |]. split; [exact Hmin | exact Hfirst].
Qed.

(** Property X11.  Mapping the targets again changes nothing:
    [createImagePoints] applied to its own result returns it. *)
Theorem createImagePoints_idempotent (data : list Z) (basePoints : list point) :
  createImagePoints data (createImagePoints data basePoints)
  = createImagePoints data basePoints.
Proof.
  unfold createImagePoints. rewrite map_map. apply map_ext.
  intros b. apply nearestPoint_fixed.
Qed.

Lemma whiteImage_bytes (k : nat) (v : Z) :
  whiteImage !! k = Some v -> (0 <= v <= 255)%Z.
Proof.
  unfold whiteImage. intros H. apply lookup_replicate in H as [-> _]. lia.
Qed.

Lemma getPixelBrightness_clamps_witness :
  exists (px py r : Z),
    (0 <= px < 500)%Z /\ (0 <= py < 500)%Z /\
    at_index whiteImage ((py * 500 + px) * 4) = Some r /\
    getPixelBrightness whiteImage (-3) 700 = Some (1 - IZR r / 255) /\
    0 <= 1 - IZR r / 255 <= 1 /\
    (-3 <= 0 -> px = 0%Z) /\ (499 <= -3 -> px = 499%Z) /\
    (700 <= 0 -> py = 0%Z) /\ (499 <= 700 -> py = 499%Z).
Proof.
  apply (getPixelBrightness_clamps whiteImage (-3) 700).
  - unfold whiteImage. rewrite length_replicate. lia.
  - exact whiteImage_bytes.
Defined.

Lemma createImagePoints_nearest_witness :
  exists t : point,
    createImagePoints whiteImage [(1, 2)] !! 0%nat = Some t /\
    ((imagePoints whiteImage = [] /\ t = (1, 2)) \/
     exists k : nat,
       imagePoints whiteImage !! k = Some t /\
       (forall j q, imagePoints whiteImage !! j = Some q ->
          distanceTo (1, 2) t <= distanceTo (1, 2) q) /\
       (forall j q, (j < k)%nat -> imagePoints whiteImage !! j = Some q ->
          distanceTo (1, 2) t < distanceTo (1, 2) q)).
Proof.
  apply (createImagePoints_nearest whiteImage [(1, 2)] 0 (1, 2)). reflexivity.
Defined.

End ImageProofs.

(** ** The data textures beyond the particles *)
Module DataTextureProofs.

Import NumberFacts GLSL MorphingParticles ParticlesSpec TextureProofs.

Lemma writeParticle_after (data : list R) (i : nat) (p : point) (r : R) (j : nat) :
  (4 * (i + 1) <= j)%nat -> writeParticle data i p r !! j = data !! j.
Proof.
  intros H. unfold writeParticle. rewrite !list_lookup_insert_ne by lia. reflexivity.
Qed.

Section Loop.

Variable random : nat -> R.

Lemma dataLoop_None (rounds i : nat) (source : list point) (data : list R)
    (draws : nat) :
  (i <= List.length source)%nat ->
  dataLoop random rounds i source data draws = None <->
  (List.length source < i + rounds)%nat.
Proof.
  revert i data draws. induction rounds as [| rounds IH]; intros i data draws Hi; simpl.
  - split; [discriminate | lia].
  - destruct (source !! i) as [p |] eqn:Hp.
    + apply lookup_lt_Some in Hp. rewrite IH by lia. lia.
    + apply lookup_ge_None in Hp. split; [lia | reflexivity].
Qed.

Lemma dataLoop_Some (rounds i : nat) (source : list point) (data data' : list R)
    (draws draws' : nat) :
  dataLoop random rounds i source data draws = Some (data', draws') ->
  List.length data' = List.length data /\ draws' = (draws + rounds)%nat /\
  forall j, (4 * (i + rounds) <= j)%nat -> data' !! j = data !! j.
Proof.
  revert i data draws. induction rounds as [| rounds IH]; intros i data draws E;
    simpl in E.
  - injection E as <- <-. split; [reflexivity |]. split; [lia | reflexivity].
  - destruct (source !! i) as [p |]; [| discriminate].
    apply IH in E as (L & D & A). rewrite writeParticle_length in L.
    split; [exact L |]. split; [lia |].
    intros j Hj. rewrite A by lia. apply writeParticle_after. lia.
Qed.

(** Property X12.  [createDataTexture] throws exactly when the array it
    reads has fewer entries than [particleCount]: reading a coordinate of
    the missing point is the [TypeError]. *)
Theorem createDataTexture_throws (particleCount : nat)
    (basePoints targetPoints : list point) (isTarget : bool) (draws : nat) :
  createDataTexture random particleCount basePoints targetPoints isTarget draws = None
  <->
  (List.length (if isTarget then targetPoints else basePoints) < particleCount)%nat.
Proof.
  unfold createDataTexture. rewrite dataLoop_None by lia. reflexivity.
Qed.

(** Property X13.  When [createDataTexture] returns, the array has
    [size * size * 4] floats, and every texel that belongs to no particle
    is still zero. *)
Theorem createDataTexture_rest_zero (particleCount : nat)
    (basePoints targetPoints : list point) (isTarget : bool) (draws : nat)
    (data : list R) (draws' : nat) :
  createDataTexture random particleCount basePoints targetPoints isTarget draws
    = Some (data, draws') ->
  List.length data = (size * size * 4)%nat /\
  forall i : nat, (particleCount <= i < size * size)%nat ->
    texture2D (Z.of_nat size) (dataTexture data) (particleUV i) = Vec4 0 0 0 0.
Proof.
  unfold createDataTexture. intros E.
  apply dataLoop_Some in E as (L & D & A). rewrite length_replicate in L.
  split; [exact L |].
  intros i [Hlo Hhi]. apply dataTexture_particle; [exact Hhi | ..].
  all: rewrite A by lia; apply lookup_replicate_2; lia.
Qed.

End Loop.

Lemma createDataTexture_rest_zero_witness :
  exists data : list R,
    createDataTexture (fun _ => 0) 1 [(250, 250)] [] false 0 = Some (data, 1%nat) /\
    List.length data = (size * size * 4)%nat /\
    forall i : nat, (1 <= i < size * size)%nat ->
      texture2D (Z.of_nat size) (dataTexture data) (particleUV i) = Vec4 0 0 0 0.
Proof.
  eexists. split; [reflexivity |].
  exact (createDataTexture_rest_zero (fun _ => 0) 1 [(250, 250)] [] false 0 _ 1
           eq_refl).
Defined.

End DataTextureProofs.

(** ** The life cycle and the step of the simulation shader *)
Module SimulationProofs.

Import NumberFacts GLSL MorphingParticles ParticlesSpec ShaderProofs.

Lemma floor_range (x : R) : floor x <= x < floor x + 1.
Proof. unfold floor. destruct (base_Int_part x). lra. Qed.

Lemma floor_shift (x : R) : floor (x + 1) = floor x + 1.
Proof.
  unfold floor. rewrite <- plus_IZR. f_equal. symmetry. apply Int_part_spec.
  rewrite plus_IZR. pose proof (floor_range x) as H. unfold floor in H. lra.
Qed.

Lemma fract_range (x : R) : 0 <= fract x < 1.
Proof. unfold fract. pose proof (floor_range x). lra. Qed.

Lemma mod_range (x y : R) : 0 < y -> 0 <= mod_ x y < y.
Proof.
  intros Hy. unfold mod_. pose proof (floor_range (x / y)) as [H0 H1].
  assert (x = y * (x / y)) as E by (field; lra).
  split.
  - assert (y * floor (x / y) <= y * (x / y)) by (apply Rmult_le_compat_l; lra).
    lra.
  - assert (y * (x / y) < y * (floor (x / y) + 1)) by (apply Rmult_lt_compat_l; lra).
    lra.
Qed.

Lemma mod_period (x y : R) : 0 < y -> mod_ (x + y) y = mod_ x y.
Proof.
  intros Hy. unfold mod_.
  replace ((x + y) / y) with (x / y + 1) by (field; lra).
  rewrite floor_shift. ring.
Qed.

Lemma falloff_outside (d : R) : 0.15 <= d -> smoothstep 0.15 0.0 d = 0.
Proof.
  intros H. unfold smoothstep. rewrite clamp01_low; [ring |].
  assert (0.0 - 0.15 = - (3 / 20)) as -> by lra.
  assert ((d - 0.15) / - (3 / 20) = (0.15 - d) * (20 / 3)) as -> by (field; lra).
  nra.
Qed.

Lemma falloff_positive (d : R) : 0 <= d < 0.15 -> 0 < smoothstep 0.15 0.0 d.
Proof.
  intros H. rewrite <- (falloff_outside 0.15) by lra. apply falloff_grows; lra.
Qed.

Lemma step_rest (x y gx gy d c : R) :
  0 < d -> d * d = (gx - x) * (gx - x) + (gy - y) * (gy - y) ->
  sqrt ((gx - (x + (gx - x) / d * c)) * (gx - (x + (gx - x) / d * c)) +
        (gy - (y + (gy - y) / d * c)) * (gy - (y + (gy - y) / d * c)))
  = Rabs (d - c).
Proof.
  intros Hd E.
  replace ((gx - (x + (gx - x) / d * c)) * (gx - (x + (gx - x) / d * c)) +
           (gy - (y + (gy - y) / d * c)) * (gy - (y + (gy - y) / d * c)))
    with (((gx - x) * (gx - x) + (gy - y) * (gy - y)) *
          (((d - c) / d) * ((d - c) / d))) by (field; lra).
  rewrite <- E.
  replace (d * d * ((d - c) / d * ((d - c) / d)))
    with ((d - c)²) by (unfold Rsqr; field; lra).
  apply sqrt_Rsqr_abs.
Qed.

(** The distance left after a step of [approach] from farther than
    0.005. *)
Lemma approach_rest (pos goal : vec2) :
  0.005 < length (sub goal pos) ->
  length (sub goal (approach pos goal)) =
  Rabs (length (sub goal pos) - 0.01 * smoothstep 0.15 0.0 (length (sub goal pos))).
Proof.
  intros H. unfold approach. rewrite decide_True by exact H.
  pose proof (length_sqr (sub goal pos)) as E.
  set (d := length (sub goal pos)) in *.
  set (k := smoothstep 0.15 0.0 d).
  destruct pos as [x y], goal as [gx gy]. unfold sub in E. cbn [fst snd] in E.
  unfold normalize. fold d. unfold length at 1. unfold dot, sub, add, scale.
  cbn [fst snd].
  rewrite <- (step_rest x y gx gy d (0.01 * k)) by lra.
  f_equal. ring.
Qed.

(** Property X14.  The life of a particle: [lifeEnd] lies between 2 and
    4, [lifeTime] between 0 and [lifeEnd], and [lifeTime] at a texel
    repeats whenever [uTime] advances by twice the texel's [lifeEnd]. *)
Theorem life_cycle (uv : vec2) (uTime : R) :
  2 <= lifeEnd uv <= 4 /\
  0 <= lifeTime uv uTime < lifeEnd uv /\
  lifeTime uv (uTime + 2 * lifeEnd uv) = lifeTime uv uTime.
Proof.
  pose proof (lifeEnd_range uv) as L. split; [exact L |]. split.
  - unfold lifeTime. apply mod_range. lra.
  - unfold lifeTime.
    replace (fst (hash uv) * 100.0 + (uTime + 2 * lifeEnd uv) * 0.5)
      with (fst (hash uv) * 100.0 + uTime * 0.5 + lifeEnd uv) by lra.
    apply mod_period. lra.
Qed.

(** Property X15.  A step of [approach] never takes a particle farther
    from its goal: from a distance [d] above 0.005 the distance left is
    [|d - 0.01 * smoothstep(0.15, 0.0, d)|], which is below [d] when
    [d < 0.15]; a particle within 0.005 of the goal, or 0.15 or more away
    from it, stays where it is. *)
Theorem approach_never_recedes (pos goal : vec2) :
  let d := length (sub goal pos) in
  let d' := length (sub goal (approach pos goal)) in
  d' <= d /\
  (0.005 < d -> d' = Rabs (d - 0.01 * smoothstep 0.15 0.0 d)) /\
  (0.005 < d < 0.15 -> d' < d) /\
  (d <= 0.005 \/ 0.15 <= d -> approach pos goal = pos).
Proof.
  intros d d'.
  pose proof (smoothstep_range 0.15 0.0 d) as [K0 K1].
  assert (d <= 0.005 -> approach pos goal = pos) as Near.
  { intros H. unfold approach. fold d. rewrite decide_False by lra. reflexivity. }
  assert (0.005 < d -> d' = Rabs (d - 0.01 * smoothstep 0.15 0.0 d)) as Far.
  { intros H. exact (approach_rest pos goal H). }
  split; [| split; [exact Far | split]].
  - destruct (Rle_or_lt d 0.005) as [H | H].
    + unfold d'. rewrite (Near H). fold d. lra.
    + rewrite (Far H). unfold Rabs. destruct (Rcase_abs _); lra.
  - intros [H0 H1]. rewrite (Far H0).
    pose proof (falloff_positive d) as P. specialize (P ltac:(lra)).
    unfold Rabs. destruct (Rcase_abs _); lra.
  - intros [H | H]; [exact (Near H) |].
    unfold approach. fold d. rewrite decide_True by lra.
    rewrite (falloff_outside d H). destruct pos as [x y].
    unfold add, scale. cbn [fst snd]. f_equal; ring.
Qed.

End SimulationProofs.

(** ** The shaders of the particle material *)
Module MaterialProofs.

Import NumberFacts GLSL MorphingParticles ParticlesSpec ShaderProofs.
Import ParticleMaterial SimulationProofs.

(** [smoothstep(0.5, 0.4, dist)], the soft edge of a point: 1 up to 0.4. *)
Lemma edge_inside (dist : R) : dist <= 0.4 -> smoothstep 0.5 0.4 dist = 1.
Proof.
  intros H. unfold smoothstep. rewrite clamp01_high; [ring |].
  assert (0.4 - 0.5 = - (1 / 10)) as -> by lra.
  assert ((dist - 0.5) / - (1 / 10) = (0.5 - dist) * 10) as -> by (field; lra).
  lra.
Qed.

(** [smoothstep(0.15, 0.001, d)], the closeness the simulation stores in
    the velocity channel. *)
Lemma closeness_near (d : R) : d <= 0.001 -> smoothstep 0.15 0.001 d = 1.
Proof.
  intros H. unfold smoothstep. rewrite clamp01_high; [ring |].
  assert (0.001 - 0.15 = - (149 / 1000)) as -> by lra.
  assert ((d - 0.15) / - (149 / 1000) = (0.15 - d) * (1000 / 149)) as ->
    by (field; lra).
  lra.
Qed.

Lemma closeness_far (d : R) : 0.15 <= d -> smoothstep 0.15 0.001 d = 0.
Proof.
  intros H. unfold smoothstep. rewrite clamp01_low; [ring |].
  assert (0.001 - 0.15 = - (149 / 1000)) as -> by lra.
  assert ((d - 0.15) / - (149 / 1000) = (0.15 - d) * (1000 / 149)) as ->
    by (field; lra).
  lra.
Qed.

Lemma shape_low (v : R) : v <= 0.1 -> smoothstep 0.1 0.5 v = 0.
Proof. intros H. apply smoothstep_below; lra. Qed.

Lemma shape_high (v : R) : 0.5 <= v -> smoothstep 0.1 0.5 v = 1.
Proof. intros H. apply smoothstep_above; lra. Qed.

(** The alpha the fragment shader writes where it does not discard. *)
Lemma fragment_alpha (uColor1 uColor2 : vec3) (uIsHovering vScale vVelocity : R)
    (gl_PointCoord : vec2) (c : vec4) :
  fragmentMain uColor1 uColor2 uIsHovering vScale vVelocity gl_PointCoord = Some c ->
  length (sub gl_PointCoord (0.5, 0.5)) <= 0.5 /\
  c = Vec4 (mix (red uColor2) (red uColor1) vVelocity)
           (mix (green uColor2) (green uColor1) vVelocity)
           (mix (blue uColor2) (blue uColor1) vVelocity)
           (smoothstep 0.5 0.4 (length (sub gl_PointCoord (0.5, 0.5))) * vScale * 0.9 *
            (0.3 + 0.7 * smoothstep 0.1 0.5 vVelocity * uIsHovering)).
Proof.
  unfold fragmentMain. intros E.
  destruct (decide (0.5 < _)) as [| N]; [discriminate |].
  split; [lra |]. injection E as <-. unfold mix3, mix. cbn [red green blue].
  f_equal. lra.
Qed.

Lemma alpha_bounds (e vScale k h : R) :
  0 <= e <= 1 -> 0 <= vScale <= 1 -> 0 <= k <= 1 -> 0 <= h <= 1 ->
  0 <= e * vScale * 0.9 * (0.3 + 0.7 * k * h) <= 0.9 * vScale.
Proof.
  intros He Hs Hk Hh.
  assert (0 <= k * h <= 1) as Hkh by nra.
  assert (0 <= e * vScale <= vScale) as Hev by nra.
  assert (e * vScale * 0.9 * (0.3 + 0.7 * k * h)
          = (e * vScale) * (0.9 * (0.3 + 0.7 * (k * h)))) as -> by ring.
  assert (0 <= 0.9 * (0.3 + 0.7 * (k * h)) <= 0.9) by lra.
  split; [apply Rmult_le_pos; lra | nra].
Qed.

(** Property X16.  The fragment shader discards exactly the fragments
    farther than 0.5 from the centre of the point.  For a scale and a
    hover value between 0 and 1 the alpha it writes lies between 0 and
    [0.9 * vScale]; it does not depend on the hover value for a particle
    of velocity 0.1 or less, and within 0.4 of the centre of a particle of
    velocity 0.5 or more it is [vScale * 0.9 * (0.3 + 0.7 * uIsHovering)]. *)
Theorem fragment_alpha_range (uColor1 uColor2 : vec3)
    (uIsHovering vScale vVelocity : R) (gl_PointCoord : vec2) :
  0 <= uIsHovering <= 1 -> 0 <= vScale <= 1 ->
  let dist := length (sub gl_PointCoord (0.5, 0.5)) in
  let out := fragmentMain uColor1 uColor2 uIsHovering vScale vVelocity gl_PointCoord in
  (out = None <-> 0.5 < dist) /\
  forall c : vec4, out = Some c ->
    0 <= pw c <= 0.9 * vScale /\
    (uIsHovering = 0 \/ vVelocity <= 0.1 ->
     pw c = smoothstep 0.5 0.4 dist * vScale * 0.27) /\
    (dist <= 0.4 -> 0.5 <= vVelocity ->
     pw c = vScale * 0.9 * (0.3 + 0.7 * uIsHovering)).
Proof.
  intros Hh Hs dist out. split.
  - unfold out, fragmentMain. fold dist.
    destruct (decide (0.5 < dist)); split; try tauto; discriminate.
  - intros c E. apply fragment_alpha in E as [Hd ->]. fold dist. cbn [pw].
    pose proof (smoothstep_range 0.5 0.4 dist) as [E0 E1].
    pose proof (smoothstep_range 0.1 0.5 vVelocity) as [S0 S1].
    set (e := smoothstep 0.5 0.4 dist) in *.
    set (k := smoothstep 0.1 0.5 vVelocity) in *.
    split; [| split].
    + apply alpha_bounds; lra.
    + intros [-> | Hv].
      * lra.
      * unfold k. rewrite (shape_low vVelocity Hv). lra.
    + intros Hin Hv. unfold e, k.
      rewrite (edge_inside dist Hin), (shape_high vVelocity Hv). lra.
Qed.

(** Property X17.  The colour follows the closeness the simulation
    writes: a particle 0.15 or more away from its goal, or any particle
    while the hover value is 0, is drawn in [uColor2] with the base alpha;
    at hover value 1 a particle within 0.001 of its goal is drawn in
    [uColor1] with full alpha.  The scale is the one the simulation pass
    has just written. *)
Theorem shape_particles_turn_blue (uv : vec2) (pos : vec4)
    (refPos nearestPos : vec2) (uTime uIsHovering : R)
    (uColor1 uColor2 : vec3) (gl_PointCoord : vec2) (c : vec4) :
  let out := simulate uv pos refPos nearestPos uTime uIsHovering in
  let d := length (sub (mix2 refPos nearestPos (uIsHovering * uIsHovering)) (xy pos)) in
  let edge := smoothstep 0.5 0.4 (length (sub gl_PointCoord (0.5, 0.5))) in
  fragmentMain uColor1 uColor2 uIsHovering (pz out) (pw out) gl_PointCoord = Some c ->
  (uIsHovering = 0 \/ 0.15 <= d ->
   Vec3 (px c) (py c) (pz c) = uColor2 /\ pw c = edge * pz out * 0.27) /\
  (uIsHovering = 1 -> d <= 0.001 ->
   Vec3 (px c) (py c) (pz c) = uColor1 /\ pw c = edge * pz out * 0.9).
Proof.
  intros out d edge E. apply fragment_alpha in E as [_ ->]. fold edge.
  assert (pw out = smoothstep 0.15 0.001 d * uIsHovering) as Ew.
  { unfold out, simulate. destruct (decide (lifeTime uv uTime < 0.01)); reflexivity. }
  cbn [px py pz pw]. split.
  - intros H.
    assert (pw out = 0) as Ev.
    { rewrite Ew. destruct H as [-> | H]; [ring |].
      rewrite (closeness_far d H). ring. }
    rewrite Ev. rewrite (shape_low 0) by lra. unfold mix.
    split; [destruct uColor2; cbn [red green blue]; f_equal; ring |].
    generalize (edge * pz out). intros a. lra.
  - intros Hh Hd.
    assert (pw out = 1) as Ev.
    { rewrite Ew, Hh, (closeness_near d Hd). ring. }
    rewrite Ev, Hh. rewrite (shape_high 1) by lra. unfold mix.
    split; [destruct uColor1; cbn [red green blue]; f_equal; ring |].
    generalize (edge * pz out). intros a. lra.
Qed.

Section VertexShader.

Variable snoise : R * R * R -> R.

(** Property X18.  The vertex shader hands on the scale and the velocity
    of the particle's texel unchanged.  For a scale between 0 and 1, a
    positive device pixel ratio and a particle scale that is not negative,
    [gl_PointSize] lies between [0.45 * uPixelRatio] and
    [(3.15 * uParticleScale + 0.45) * uPixelRatio], with [uPixelRatio] at
    most 2.  While the hover value is 0, or for a particle of velocity 0,
    the position is the texel's position moved by the slow noise only. *)
Theorem vertex_point (uPosition : texture)
    (uTime uParticleScale devicePixelRatio uIsHovering : R) (uv : vec2) :
  0 < devicePixelRatio -> 0 <= uParticleScale ->
  let uPixelRatio := pixelRatio devicePixelRatio in
  let posData := texture2D (Z.of_nat size) uPosition uv in
  let v := vertexMain snoise uPosition uTime uParticleScale uPixelRatio uIsHovering uv in
  0 <= pz posData <= 1 ->
  (vScale v = pz posData /\ vVelocity v = pw posData) /\
  0 < uPixelRatio <= 2 /\
  0.45 * uPixelRatio <= gl_PointSize v
    <= (3.15 * uParticleScale + 0.45) * uPixelRatio /\
  (uIsHovering = 0 \/ pw posData = 0 ->
   displaced v =
   (px posData
      + snoise (px posData * 0.5, py posData * 0.5, uTime * 0.15 + 45.0) * 0.02,
    py posData
      + snoise (px posData * 0.5, py posData * 0.5, uTime * 0.15 + 87.0) * 0.02)).
Proof.
  intros Hd Hp uPixelRatio posData v Hz.
  assert (0 < uPixelRatio <= 2) as Hr.
  { unfold uPixelRatio, pixelRatio, Math.min, Rmin. destruct (Rle_dec _ _); lra. }
  split; [split; reflexivity |]. split; [exact Hr |]. split.
  - unfold v, vertexMain. cbn [gl_PointSize]. fold posData.
    set (z := pz posData) in *.
    assert (0 <= z * uParticleScale <= uParticleScale) by nra.
    assert (0 <= z * uParticleScale * uPixelRatio <= uParticleScale * uPixelRatio) by nra.
    lra.
  - intros H. unfold v, vertexMain. cbn [displaced]. fold posData.
    assert (mix 0.0 (smoothstep 0.0 0.9 (pw posData)) uIsHovering = 0) as ->.
    { unfold mix. destruct H as [-> | ->]; [lra |].
      rewrite smoothstep_below by lra. lra. }
    unfold xy. cbn [fst snd]. f_equal; ring.
Qed.

End VertexShader.

Lemma centre_length : length (sub (0.5, 0.5) (0.5, 0.5)) = 0.
Proof.
  unfold length, dot, sub. cbn [fst snd].
  replace ((0.5 - 0.5) * (0.5 - 0.5) + (0.5 - 0.5) * (0.5 - 0.5)) with 0 by lra.
  apply sqrt_0.
Qed.

Lemma centre_fragment (uColor1 uColor2 : vec3) (uIsHovering vScale vVelocity : R) :
  exists c, fragmentMain uColor1 uColor2 uIsHovering vScale vVelocity (0.5, 0.5) = Some c.
Proof.
  unfold fragmentMain. rewrite centre_length.
  rewrite decide_False by lra. eexists. reflexivity.
Qed.

Lemma fragment_alpha_range_witness :
  let out := fragmentMain (Vec3 0 0.4 1) (Vec3 0.6 0.6 0.6) (1 / 2) 1 1 (0.5, 0.5) in
  (out = None <-> 0.5 < length (sub (0.5, 0.5) (0.5, 0.5))) /\
  forall c : vec4, out = Some c -> 0 <= pw c <= 0.9 * 1.
Proof.
  intros out.
  destruct (fragment_alpha_range (Vec3 0 0.4 1) (Vec3 0.6 0.6 0.6) (1 / 2) 1 1 (0.5, 0.5))
    as [Hn Hc]; [lra | lra |].
  split; [exact Hn |]. intros c E. exact (proj1 (Hc c E)).
Defined.

Lemma at_goal : length (sub (mix2 (0, 0) (0, 0) (1 * 1)) (xy (Vec4 0 0 (1 / 2) 0))) <= 0.001.
Proof.
  assert (sub (mix2 (0, 0) (0, 0) (1 * 1)) (xy (Vec4 0 0 (1 / 2) 0)) = sub (0, 0) (0, 0))
    as -> by (unfold mix2, sub, xy; cbn [fst snd px py]; f_equal; unfold mix; lra).
  rewrite length_x by lra. lra.
Qed.

Lemma shape_particles_turn_blue_witness :
  let out := simulate (0, 0) (Vec4 0 0 (1 / 2) 0) (0, 0) (0, 0) 0 1 in
  exists c : vec4,
    fragmentMain (Vec3 0 0.4 1) (Vec3 0.6 0.6 0.6) 1 (pz out) (pw out) (0.5, 0.5) = Some c /\
    Vec3 (px c) (py c) (pz c) = Vec3 0 0.4 1.
Proof.
  intros out.
  destruct (centre_fragment (Vec3 0 0.4 1) (Vec3 0.6 0.6 0.6) 1 (pz out) (pw out))
    as [c E].
  exists c. split; [exact E |].
  destruct (shape_particles_turn_blue (0, 0) (Vec4 0 0 (1 / 2) 0) (0, 0) (0, 0) 0 1
              (Vec3 0 0.4 1) (Vec3 0.6 0.6 0.6) (0.5, 0.5) c E) as [_ Hblue].
  exact (proj1 (Hblue eq_refl at_goal)).
Defined.

Lemma vertex_point_witness :
  let v := vertexMain (fun _ => 0) blank 0 1 (pixelRatio 3) 0 (0, 0) in
  0 < pixelRatio 3 <= 2 /\
  0.45 * pixelRatio 3 <= gl_PointSize v <= (3.15 * 1 + 0.45) * pixelRatio 3.
Proof.
  intros v.
  destruct (vertex_point (fun _ => 0) blank 0 1 3 0 (0, 0)) as (_ & Hr & Hs & _).
  - lra.
  - lra.
  - unfold texture2D, blank. cbn [pz]. lra.
  - split; [exact Hr | exact Hs].
Defined.

End MaterialProofs.

(** ** Frames and events *)
Module SessionProofs.

Import NumberFacts GLSL MorphingParticles ParticlesSpec ShaderProofs FrameProofs.
Import ParticleMaterial Page SessionSpec MaterialProofs.

Lemma passesOf_S (n : nat) :
  passesOf (S n) = passesOf n ++ [simPassOf n; drawPassOf n].
Proof.
  unfold passesOf. rewrite seq_S, flat_map_app. simpl. reflexivity.
Qed.

Lemma Fresh_Steady (s : app) : Fresh s -> Steady 0 s.
Proof.
  intros F. split.
  - exact (fresh_rt1 s F).
  - exact (fresh_rt2 s F).
  - exact (fresh_refs s F).
  - exact (fresh_nearest s F).
  - rewrite (fresh_hover s F). lra.
  - intros t i j. rewrite (fresh_contents s F). simpl. lra.
  - exact (fresh_passes s F).
  - rewrite (fresh_time s F). simpl. lra.
  - intros H. lia.
Qed.

Lemma animate_Steady (n : nat) (s : app) : Steady n s -> Steady (S n) (animate s).
Proof.
  intros St. destruct (animate_rt s) as [E1 E2].
  assert (0 <= hoverProgress (animate s) <= 1) as Hh.
  { rewrite animate_hoverProgress. pose proof (steady_hover n s St).
    destruct (isHovering s); lra. }
  split.
  - rewrite E1, read_after_write. exact (steady_rt2 n s St).
  - rewrite E2, write_after_read. exact (steady_rt1 n s St).
  - exact (steady_refs n s St).
  - exact (steady_nearest n s St).
  - exact Hh.
  - intros t i j. rewrite animate_contents. destruct (decide _) as [_ | _].
    + unfold simPass, simFragment. apply simulate_range; [| exact Hh].
      unfold texture2D. apply (steady_range n s St).
    + apply (steady_range n s St).
  - rewrite animate_passes, (steady_passes n s St), (steady_rt1 n s St),
      (steady_rt2 n s St), passesOf_S. reflexivity.
  - change (time (animate s)) with (time s + 0.016).
    rewrite (steady_time n s St), S_INR. lra.
  - intros _. repeat split.
Qed.

Lemma setHovering_Steady (n : nat) (b : bool) (s : app) :
  Steady n s -> Steady n (setHovering b s).
Proof. intros []. split; assumption. Qed.

Lemma setWidth_Steady (n : nat) (w : R) (s : app) :
  Steady n s -> Steady n (setWidth w s).
Proof. intros []. split; assumption. Qed.

Lemma handle_Steady (n : nat) (innerWidth : R) (e : event) (v : particles) :
  Steady n (sim v) -> Steady n (sim (handle innerWidth e v)).
Proof.
  intros St. destruct e; simpl.
  - exact St.
  - destruct (negb _); [apply setHovering_Steady |]; exact St.
  - destruct (negb _); [apply setHovering_Steady |]; exact St.
  - destruct (isMobileOrTablet _); [apply setHovering_Steady |]; exact St.
  - destruct (isMobileOrTablet _); [apply setHovering_Steady |]; exact St.
  - apply setWidth_Steady. exact St.
  - destruct (timer v); [apply setHovering_Steady |]; exact St.
Qed.

Lemma session_Steady (l : list action) (n : nat) (v : particles) :
  Steady n (sim v) -> Steady (n + frameCount l) (sim (session l v)).
Proof.
  revert n v. induction l as [| a l IH]; intros n v St.
  - simpl. rewrite Nat.add_0_r. exact St.
  - destruct a as [| w e]; simpl.
    + replace (n + S (frameCount l))%nat with (S n + frameCount l)%nat by lia.
      apply IH. apply animate_Steady. exact St.
    + apply IH. apply handle_Steady. exact St.
Qed.

Lemma handle_textures (innerWidth : R) (e : event) (v : particles) :
  positionTexture (sim (handle innerWidth e v)) = positionTexture (sim v) /\
  targetTexture (sim (handle innerWidth e v)) = targetTexture (sim v) /\
  baseTexture (sim (handle innerWidth e v)) = baseTexture (sim v) /\
  hoverProgress (sim (handle innerWidth e v)) = hoverProgress (sim v).
Proof.
  destruct e; simpl; try (repeat split; fail).
  - destruct (negb _); repeat split.
  - destruct (negb _); repeat split.
  - destruct (isMobileOrTablet _); repeat split.
  - destruct (isMobileOrTablet _); repeat split.
  - destruct (timer v); repeat split.
Qed.

Lemma session_textures (l : list action) (v : particles) :
  positionTexture (sim (session l v)) = positionTexture (sim v) /\
  targetTexture (sim (session l v)) = targetTexture (sim v) /\
  baseTexture (sim (session l v)) = baseTexture (sim v).
Proof.
  revert v. induction l as [| a l IH]; intros v; [repeat split |].
  simpl. destruct (IH (act v a)) as (-> & -> & ->).
  destruct a as [| w e]; simpl; [repeat split |].
  destruct (handle_textures w e v) as (-> & -> & -> & _). repeat split.
Qed.

Lemma session_frames (n : nat) (v : particles) :
  sim (session (replicate n Frame) v) = Nat.iter n animate (sim v).
Proof.
  revert v. induction n as [| n IH]; intros v; [reflexivity |].
  simpl replicate. simpl session. unfold session in IH. rewrite IH.
  simpl. clear IH. induction n as [| n IH]; [reflexivity |].
  simpl. rewrite <- IH. reflexivity.
Qed.

Lemma release_closed_form (n : nat) (s : app) :
  isHovering s = false ->
  isHovering (Nat.iter n animate s) = false /\
  hoverProgress (Nat.iter n animate s) = hoverProgress s * 0.95 ^ n.
Proof.
  intros H. induction n as [| n [IH1 IH2]]; [split; [exact H | simpl; lra] |].
  simpl Nat.iter. split; [exact IH1 |].
  rewrite animate_hoverProgress, IH1, IH2. simpl. lra.
Qed.

Lemma press_closed_form (n : nat) (s : app) :
  isHovering s = true ->
  isHovering (Nat.iter n animate s) = true /\
  hoverProgress (Nat.iter n animate s) = 1 - (1 - hoverProgress s) * 0.95 ^ n.
Proof.
  intros H. induction n as [| n [IH1 IH2]]; [split; [exact H | simpl; lra] |].
  simpl Nat.iter. split; [exact IH1 |].
  rewrite animate_hoverProgress, IH1, IH2. simpl. lra.
Qed.

Lemma pow095_limit : Un_cv (fun n => 0.95 ^ n) 0.
Proof.
  intros eps Heps.
  destruct (pow_lt_1_zero 0.95) with (y := eps) as [N HN].
  - rewrite Rabs_pos_eq; lra.
  - exact Heps.
  - exists N. intros n Hn. unfold Rdist. rewrite Rminus_0_r. apply HN. exact Hn.
Qed.

(** Property X19.  Whatever events arrive between the frames, the frame
    loop keeps its course: after a session with [n] frames, started from
    the object [createSimulation] and [createParticles] leave behind,
    [renderer.render] was called exactly as in [n] undisturbed frames, the
    two render targets have the roles of frame [n], the clock stands at
    [0.016 * n], and the three data textures are the ones created. *)
Theorem session_keeps_course (random : nat -> R) (width : R)
    (basePoints targetPoints : list point) (draws : nat)
    (v : particles) (l : list action) :
  createSimulation random width basePoints targetPoints draws = Some (sim v) ->
  let n := frameCount l in
  let s := sim (session l v) in
  passes s = passesOf n /\
  List.length (passes s) = (2 * n)%nat /\
  rt1 s = readTarget n /\ rt2 s = writeTarget n /\
  time s = 0.016 * INR n /\
  positionTexture s = positionTexture (sim v) /\
  targetTexture s = targetTexture (sim v) /\
  baseTexture s = baseTexture (sim v).
Proof.
  intros E n s.
  pose proof (createSimulation_Fresh _ _ _ _ _ _ E) as F.
  pose proof (session_Steady l 0 v (Fresh_Steady _ F)) as St.
  simpl in St. fold n s in St.
  destruct (session_textures l v) as (Ep & Et & Eb).
  split; [exact (steady_passes n s St) |]. split.
  { rewrite (steady_passes n s St). clear. induction n as [| n IH]; [reflexivity |].
    rewrite passesOf_S, length_app, IH. simpl. lia. }
  split; [exact (steady_rt1 n s St) |]. split; [exact (steady_rt2 n s St) |].
  split; [exact (steady_time n s St) |].
  split; [exact Ep |]. split; [exact Et | exact Eb].
Qed.

Section Drawing.

Variable snoise : R * R * R -> R.

(** Property X20.  Whatever events arrive between the frames, once a
    frame has run the hover value lies between 0 and 1, and every particle
    is drawn with a scale and a velocity between 0 and 1, read from the
    render target the last simulation pass wrote; no fragment of it has an
    alpha above 0.9. *)
Theorem session_draws_in_range (random : nat -> R) (width : R)
    (basePoints targetPoints : list point) (draws : nat)
    (v : particles) (l : list action)
    (uPixelRatio : R) (uColor1 uColor2 : vec3) (i : nat) (gl_PointCoord : vec2) :
  createSimulation random width basePoints targetPoints draws = Some (sim v) ->
  (1 <= frameCount l)%nat ->
  let s := sim (session l v) in
  let vertex := drawVertex snoise uPixelRatio s i in
  0 <= hoverProgress s <= 1 /\
  render_uPosition (renderMaterial s) = RenderTexture (writeTarget (frameCount l - 1)) /\
  0 <= vScale vertex <= 1 /\ 0 <= vVelocity vertex <= 1 /\
  forall c : vec4,
    drawFragment uColor1 uColor2 s vertex gl_PointCoord = Some c ->
    0 <= pw c <= 0.9.
Proof.
  intros Ec Hn s vertex.
  pose proof (createSimulation_Fresh _ _ _ _ _ _ Ec) as F.
  pose proof (session_Steady l 0 v (Fresh_Steady _ F)) as St.
  simpl in St. fold s in St.
  destruct (steady_draw _ s St Hn) as (Ep & Eh & _).
  pose proof (steady_hover _ s St) as Hh.
  assert (0 <= vScale vertex <= 1 /\ 0 <= vVelocity vertex <= 1) as [Hs Hv].
  { unfold vertex, drawVertex, vertexMain. cbn [vScale vVelocity].
    rewrite Ep. unfold texture2D. cbn [texels]. apply (steady_range _ s St). }
  split; [exact Hh |]. split.
  { rewrite Ep, (steady_rt1 _ s St).
    destruct (frameCount l) as [| k]; [lia |].
    rewrite read_after_write. do 2 f_equal. lia. }
  split; [exact Hs |]. split; [exact Hv |].
  intros c E. unfold drawFragment in E. rewrite Eh in E.
  apply fragment_alpha in E as [_ ->]. cbn [pw].
  pose proof (alpha_bounds (smoothstep 0.5 0.4 (length (sub gl_PointCoord (0.5, 0.5))))
                (vScale vertex) (smoothstep 0.1 0.5 (vVelocity vertex))
                (hoverProgress s) (smoothstep_range _ _ _) Hs
                (smoothstep_range _ _ _) Hh) as [H0 H1].
  lra.
Qed.

End Drawing.

(** Property X21.  On a window wider than 768, [mouseenter] followed by
    [n] frames takes the hover value from [h] to [1 - (1 - h) * 0.95 ^ n],
    and [mouseleave] followed by [n] frames takes it to [h * 0.95 ^ n],
    which tends to 0. *)
Theorem hover_follows_pointer (v : particles) (innerWidth : R) :
  768 < innerWidth ->
  let h := hoverProgress (sim v) in
  let entered := fun n =>
    hoverProgress (sim (session (Event innerWidth MouseEnter :: replicate n Frame) v)) in
  let left := fun n =>
    hoverProgress (sim (session (Event innerWidth MouseLeave :: replicate n Frame) v)) in
  (forall n, entered n = 1 - (1 - h) * 0.95 ^ n) /\
  (forall n, left n = h * 0.95 ^ n) /\
  Un_cv left 0.
Proof.
  intros Hw h entered left.
  assert (isMobileOrTablet innerWidth = false) as Em.
  { unfold isMobileOrTablet. apply bool_decide_eq_false_2. lra. }
  assert (forall n, entered n = 1 - (1 - h) * 0.95 ^ n) as He.
  { intros n. unfold entered. change (session (?a :: ?l) v) with (session l (act v a)).
    rewrite session_frames. simpl act. rewrite Em. simpl negb. cbv iota.
    apply press_closed_form. reflexivity. }
  assert (forall n, left n = h * 0.95 ^ n) as Hl.
  { intros n. unfold left. change (session (?a :: ?l) v) with (session l (act v a)).
    rewrite session_frames. simpl act. rewrite Em. simpl negb. cbv iota.
    apply release_closed_form. reflexivity. }
  split; [exact He |]. split; [exact Hl |].
  intros eps Heps.
  destruct (Req_dec h 0) as [Hz | Hz].
  - exists 0%nat. intros n _. rewrite Hl, Hz. unfold Rdist.
    rewrite Rmult_0_l, Rminus_0_r, Rabs_R0. exact Heps.
  - assert (0 < Rabs h) as Ha by (apply Rabs_pos_lt; exact Hz).
    destruct (pow095_limit (eps / Rabs h)) as [N HN].
    { apply Rdiv_lt_0_compat; assumption. }
    exists N. intros n Hn. specialize (HN n Hn). unfold Rdist in *.
    rewrite Rminus_0_r in *. rewrite Hl, Rabs_mult.
    apply Rmult_lt_compat_l with (r := Rabs h) in HN; [| exact Ha].
    replace (Rabs h * (eps / Rabs h)) with eps in HN by (field; lra).
    exact HN.
Qed.

(** Property X22.  The two modes of the handlers do not mix.  On a window
    wider than 768 [click] and [touchend] change nothing and [mouseenter]
    and [mouseleave] set and clear the flag; on a window of width 768 or
    less [mouseenter] and [mouseleave] change nothing, [click] and
    [touchend] flip the flag, and two of them in a row restore the
    object. *)
Theorem pointer_and_touch_modes (v : particles) (innerWidth : R) :
  (768 < innerWidth ->
   handle innerWidth Click v = v /\ handle innerWidth TouchEnd v = v /\
   isHovering (sim (handle innerWidth MouseEnter v)) = true /\
   isHovering (sim (handle innerWidth MouseLeave v)) = false) /\
  (innerWidth <= 768 ->
   handle innerWidth MouseEnter v = v /\ handle innerWidth MouseLeave v = v /\
   isHovering (sim (handle innerWidth Click v)) = negb (isHovering (sim v)) /\
   isHovering (sim (handle innerWidth TouchEnd v)) = negb (isHovering (sim v)) /\
   handle innerWidth Click (handle innerWidth Click v) = v /\
   handle innerWidth TouchEnd (handle innerWidth Click v) = v).
Proof.
  split; intros Hw.
  - assert (isMobileOrTablet innerWidth = false) as Em.
    { unfold isMobileOrTablet. apply bool_decide_eq_false_2. lra. }
    simpl. rewrite Em. simpl. repeat split.
  - assert (isMobileOrTablet innerWidth = true) as Em.
    { unfold isMobileOrTablet. apply bool_decide_eq_true_2. exact Hw. }
    unfold handle. rewrite !Em. cbn [negb].
    assert (withSim (fun s => setHovering (negb (isHovering s)) s)
              (withSim (fun s => setHovering (negb (isHovering s)) s) v) = v) as Twice.
    { destruct v as [s h pc bp tp mp tm]. destruct s.
      unfold withSim, setHovering. simpl. rewrite negb_involutive. reflexivity. }
    repeat split; exact Twice.
Qed.

Lemma createSimulation_idle (random : nat -> R) (width : R)
    (basePoints targetPoints : list point) (draws : nat) (s : app) :
  createSimulation random width basePoints targetPoints draws = Some s ->
  isHovering s = false.
Proof.
  unfold createSimulation. intros E.
  repeat (destruct (createDataTexture _ _ _ _ _ _) as [[? ?] |]; [| discriminate]).
  injection E as <-. reflexivity.
Qed.

Lemma empty_app :
  exists s0, createSimulation (fun _ => 0) 1000 [] [] 0 = Some s0 /\ Fresh s0.
Proof.
  eexists. split; [reflexivity |].
  apply (createSimulation_Fresh (fun _ => 0) 1000 [] [] 0). reflexivity.
Qed.

Lemma session_keeps_course_witness :
  exists s0, createSimulation (fun _ => 0) 1000 [] [] 0 = Some s0 /\
    let s := sim (session [Frame; Event 1024 MouseEnter; Event 1024 (Resize 800 600 700); Frame]
                          (around s0 600 [] [] false)) in
    passes s = passesOf 2 /\ rt1 s = TargetA /\ rt2 s = TargetB.
Proof.
  destruct empty_app as (s0 & E & F). exists s0. split; [exact E |].
  intros s.
  destruct (session_keeps_course (fun _ => 0) 1000 [] [] 0 (around s0 600 [] [] false)
              [Frame; Event 1024 MouseEnter; Event 1024 (Resize 800 600 700); Frame] E)
    as (Hp & _ & H1 & H2 & _).
  split; [exact Hp |]. split; [exact H1 | exact H2].
Defined.

Lemma session_draws_in_range_witness :
  exists s0, createSimulation (fun _ => 0) 1000 [] [] 0 = Some s0 /\
    let s := sim (session [Event 1024 MouseEnter; Frame] (around s0 600 [] [] false)) in
    0 <= hoverProgress s <= 1 /\
    0 <= vScale (drawVertex (fun _ => 0) 2 s 0) <= 1.
Proof.
  destruct empty_app as (s0 & E & F). exists s0. split; [exact E |].
  intros s.
  destruct (session_draws_in_range (fun _ => 0) (fun _ => 0) 1000 [] [] 0
              (around s0 600 [] [] false)
              [Event 1024 MouseEnter; Frame] 2 (Vec3 0 0.4 1) (Vec3 0.6 0.6 0.6)
              0 (0.5, 0.5) E) as (Hh & _ & Hs & _).
  - simpl. lia.
  - split; [exact Hh | exact Hs].
Defined.

Lemma hover_follows_pointer_witness :
  exists s0, createSimulation (fun _ => 0) 1000 [] [] 0 = Some s0 /\
    hoverProgress
      (sim (session (Event 1024 MouseEnter :: replicate 3 Frame)
                    (around s0 600 [] [] false)))
    = 1 - (1 - 0) * 0.95 ^ 3.
Proof.
  destruct empty_app as (s0 & E & F). exists s0. split; [exact E |].
  destruct (hover_follows_pointer (around s0 600 [] [] false) 1024) as (He & _).
  - lra.
  - rewrite (He 3%nat). simpl. rewrite (fresh_hover s0 F). reflexivity.
Defined.

End SessionProofs.

(** ** [init] *)
Module InitProofs.

Import NumberFacts PoissonDiskSampling SamplerSpec SamplerProofs.
Import GLSL MorphingParticles ParticlesSpec FrameProofs MapperProofs TextureProofs.
Import Page SessionSpec FillProofs ImageProofs DataTextureProofs SessionProofs.

Section Init.

Variable random : nat -> R.
Hypothesis random_range : forall n, 0 <= random n < 1.

(** The texels [createSimulation] writes for the particles. *)
Lemma createDataTexture_texels (particleCount : nat)
    (basePoints targetPoints : list point) (isTarget : bool) (draws : nat)
    (data : list R) (draws' : nat) :
  (particleCount <= size * size)%nat ->
  createDataTexture random particleCount basePoints targetPoints isTarget draws
    = Some (data, draws') ->
  draws' = (draws + particleCount)%nat /\
  forall i, (i < particleCount)%nat ->
    exists p,
      (if isTarget then targetPoints else basePoints) !! i = Some p /\
      texture2D (Z.of_nat size) (dataTexture data) (particleUV i)
        = Vec4 ((fst p - 250) / 250) ((snd p - 250) / 250) (random (draws + i)%nat) 0.
Proof.
  intros Hc E.
  assert (particleCount <= List.length (if isTarget then targetPoints else basePoints))%nat
    as Hl.
  { destruct (Nat.le_gt_cases particleCount
                (List.length (if isTarget then targetPoints else basePoints)))
      as [H | H]; [exact H |].
    unfold createDataTexture in E.
    apply (dataLoop_None random particleCount 0 _
             (replicate (size * size * 4) 0) draws) in H; [| lia].
    rewrite H in E. discriminate. }
  unfold createDataTexture in E.
  destruct (dataLoop_spec random particleCount 0
              (if isTarget then targetPoints else basePoints)
              (replicate (size * size * 4) 0) draws) as (data' & E' & _ & _ & W).
  { exact Hl. }
  { rewrite length_replicate. lia. }
  rewrite E' in E. injection E as <- <-. split; [reflexivity |].
  intros i Hi. destruct (W i) as (p & Hp & W0 & W1 & W2 & W3); [lia |].
  exists p. split; [exact Hp |].
  rewrite Nat.sub_0_r in W2.
  apply dataTexture_particle; [lia | assumption ..].
Qed.

Lemma createSimulation_succeeds (width : R) (basePoints targetPoints : list point)
    (draws : nat) :
  (List.length basePoints <= List.length targetPoints)%nat ->
  exists s0, createSimulation random width basePoints targetPoints draws = Some s0.
Proof.
  intros Hl. unfold createSimulation.
  assert (forall isTarget d,
            exists r, createDataTexture random (List.length basePoints) basePoints
                        targetPoints isTarget d = Some r) as Ok.
  { intros isTarget d.
    destruct (createDataTexture random _ basePoints targetPoints isTarget d) as [r |] eqn:E;
      [eauto |].
    unfold createDataTexture in E. apply dataLoop_None in E; [| lia].
    destruct isTarget; simpl in E; lia. }
  destruct (Ok false draws) as [[d1 n1] ->].
  destruct (Ok true n1) as [[d2 n2] ->].
  destruct (Ok false n2) as [[d3 n3] ->].
  eexists. reflexivity.
Qed.

Lemma createSimulation_fields (width : R) (basePoints targetPoints : list point)
    (draws : nat) (s0 : app) :
  (List.length basePoints <= size * size)%nat ->
  createSimulation random width basePoints targetPoints draws = Some s0 ->
  MorphingParticles.width s0 = width /\ isHovering s0 = false /\
  forall i, (i < List.length basePoints)%nat ->
    exists b t,
      basePoints !! i = Some b /\ targetPoints !! i = Some t /\
      texture2D (Z.of_nat size) (dataTexture (baseTexture s0)) (particleUV i)
        = Vec4 ((fst b - 250) / 250) ((snd b - 250) / 250)
               (random (draws + 2 * List.length basePoints + i)%nat) 0 /\
      texture2D (Z.of_nat size) (dataTexture (targetTexture s0)) (particleUV i)
        = Vec4 ((fst t - 250) / 250) ((snd t - 250) / 250)
               (random (draws + List.length basePoints + i)%nat) 0.
Proof.
  intros Hc E. unfold createSimulation in E.
  destruct (createDataTexture random _ basePoints targetPoints false draws)
    as [[d1 n1] |] eqn:E1; [| discriminate].
  destruct (createDataTexture random _ basePoints targetPoints true n1)
    as [[d2 n2] |] eqn:E2; [| discriminate].
  destruct (createDataTexture random _ basePoints targetPoints false n2)
    as [[d3 n3] |] eqn:E3; [| discriminate].
  injection E as <-. cbn [MorphingParticles.width isHovering baseTexture targetTexture].
  split; [reflexivity |]. split; [reflexivity |].
  apply createDataTexture_texels in E1 as [-> _]; [| exact Hc].
  apply createDataTexture_texels in E2 as [-> W2]; [| exact Hc].
  apply createDataTexture_texels in E3 as [_ W3]; [| exact Hc].
  intros i Hi. destruct (W2 i Hi) as (t & Ht & T2). destruct (W3 i Hi) as (b & Hb & T3).
  exists b, t. split; [exact Hb |]. split; [exact Ht |]. split.
  - rewrite T3. do 2 f_equal. lia.
  - exact T2.
Qed.

(** What [init] does, step by step. *)
Lemma init_Completed (fuel : nat) (data : list Z)
    (offsetWidth offsetHeight innerWidth innerHeight : R) (v : particles) :
  init random fuel data offsetWidth offsetHeight innerWidth innerHeight = Completed v ->
  exists s s' s0,
    constructor baseOptions = Some s /\ fill random fuel s = Done s' /\
    createSimulation random (or_number (Some offsetWidth) innerWidth) (points s')
      (createImagePoints data (points s')) (draws s') = Some s0 /\
    v = {| sim := animate s0;
           height := or_number (Some offsetHeight) innerHeight;
           particleCount := List.length (points s');
           basePoints := points s';
           targetPoints := createImagePoints data (points s');
           mousePos := (0, 0);
           timer := bool_decide (innerWidth <= 768) |}.
Proof.
  unfold init, createBasePoints. fold baseOptions.
  destruct (constructor baseOptions) as [s |]; [| discriminate].
  destruct (fill random fuel s) as [s' | |] eqn:F; [| discriminate ..].
  destruct (createSimulation random _ (points s') _ (draws s')) as [s0 |] eqn:E;
    [| discriminate].
  intros H. injection H as <-. exists s, s', s0.
  split; [reflexivity |]. split; [exact F |]. split; [exact E | reflexivity].
Qed.

Lemma base_count (fuel : nat) (s s' : sampler) :
  constructor baseOptions = Some s -> fill random fuel s = Done s' ->
  (1 <= List.length (points s') <= 89 * 89)%nat /\
  forall p, p ∈ points s' -> 0 <= fst p < 500 /\ 0 <= snd p < 500.
Proof.
  intros E F.
  assert (0 < fst (opt_shape baseOptions) /\ 0 < snd (opt_shape baseOptions) /\
          0 < opt_minDistance baseOptions) as (W & H & D) by (simpl; lra).
  destruct (fill_result random random_range baseOptions s s' fuel W H D E F)
    as (I' & S' & _ & _ & _ & [rest Hp] & _).
  destruct baseOptions_constructor as (s1 & E1 & Gw & Gh).
  rewrite E in E1. injection E1 as <-.
  split.
  - split; [rewrite Hp; simpl; lia |].
    pose proof (points_bound s' I') as B. unfold cells in B.
    rewrite (same_gridWidth s s' S'), (same_gridHeight s s' S'), Gw, Gh in B.
    exact B.
  - intros p Hin.
    exact (fill_points_in_domain random baseOptions s s' fuel p random_range
             W H D E F Hin).
Qed.

Lemma target_inside (data : list Z) (b : point) :
  0 <= fst b < 500 /\ 0 <= snd b < 500 ->
  let t := nearestPoint (imagePoints data) b in
  (t = b \/ In t (imagePoints data)) /\ 0 <= fst t < 500 /\ 0 <= snd t < 500.
Proof.
  intros Hb t. unfold t, nearestPoint.
  destruct (nearest_spec b (imagePoints data)) as [[_ E] | (Hin & _)].
  - rewrite E. simpl. split; [now left | exact Hb].
  - split; [now right |].
    apply imagePoints_In in Hin as (x & y & [Hx _] & [Hy _] & -> & _).
    cbn [fst snd]. destruct Hx as [X0 X1], Hy as [Y0 Y1].
    apply IZR_le in X0, Y0. apply IZR_lt in X1, Y1. lra.
Qed.

Lemma init_runs (data : list Z)
    (offsetWidth offsetHeight innerWidth innerHeight : R) (fuel : nat) :
  (2 * 89 * 89 <= fuel)%nat ->
  exists s s' s0,
    constructor baseOptions = Some s /\ fill random fuel s = Done s' /\
    createSimulation random (or_number (Some offsetWidth) innerWidth) (points s')
      (createImagePoints data (points s')) (draws s') = Some s0 /\
    init random fuel data offsetWidth offsetHeight innerWidth innerHeight
    = Completed {| sim := animate s0;
                   height := or_number (Some offsetHeight) innerHeight;
                   particleCount := List.length (points s');
                   basePoints := points s';
                   targetPoints := createImagePoints data (points s');
                   mousePos := (0, 0);
                   timer := bool_decide (innerWidth <= 768) |}.
Proof.
  intros Hf.
  destruct baseOptions_constructor as (s & E & Gw & Gh).
  destruct (constructor_Inv baseOptions s) as (I & _ & _ & P & A);
    [simpl; lra .. | exact E |].
  destruct (fill_terminates_aux random random_range s fuel I P A) as (s' & F & _).
  { unfold cells. rewrite Gw, Gh. exact Hf. }
  destruct (createSimulation_succeeds (or_number (Some offsetWidth) innerWidth)
              (points s') (createImagePoints data (points s')) (draws s'))
    as [s0 E0].
  { rewrite createImagePoints_length. lia. }
  exists s, s', s0. split; [exact E |]. split; [exact F |]. split; [exact E0 |].
  unfold init, createBasePoints. fold baseOptions. rewrite E, F, E0. reflexivity.
Qed.

(** Property X23.  Whatever bytes [loadImage] has read, and whatever the
    sizes of the container and the window, [init] completes when the loop
    of [fill] is given [2 * 89 * 89] rounds: the object is the one
    [createSimulation] builds from the base points and their targets, with
    one frame run; there are between 1 and 89 * 89 particles, one target for each, the widths fall back to the window's
    when the container's are 0, the first frame has run with the hover
    flag off, and the timeout is pending exactly on a window of width 768
    or less. *)
Theorem init_completes (data : list Z)
    (offsetWidth offsetHeight innerWidth innerHeight : R) (fuel : nat) :
  (2 * 89 * 89 <= fuel)%nat ->
  exists (v : particles) (s0 : app) (draws : nat),
    init random fuel data offsetWidth offsetHeight innerWidth innerHeight = Completed v /\
    createSimulation random (width (sim v)) (basePoints v) (targetPoints v) draws
      = Some s0 /\
    sim v = animate s0 /\
    (1 <= particleCount v <= 89 * 89)%nat /\
    List.length (basePoints v) = particleCount v /\
    targetPoints v = createImagePoints data (basePoints v) /\
    List.length (targetPoints v) = particleCount v /\
    width (sim v) = (if decide (offsetWidth = 0) then innerWidth else offsetWidth) /\
    height v = (if decide (offsetHeight = 0) then innerHeight else offsetHeight) /\
    isHovering (sim v) = false /\ hoverProgress (sim v) = 0 /\
    passes (sim v) = [simPassOf 0; drawPassOf 0] /\
    timer v = bool_decide (innerWidth <= 768).
Proof.
  intros Hf.
  destruct (init_runs data offsetWidth offsetHeight innerWidth innerHeight fuel Hf)
    as (s & s' & s0 & E & F & E0 & Ei).
  destruct (base_count fuel s s' E F) as [Hc _].
  assert (List.length (points s') <= size * size)%nat as Hsz.
  { assert (size * size = 256 * 256)%nat as -> by reflexivity. lia. }
  pose proof (createSimulation_Fresh random _ _ _ _ s0 E0) as Fr.
  destruct (createSimulation_fields _ _ _ _ s0 Hsz E0) as (Ew & Eh & _).
  eexists. exists s0, (draws s'). split; [exact Ei |].
  cbn [sim particleCount basePoints targetPoints height timer].
  split; [change (width (animate s0)) with (width s0); rewrite Ew; exact E0 |].
  split; [reflexivity |]. split; [exact Hc |].
  split; [reflexivity |]. split; [reflexivity |].
  split; [apply createImagePoints_length |].
  split; [exact Ew |]. split; [reflexivity |].
  split; [exact Eh |]. split.
  { rewrite animate_hoverProgress, Eh, (fresh_hover s0 Fr). lra. }
  split; [| reflexivity].
  rewrite animate_passes, (fresh_passes s0 Fr), (fresh_rt1 s0 Fr), (fresh_rt2 s0 Fr).
  reflexivity.
Qed.

(** Property X25.  In the object [init] leaves behind, the texel of every
    particle in the texture of the rest positions holds the particle's
    base point, and its texel in the texture of the targets holds its
    target, both mapped from [[0, 500)] to [[-1, 1)]: every rest position
    and every target lies inside the square the camera shows.  The third
    channel is a number [Math.random] returned and the fourth is 0; the
    target is the base point itself or a pixel of the silhouette. *)
Theorem init_anchors_visible (data : list Z)
    (offsetWidth offsetHeight innerWidth innerHeight : R) (fuel : nat)
    (v : particles) (i : nat) :
  init random fuel data offsetWidth offsetHeight innerWidth innerHeight = Completed v ->
  (i < particleCount v)%nat ->
  exists (b t : point) (rest goal : vec4),
    basePoints v !! i = Some b /\ targetPoints v !! i = Some t /\
    (t = b \/ In t (imagePoints data)) /\
    texture2D (Z.of_nat size) (texels (sim v) BaseTexture) (particleUV i) = rest /\
    texture2D (Z.of_nat size) (texels (sim v) TargetTexture) (particleUV i) = goal /\
    xy rest = ((fst b - 250) / 250, (snd b - 250) / 250) /\
    xy goal = ((fst t - 250) / 250, (snd t - 250) / 250) /\
    (-1 <= px rest < 1 /\ -1 <= py rest < 1) /\
    (-1 <= px goal < 1 /\ -1 <= py goal < 1) /\
    (0 <= pz rest < 1 /\ pw rest = 0) /\ (0 <= pz goal < 1 /\ pw goal = 0).
Proof.
  intros E Hi.
  apply init_Completed in E as (s & s' & s0 & Ec & F & E0 & ->).
  cbn [particleCount basePoints targetPoints sim] in *.
  destruct (base_count fuel s s' Ec F) as [Hc Hd].
  assert (List.length (points s') <= size * size)%nat as Hsz.
  { assert (size * size = 256 * 256)%nat as -> by reflexivity. lia. }
  destruct (createSimulation_fields _ _ _ _ s0 Hsz E0)
    as (_ & _ & W).
  destruct (W i Hi) as (b & t & Hb & Ht & Tb & Tt).
  assert (0 <= fst b < 500 /\ 0 <= snd b < 500) as Db.
  { apply Hd. eapply list_elem_of_lookup_2. exact Hb. }
  assert (t = nearestPoint (imagePoints data) b) as Et.
  { pose proof (createImagePoints_lookup data _ i b Hb) as Hn.
    assert (Some t = Some (nearestPoint (imagePoints data) b)) as Eq.
    { etransitivity; [symmetry; exact Ht | exact Hn]. }
    injection Eq as ->. reflexivity. }
  destruct (target_inside data b Db) as (Hor & Dt). rewrite <- Et in Hor, Dt.
  change (texels (animate s0) BaseTexture) with (dataTexture (baseTexture s0)).
  change (texels (animate s0) TargetTexture) with (dataTexture (targetTexture s0)).
  exists b, t. eexists. eexists.
  split; [exact Hb |]. split; [exact Ht |]. split; [exact Hor |].
  split; [exact Tb |]. split; [exact Tt |].
  unfold xy. cbn [px py pz pw].
  split; [reflexivity |]. split; [reflexivity |].
  split; [lra |]. split; [lra |].
  split; [split; [apply random_range | reflexivity] |].
  split; [apply random_range | reflexivity].
Qed.

End Init.

Lemma zero_range : forall n : nat, 0 <= (fun _ : nat => 0) n < 1.
Proof. intros n. lra. Qed.

Lemma init_completes_witness :
  exists v,
    init (fun _ => 0) (2 * 89 * 89) whiteImage 0 600 1024 768 = Completed v /\
    (1 <= particleCount v <= 89 * 89)%nat /\
    width (sim v) = 1024 /\ height v = 600 /\
    passes (sim v) = [simPassOf 0; drawPassOf 0] /\ timer v = false.
Proof.
  destruct (init_completes (fun _ => 0) zero_range whiteImage 0 600 1024 768
              (2 * 89 * 89) ltac:(lia))
    as (v & s0 & d & E & _ & _ & Hc & _ & _ & _ & Hw & Hh & _ & _ & Hp & Ht).
  exists v. split; [exact E |]. split; [exact Hc |].
  rewrite decide_True in Hw by reflexivity.
  rewrite decide_False in Hh by lra.
  split; [exact Hw |]. split; [exact Hh |]. split; [exact Hp |].
  rewrite Ht. apply bool_decide_eq_false_2. lra.
Defined.

Lemma init_anchors_visible_witness :
  exists v,
    init (fun _ => 0) (2 * 89 * 89) whiteImage 0 600 1024 768 = Completed v /\
    exists (b t : point) (rest goal : vec4),
      basePoints v !! 0%nat = Some b /\ targetPoints v !! 0%nat = Some t /\
      texture2D (Z.of_nat size) (texels (sim v) BaseTexture) (particleUV 0) = rest /\
      (-1 <= px rest < 1 /\ -1 <= py rest < 1) /\
      (-1 <= px goal < 1 /\ -1 <= py goal < 1).
Proof.
  destruct (init_runs (fun _ => 0) zero_range whiteImage 0 600 1024 768
              (2 * 89 * 89) ltac:(lia))
    as (s & s' & s0 & Ec & F & _ & E).
  destruct (base_count (fun _ => 0) zero_range _ s s' Ec F) as [Hc _].
  eexists. split; [exact E |].
  destruct (init_anchors_visible (fun _ => 0) zero_range whiteImage 0 600 1024 768
              (2 * 89 * 89) _ 0 E ltac:(cbn [particleCount]; lia))
    as (b & t & rest & goal & Hb & Ht & _ & Tb & _ & _ & _ & Rb & Rt & _).
  exists b, t, rest, goal. auto.
Defined.

End InitProofs.

(** ** Runs: settling, the idle state, the timeout *)
Module RunProofs.

Import NumberFacts GLSL MorphingParticles ParticlesSpec ShaderProofs FrameProofs.
Import ParticleMaterial Page SessionSpec.
Import SimulationProofs MaterialProofs SessionProofs InitProofs.







Section Idle.

Variable snoise : R * R * R -> R.

(** Property X27.  In frames that follow [createSimulation] and
    [createParticles] without an event, the hover flag stays off and the
    hover value stays 0, and from the first frame on every particle is
    drawn with velocity 0: in [uColor2], with the base alpha, and moved by
    the slow noise only. *)
Theorem idle_run_is_gray (random : nat -> R) (width : R)
    (basePoints targetPoints : list point) (draws : nat)
    (v : particles) (n : nat) (uPixelRatio : R)
    (uColor1 uColor2 : vec3) (i : nat) (gl_PointCoord : vec2) :
  createSimulation random width basePoints targetPoints draws = Some (sim v) ->
  let s := sim (session (replicate (S n) Frame) v) in
  let vertex := drawVertex snoise uPixelRatio s i in
  let posData := texture2D (Z.of_nat size) (contents s (writeTarget n)) (particleUV i) in
  hoverProgress s = 0 /\
  vScale vertex = pz posData /\ vVelocity vertex = 0 /\
  displaced vertex =
    (px posData
       + snoise (px posData * 0.5, py posData * 0.5, time s * 0.15 + 45.0) * 0.02,
     py posData
       + snoise (px posData * 0.5, py posData * 0.5, time s * 0.15 + 87.0) * 0.02) /\
  forall c : vec4,
    drawFragment uColor1 uColor2 s vertex gl_PointCoord = Some c ->
    Vec3 (px c) (py c) (pz c) = uColor2 /\
    pw c = smoothstep 0.5 0.4 (length (sub gl_PointCoord (0.5, 0.5)))
           * vScale vertex * 0.27.
Proof.
  intros Ecreate s vertex posData.
  pose proof (createSimulation_Fresh _ _ _ _ _ _ Ecreate) as F.
  pose proof (createSimulation_idle _ _ _ _ _ _ Ecreate) as Hf.
  pose proof (session_Steady (replicate (S n) Frame) 0 v (Fresh_Steady _ F)) as St.
  assert (frameCount (replicate (S n) Frame) = S n) as Ec.
  { clear. induction (S n) as [| k IH]; [reflexivity |]. simpl. now rewrite IH. }
  rewrite Ec in St. simpl Nat.add in St. fold s in St.
  destruct (steady_draw _ s St ltac:(lia)) as (Ep & Eh & Et).
  assert (hoverProgress s = 0) as H0.
  { unfold s. rewrite session_frames.
    destruct (release_closed_form (S n) (sim v) Hf) as [_ ->].
    rewrite (fresh_hover _ F). ring. }
  assert (texels s (render_uPosition (renderMaterial s)) = contents s (writeTarget n))
    as Etex.
  { rewrite Ep, (steady_rt1 _ s St), read_after_write. reflexivity. }
  assert (pw posData = 0) as Hw.
  { unfold posData, s. rewrite session_frames. simpl Nat.iter.
    rewrite animate_contents.
    assert (rt2 (Nat.iter n animate (sim v)) = writeTarget n) as ->.
    { rewrite <- session_frames.
      pose proof (session_Steady (replicate n Frame) 0 v (Fresh_Steady _ F)) as Sn.
      assert (frameCount (replicate n Frame) = n) as En.
      { clear. induction n as [| k IH]; [reflexivity |]. simpl. now rewrite IH. }
      rewrite En in Sn. exact (steady_rt2 _ _ Sn). }
    rewrite decide_True by reflexivity.
    unfold texture2D, simPass, simFragment.
    set (h := hoverProgress (animate (Nat.iter n animate (sim v)))).
    assert (h = 0) as ->.
    { unfold h. change (animate (Nat.iter n animate (sim v)))
        with (Nat.iter (S n) animate (sim v)).
      rewrite <- session_frames. exact H0. }
    unfold simulate.
    destruct (decide (lifeTime _ _ < 0.01)); cbv beta iota zeta; cbn [pw];
      apply Rmult_0_r. }
  assert (vVelocity vertex = 0) as Hv.
  { unfold vertex, drawVertex, vertexMain. cbn [vVelocity]. rewrite Etex. exact Hw. }
  split; [exact H0 |]. split.
  { unfold vertex, drawVertex, vertexMain. cbn [vScale]. rewrite Etex. reflexivity. }
  split; [exact Hv |]. split.
  { unfold vertex, drawVertex, vertexMain. cbn [displaced]. rewrite Etex, Et.
    fold posData.
    assert (mix 0.0 (smoothstep 0.0 0.9 (pw posData))
              (render_uIsHovering (renderMaterial s)) = 0) as ->.
    { unfold mix. rewrite Hw. rewrite smoothstep_below by lra. lra. }
    unfold xy. cbn [fst snd]. f_equal; ring. }
  intros c E. unfold drawFragment in E. rewrite Eh, H0, Hv in E.
  apply fragment_alpha in E as [_ ->]. cbn [px py pz pw].
  rewrite (shape_low 0) by lra. unfold mix.
  split; [destruct uColor2; cbn [red green blue]; f_equal; ring |].
  generalize (smoothstep 0.5 0.4 (length (sub gl_PointCoord (0.5, 0.5))) * vScale vertex).
  intros a. lra.
Qed.

End Idle.

Section Timer.

Variable random : nat -> R.

(** Property X28.  On a window of width 768 or less [init] leaves the
    timeout pending and the hover value at 0 until it fires; [n] frames
    after it has fired the hover value is [1 - 0.95 ^ n], and a second
    firing changes nothing.  On a wider window no timeout is pending and
    its handler changes nothing. *)
Theorem mobile_auto_activates (data : list Z)
    (offsetWidth offsetHeight innerWidth innerHeight : R) (fuel : nat)
    (v : particles) :
  init random fuel data offsetWidth offsetHeight innerWidth innerHeight = Completed v ->
  (innerWidth <= 768 ->
   forall (w : R) (n : nat),
     hoverProgress (sim (session (replicate n Frame) v)) = 0 /\
     hoverProgress (sim (session (Event w Timeout :: replicate n Frame) v))
       = 1 - 0.95 ^ n /\
     handle w Timeout (handle w Timeout v) = handle w Timeout v) /\
  (768 < innerWidth -> forall w : R, handle w Timeout v = v).
Proof.
  intros E. apply init_Completed in E as (s & s' & s0 & _ & _ & E0 & ->).
  pose proof (createSimulation_Fresh random _ _ _ _ s0 E0) as Fr.
  pose proof (createSimulation_idle random _ _ _ _ s0 E0) as Hf.
  assert (hoverProgress (animate s0) = 0) as H1.
  { rewrite animate_hoverProgress, Hf, (fresh_hover s0 Fr). lra. }
  split.
  - intros Hw w n.
    rewrite bool_decide_eq_true_2 by exact Hw.
    split; [| split].
    + rewrite session_frames. cbn [sim].
      destruct (release_closed_form n (animate s0) Hf) as [_ ->]. rewrite H1. ring.
    + change (session (?a :: ?l) ?x) with (session l (act x a)).
      rewrite session_frames. simpl act. cbn [sim].
      destruct (press_closed_form n (setHovering true (animate s0)) eq_refl) as [_ ->].
      change (hoverProgress (setHovering true (animate s0)))
        with (hoverProgress (animate s0)).
      rewrite H1. ring.
    + reflexivity.
  - intros Hw w. rewrite bool_decide_eq_false_2 by lra. reflexivity.
Qed.

End Timer.



Lemma idle_run_is_gray_witness :
  exists s0, createSimulation (fun _ => 0) 1000 [] [] 0 = Some s0 /\
    let s := sim (session (replicate 3 Frame) (around s0 600 [] [] false)) in
    hoverProgress s = 0 /\ vVelocity (drawVertex (fun _ => 0) 2 s 0) = 0.
Proof.
  destruct empty_app as (s0 & E & F). exists s0. split; [exact E |].
  intros s.
  destruct (idle_run_is_gray (fun _ => 0) (fun _ => 0) 1000 [] [] 0
              (around s0 600 [] [] false) 2 2
              (Vec3 0 0.4 1) (Vec3 0.6 0.6 0.6) 0 (0.5, 0.5) E)
    as (H0 & _ & Hv & _).
  split; [exact H0 | exact Hv].
Defined.

Lemma mobile_auto_activates_witness :
  exists v,
    init (fun _ => 0) (2 * 89 * 89) whiteImage 0 600 375 667 = Completed v /\
    hoverProgress (sim (session (Event 375 Timeout :: replicate 2 Frame) v))
      = 1 - 0.95 ^ 2.
Proof.
  destruct (init_runs (fun _ => 0) zero_range whiteImage 0 600 375 667
              (2 * 89 * 89) ltac:(lia)) as (s & s' & s0 & _ & _ & _ & E).
  eexists. split; [exact E |].
  destruct (mobile_auto_activates (fun _ => 0) whiteImage 0 600 375 667
              (2 * 89 * 89) _ E) as [Hm _].
  destruct (Hm ltac:(lra) 375 2%nat) as (_ & H & _). exact H.
Defined.

End RunProofs.
